(** * Photo Selector: ingestion, batched scoring and similarity grouping

    A shallow embedding of the main-process services of the photo selector
    (claude-vision.ts, similarity-grouping.ts, photo-manager.ts and the
    upload handler of ipc-handlers.ts), and the properties of the
    specification that concern them; then the cost estimate, the export,
    the other handlers of ipc-handlers.ts on photos, groups and prompt
    templates, the migrations of database.ts and the helpers of the project
    view (ProjectView.tsx), with properties read off their code.

    Conventions of the embedding:
    - the SQLite tables are lists of rows, in insertion order;
    - JavaScript numbers are IEEE 754 doubles ([Double.number]): a finite
      double is held as the rational that it is, next to the two
      infinities and NaN, and an arithmetic operation rounds its exact
      result to the nearest double, ties to even; the two zeros are one
      zero. A JSON number is held with the value of its text, and it is
      read as the double nearest to it. A JSON text is a [string] whose
      characters are code units below 256;
    - asynchronous code is sequential code over an explicit [World]
      (database, file system, clock, the log of delays and of progress
      events); an exception is a result [Throw e] next to the world it
      leaves behind; a loop or a recursion that is not structural takes
      fuel, and [OutOfFuel] is the result when it runs out;
    - console.log and console.error are not modelled, but for an exception
      that the evaluation of their arguments raises;
    - the external collaborators (the vision service, JSON.parse, the
      conversion of a string, an array or an object to a number, what the
      SQLite driver does with a bound value that is neither a string nor
      null, the SHA-256 digest, the thumbnail producer, Node's path
      module) are variables of the sections that use them. *)

From Stdlib Require Import Ascii QArith Qround Lqa.
From stdpp Require Import base option list numbers strings gmap pretty sorting.

Local Open Scope Z_scope.

(** ** JavaScript strings and arrays *)

Module Js.

(** The characters matched by the regular expression class \s and removed
    by String.prototype.trim, among the code units below 256: TAB, LF, VT,
    FF, CR, SPACE and NBSP. *)
Definition is_space (c : ascii) : bool :=
  let n := nat_of_ascii c in
  ((9 <=? n)%nat && (n <=? 13)%nat) || (n =? 32)%nat || (n =? 160)%nat.

Fixpoint trimStart (s : string) : string :=
  match s with
  | String c s' => if is_space c then trimStart s' else s
  | EmptyString => EmptyString
  end.

(** Removes the white space that ends [s]. *)
Fixpoint trimEnd (s : string) : string :=
  match s with
  | String c s' =>
      match trimEnd s' with
      | EmptyString => if is_space c then EmptyString else String c EmptyString
      | t => String c t
      end
  | EmptyString => EmptyString
  end.

(** String.prototype.trim *)
Definition trim (s : string) : string := trimEnd (trimStart s).

(** [strip_prefix p s] is what follows [p] in [s], when [s] starts with [p]. *)
Fixpoint strip_prefix (p s : string) : option string :=
  match p, s with
  | EmptyString, _ => Some s
  | String a p', String b s' => if Ascii.eqb a b then strip_prefix p' s' else None
  | String _ _, EmptyString => None
  end.

(** [find_sub p s] splits [s] at the first occurrence of [p]: what is
    before it and what is after it. *)
Fixpoint find_sub (p s : string) : option (string * string) :=
  match strip_prefix p s with
  | Some rest => Some (EmptyString, rest)
  | None =>
      match s with
      | String c s' =>
          match find_sub p s' with
          | Some (before, rest) => Some (String c before, rest)
          | None => None
          end
      | EmptyString => None
      end
  end.

Definition fence : string := "```".

(** text.match(/```(?:json)?\s*([\s\S]*?)\s*```/): the first capture group
    of the leftmost match, [None] when nothing matches. The match starts at
    the first fence; the optional tag json and the white space after it are
    taken greedily; the lazy group stops where white space and then a fence
    follow for the first time, so it ends before the white space that
    precedes the next fence. No fence after the first one: no match, at that
    position or at any later one. *)
Definition match_fence (text : string) : option string :=
  match find_sub fence text with
  | None => None
  | Some (_, rest) =>
      let untagged := default rest (strip_prefix "json" rest) in
      match find_sub fence (trimStart untagged) with
      | Some (inner, _) => Some (trimEnd inner)
      | None => None
      end
  end.

(** const jsonStr = jsonMatch ? jsonMatch[1] : text.trim(); *)
Definition jsonStr (text : string) : string :=
  match match_fence text with
  | Some inner => inner
  | None => trim text
  end.

(** Array.prototype.slice(i, j) for 0 <= i <= j: the elements of index
    i .. j-1 that exist. *)
Definition slice {A} (i j : nat) (l : list A) : list A := take (j - i) (drop i l).

(** The loop
      for (let i = 0; i < photos.length; i += B) { batch = photos.slice(i, i + B); ... }
    of analyzePhotos and groupPhotos, as the list of the pairs (i, batch) it
    goes through. The array is not modified by the loop's body, so the
    batches can be listed before the body runs. [None]: the fuel ran out. *)
Fixpoint batch_loop {A} (fuel B i : nat) (photos : list A)
  : option (list (nat * list A)) :=
  if (i <? length photos)%nat then
    match fuel with
    | O => None
    | S fuel' =>
        cons (i, slice i (i + B) photos) <$> batch_loop fuel' B (i + B)%nat photos
    end
  else Some [].

Definition batches {A} (B : nat) (photos : list A) : option (list (nat * list A)) :=
  batch_loop (length photos) B 0 photos.

(** Math.ceil(n / b) on naturals. *)
Definition ceil_div (n b : nat) : nat := ((n + b - 1) / b)%nat.

End Js.

(** ** The numbers of JavaScript *)

Module Double.

(** A number of JavaScript other than NaN, which is also what a REAL of
    SQLite holds: a finite double, held as the rational that it is, or an
    infinity. The two zeros are one zero here: the sign of a zero shows in
    a division by it and in the text of the number only, and the code that
    is modelled has neither. *)
Inductive real :=
| Finite (q : Q)
| Infinity
| NegInfinity.

(** A number of JavaScript. *)
Inductive number :=
| Num (x : real)
| NaN.

(** The integer nearest to [x], the even one when two are as near. *)
Definition round_even (x : Q) : Z :=
  let f := Qfloor x in
  match (x - inject_Z f ?= 1 # 2)%Q with
  | Lt => f
  | Gt => f + 1
  | Eq => if Z.even f then f else f + 1
  end.

(** The finite doubles are the multiples k * 2^u of the powers of two
    2^u >= 2^-1074 by the integers |k| < 2^53, below 2^1024 in absolute
    value. [nearest q], for q >= 0, is the double nearest to [q], the one
    with the even k when two are as near (round to nearest, ties to even),
    and Infinity from 2^1024 - 2^970 on. The computation is on the integer
    part of q * 2^1074, which has the binary exponent of q when q is not
    below 2^-1022. *)
Definition scale : Z := 2 ^ 1074.

(** The quantum of x >= 0, in units of 2^-1074, is 2 ^ [quantum x]. *)
Definition quantum (x : Q) : Z := Z.max (Z.log2 (Qfloor x)) 52 - 52.

(** The multiple of the quantum of [x] nearest to [x]. *)
Definition units (x : Q) : Z :=
  round_even (x / inject_Z (2 ^ quantum x)) * 2 ^ quantum x.

Definition nearest (q : Q) : real :=
  let n := units (q * inject_Z scale) in
  if 2 ^ 2098 <=? n then Infinity
  else Finite (Qred (inject_Z n / inject_Z scale)).

Definition opp (x : real) : real :=
  match x with
  | Finite q => Finite (Qred (- q))
  | Infinity => NegInfinity
  | NegInfinity => Infinity
  end.

(** The double that a real number is rounded to: what an arithmetic
    operation of JavaScript returns for the exact result [q], and the value
    of a numeric literal. *)
Definition fl (q : Q) : real :=
  match (q ?= 0)%Q with
  | Lt => opp (nearest (- q))
  | _ => nearest q
  end.

Definition of_Z (n : Z) : number := Num (fl (inject_Z n)).

(** x <= y and x < y on the numbers other than NaN. *)
Definition leb (x y : real) : bool :=
  match x, y with
  | NegInfinity, _ => true
  | _, Infinity => true
  | Finite p, Finite q => Qle_bool p q
  | _, _ => false
  end.

Definition ltb (x y : real) : bool := negb (leb y x).

(** x === y on the numbers other than NaN *)
Definition eqb (x y : real) : bool := leb x y && leb y x.

Definition le (x y : real) : Prop := leb x y = true.
Definition lt (x y : real) : Prop := ltb x y = true.

(** -1, 0 or 1 *)
Definition sign (x : real) : Z :=
  match x with
  | Finite q => match (q ?= 0)%Q with Lt => -1 | Eq => 0 | Gt => 1 end
  | Infinity => 1
  | NegInfinity => -1
  end.

(** x * y *)
Definition mul (x y : number) : number :=
  match x, y with
  | Num (Finite p), Num (Finite q) => Num (fl (p * q))
  | Num a, Num b =>
      match sign a * sign b with
      | 0 => NaN
      | Zpos _ => Num Infinity
      | Zneg _ => Num NegInfinity
      end
  | _, _ => NaN
  end.

(** x / y. A division by zero is one by +0. *)
Definition div (x y : number) : number :=
  match x, y with
  | Num (Finite p), Num (Finite q) =>
      match (q ?= 0)%Q with
      | Eq => match sign (Finite p) with
              | 0 => NaN
              | Zpos _ => Num Infinity
              | Zneg _ => Num NegInfinity
              end
      | _ => Num (fl (p / q))
      end
  | Num (Finite _), Num _ => Num (Finite 0)
  | Num a, Num (Finite q) =>
      match sign a * (match (q ?= 0)%Q with Lt => -1 | _ => 1 end) with
      | Zneg _ => Num NegInfinity
      | _ => Num Infinity
      end
  | _, _ => NaN
  end.

(** x + y *)
Definition add (x y : number) : number :=
  match x, y with
  | Num (Finite p), Num (Finite q) => Num (fl (p + q))
  | Num Infinity, Num NegInfinity | Num NegInfinity, Num Infinity => NaN
  | Num (Finite _), Num b => Num b
  | Num a, Num _ => Num a
  | _, _ => NaN
  end.

(** x - y *)
Definition sub (x y : number) : number :=
  match y with
  | Num b => add x (Num (opp b))
  | NaN => NaN
  end.

(** Math.round(x): the integer nearest to x, the greater one when two are
    as near. It is exact: the result is a double when x is. *)
Definition Math_round (x : number) : number :=
  match x with
  | Num (Finite q) => Num (Finite (inject_Z (Qfloor (q + (1 # 2)))))
  | other => other
  end.

(** A number with the sign of x - y, and 0 when x - y is NaN (the
    difference of an infinity and itself), which is how a sort reads the
    result of its comparator. The difference of two doubles is not rounded
    to zero: its sign is that of the exact difference. *)
Definition difference (x y : real) : Q :=
  match x, y with
  | Finite p, Finite q => p - q
  | Infinity, Infinity | NegInfinity, NegInfinity => 0
  | Infinity, _ | _, NegInfinity => 1
  | _, _ => -1
  end.

(** x < y on numbers: false when one is NaN. *)
Definition lt_number (x y : number) : bool :=
  match x, y with
  | Num a, Num b => ltb a b
  | _, _ => false
  end.

End Double.

(** ** JSON values and JSON.parse *)

Module Json.

#[local] Set Warnings "-register-all".

(** What JSON.parse returns. An object keeps its members in the order of the
    text; a key that occurs twice has the value of its last occurrence. A
    number is held with the value of its text: the number of JavaScript is
    the double nearest to it ([Double.fl]). *)
Inductive json :=
| JNull
| JBool (b : bool)
| JNum (q : Q)
| JStr (s : string)
| JArr (items : list json)
| JObj (members : list (string * json)).

Fixpoint assoc_last (key : string) (members : list (string * json)) : option json :=
  match members with
  | [] => None
  | (k, v) :: rest =>
      match assoc_last key rest with
      | Some v' => Some v'
      | None => if String.eqb k key then Some v else None
      end
  end.

(** The characters of a string, each as a string of its own. *)
Fixpoint chars (s : string) : list json :=
  match s with
  | EmptyString => []
  | String c s' => JStr (String c EmptyString) :: chars s'
  end.

(** *** A parser for JSON texts *)

Definition is_json_space (c : ascii) : bool :=
  let n := nat_of_ascii c in
  (n =? 32)%nat || (n =? 9)%nat || (n =? 10)%nat || (n =? 13)%nat.

Fixpoint skip_ws (s : string) : string :=
  match s with
  | String c s' => if is_json_space c then skip_ws s' else s
  | EmptyString => EmptyString
  end.

Definition digit_of (c : ascii) : option Z :=
  let n := nat_of_ascii c in
  if (48 <=? n)%nat && (n <=? 57)%nat then Some (Z.of_nat (n - 48)) else None.

Definition hex_of (c : ascii) : option Z :=
  let n := nat_of_ascii c in
  if (48 <=? n)%nat && (n <=? 57)%nat then Some (Z.of_nat (n - 48))
  else if (65 <=? n)%nat && (n <=? 70)%nat then Some (Z.of_nat (n - 55))
  else if (97 <=? n)%nat && (n <=? 102)%nat then Some (Z.of_nat (n - 87))
  else None.

(** The digits that start [s]: their value after [acc], how many they are,
    and what follows them. *)
Fixpoint digits (acc : Z) (count : nat) (s : string) : Z * nat * string :=
  match s with
  | String c s' =>
      match digit_of c with
      | Some d => digits (10 * acc + d) (S count) s'
      | None => (acc, count, s)
      end
  | EmptyString => (acc, count, s)
  end.

Definition pow10 (e : Z) : Q := Qpower (10 # 1) e.

(** A number: an optional minus sign; 0, or digits that do not start with 0;
    an optional fraction (a dot and digits); an optional exponent (e or E, an
    optional sign, digits). *)
Definition parse_number (s : string) : option (Q * string) :=
  let '(neg, s1) :=
    match s with
    | String "-"%char r => (true, r)
    | _ => (false, s)
    end in
  let '(int, n_int, s2) := digits 0 0 s1 in
  let leading_zero :=
    match s1 with
    | String "0"%char _ => (1 <? n_int)%nat
    | _ => false
    end in
  if (n_int =? 0)%nat || leading_zero then None else
  let frac :=
    match s2 with
    | String "."%char r =>
        let '(f, n_f, s3) := digits 0 0 r in
        if (n_f =? 0)%nat then None
        else Some (Qmult (inject_Z f) (pow10 (- Z.of_nat n_f)), s3)
    | _ => Some (0%Q, s2)
    end in
  match frac with
  | None => None
  | Some (fq, s3) =>
      let mantissa := Qplus (inject_Z int) fq in
      let signed := if neg then Qopp mantissa else mantissa in
      let with_exp (r : string) :=
        let '(eneg, r1) :=
          match r with
          | String "-"%char r' => (true, r')
          | String "+"%char r' => (false, r')
          | _ => (false, r)
          end in
        let '(e, n_e, r2) := digits 0 0 r1 in
        if (n_e =? 0)%nat then None
        else Some (Qred (Qmult signed (pow10 (if eneg then - e else e))), r2) in
      match s3 with
      | String "e"%char r => with_exp r
      | String "E"%char r => with_exp r
      | _ => Some (Qred signed, s3)
      end
  end.

(** The characters of a string literal, after its opening quote, up to its
    closing quote. An escape \uXXXX above 00FF has no character in this
    model: the text is rejected. *)
Fixpoint parse_chars (fuel : nat) (s : string) : option (string * string) :=
  match fuel with
  | O => None
  | S fuel' =>
      match s with
      | EmptyString => None
      | String c r =>
          let n := nat_of_ascii c in
          if (n =? 34)%nat then Some (EmptyString, r)
          else if (n <? 32)%nat then None
          else if (n =? 92)%nat then
            match r with
            | String e r' =>
                let plain (ch : nat) :=
                  '(t, rest) ← parse_chars fuel' r'; Some (String (ascii_of_nat ch) t, rest) in
                match e with
                | "b"%char => plain 8%nat
                | "f"%char => plain 12%nat
                | "n"%char => plain 10%nat
                | "r"%char => plain 13%nat
                | "t"%char => plain 9%nat
                | "/"%char => plain 47%nat
                | "\"%char => plain 92%nat
                | "u"%char =>
                    match r' with
                    | String h1 (String h2 (String h3 (String h4 r''))) =>
                        a ← hex_of h1; b ← hex_of h2; c' ← hex_of h3; d ← hex_of h4;
                        let code := ((a * 16 + b) * 16 + c') * 16 + d in
                        if code <? 256 then
                          '(t, rest) ← parse_chars fuel' r'';
                          Some (String (ascii_of_nat (Z.to_nat code)) t, rest)
                        else None
                    | _ => None
                    end
                | _ => if (nat_of_ascii e =? 34)%nat then plain 34%nat else None
                end
            | EmptyString => None
            end
          else '(t, rest) ← parse_chars fuel' r; Some (String c t, rest)
      end
  end.

Definition parse_string (s : string) : option (string * string) :=
  match s with
  | String c r =>
      if (nat_of_ascii c =? 34)%nat then parse_chars (String.length r) r else None
  | EmptyString => None
  end.

(** value, then the elements of an array after its first one, then the
    members of an object after its first one: one function, by the kind
    asked for. *)
Inductive goal := GValue | GItems (acc : list json) | GMembers (acc : list (string * json)).

Fixpoint parse (fuel : nat) (g : goal) (s : string) : option (json * string) :=
  match fuel with
  | O => None
  | S fuel' =>
      match g with
      | GValue =>
          match skip_ws s with
          | String "n"%char (String "u"%char (String "l"%char (String "l"%char r))) => Some (JNull, r)
          | String "t"%char (String "r"%char (String "u"%char (String "e"%char r))) => Some (JBool true, r)
          | String "f"%char (String "a"%char (String "l"%char (String "s"%char (String "e"%char r)))) =>
              Some (JBool false, r)
          | String "["%char r =>
              match skip_ws r with
              | String "]"%char r' => Some (JArr [], r')
              | _ =>
                  '(v, r1) ← parse fuel' GValue r;
                  parse fuel' (GItems [v]) r1
              end
          | String "{"%char r =>
              match skip_ws r with
              | String "}"%char r' => Some (JObj [], r')
              | r0 =>
                  '(k, r1) ← parse_string r0;
                  match skip_ws r1 with
                  | String ":"%char r2 =>
                      '(v, r3) ← parse fuel' GValue r2;
                      parse fuel' (GMembers [(k, v)]) r3
                  | _ => None
                  end
              end
          | String c _ as s0 =>
              if (nat_of_ascii c =? 34)%nat then
                '(t, r') ← parse_string s0; Some (JStr t, r')
              else
                '(q, r') ← parse_number s0; Some (JNum q, r')
          | EmptyString => None
          end
      | GItems acc =>
          match skip_ws s with
          | String "]"%char r => Some (JArr (rev acc), r)
          | String ","%char r =>
              '(v, r1) ← parse fuel' GValue r;
              parse fuel' (GItems (v :: acc)) r1
          | _ => None
          end
      | GMembers acc =>
          match skip_ws s with
          | String "}"%char r => Some (JObj (rev acc), r)
          | String ","%char r =>
              '(k, r1) ← parse_string (skip_ws r);
              match skip_ws r1 with
              | String ":"%char r2 =>
                  '(v, r3) ← parse fuel' GValue r2;
                  parse fuel' (GMembers ((k, v) :: acc)) r3
              | _ => None
              end
          | _ => None
          end
      end
  end.

(** JSON.parse: [None] when it throws a SyntaxError. Every step of [parse]
    takes a character of the text, so the fuel does not run out. *)
Definition json_parse (text : string) : option json :=
  match parse (S (S (String.length text))) GValue text with
  | Some (v, rest) =>
      match skip_ws rest with
      | EmptyString => Some v
      | _ => None
      end
  | None => None
  end.

(** A JSON text written with ' for the double quote. *)
Fixpoint dq (s : string) : string :=
  match s with
  | EmptyString => EmptyString
  | String c s' => String (if Ascii.eqb c "'"%char then ascii_of_nat 34 else c) (dq s')
  end.

End Json.
Export Json(json(..)).

(** ** The photo store *)

(** A row of the table projects. *)
Module Project.
Record t := make {
  id : Z;
  name : string;
  prompt : option string;
  created_at : Z;
  updated_at : Z
}.
End Project.

(** A row of the table photos. *)
Module Photo.
Record t := make {
  id : Z;
  project_id : Z;
  original_filename : string;
  original_path : string;
  thumbnail_path : string;
  file_hash : string;
  file_size : Z;
  score : option Double.real;
  ai_comment : option string;
  selected : bool;
  similarity_group_id : option Z;
  created_at : Z;
  updated_at : Z
}.

(** UPDATE photos SET score = ?, ai_comment = ?, updated_at = datetime('now') *)
Definition set_score (s : option Double.real) (comment : option string) (now : Z)
    (p : t) : t :=
  make (id p) (project_id p) (original_filename p) (original_path p)
       (thumbnail_path p) (file_hash p) (file_size p)
       s comment (selected p) (similarity_group_id p)
       (created_at p) now.

(** UPDATE photos SET similarity_group_id = ? *)
Definition set_group (g : option Z) (p : t) : t :=
  make (id p) (project_id p) (original_filename p) (original_path p)
       (thumbnail_path p) (file_hash p) (file_size p)
       (score p) (ai_comment p) (selected p) g
       (created_at p) (updated_at p).

(** ORDER BY id *)
Definition id_le (p q : t) : Prop := id p <= id q.
End Photo.

#[global] Instance id_le_dec : RelDecision Photo.id_le.
Proof. intros p q. unfold Photo.id_le. apply _. Defined.

(** Exceptions. *)
Inductive exn :=
| ApiError (status : option Z)  (** thrown by the client of the vision service;
                                    the status is that of the HTTP response, when there is one *)
| TypeError                     (** a property of null or undefined is read, or a value
                                    that is not iterable is iterated *)
| FsError (path : string)       (** a file cannot be read or written *)
| DriverError                   (** thrown by the SQLite driver for a value that it
                                    does not bind *)
| Error (message : string).     (** throw new Error(message) *)

(** error.status *)
Definition status (e : exn) : option Z :=
  match e with
  | ApiError s => s
  | _ => None
  end.

(** The texts of the progress events of a scoring run. *)
Inductive ProgressMessage :=
| AnalyzingBatch (number : nat)   (** Analyzing batch N... *)
| ErrorInBatch (error : exn)      (** Error in batch, continuing... (message) *)
| AnalysisComplete.               (** Analysis complete! *)

(** What the main process sends to the renderer. *)
Inductive IpcEvent :=
| AnalyzeProgress (current total : nat) (message : ProgressMessage)
| UploadProgress (current total : nat) (filename : string).

(** What the code reads and changes: the two tables and the counter of
    AUTOINCREMENT, the files and directories, the clock that datetime('now')
    reads, the field nextGroupId of the grouping service in use, the number
    of requests sent to the vision service, the delays awaited (in ms,
    oldest first) and the events sent (oldest first). *)
Record World := mkWorld {
  photos : list Photo.t;
  projects : list Project.t;
  next_photo_id : Z;
  files : gmap string string;
  dirs : gset string;
  clock : Z;
  nextGroupId : Z;
  api_calls : nat;
  delays : list Z;
  sent : list IpcEvent
}.

Definition set_photos (f : list Photo.t -> list Photo.t) (w : World) : World :=
  mkWorld (f (photos w)) (projects w) (next_photo_id w) (files w) (dirs w)
          (clock w) (nextGroupId w) (api_calls w) (delays w) (sent w).

Definition set_next_photo_id (n : Z) (w : World) : World :=
  mkWorld (photos w) (projects w) n (files w) (dirs w)
          (clock w) (nextGroupId w) (api_calls w) (delays w) (sent w).

Definition set_files (f : gmap string string -> gmap string string) (w : World) : World :=
  mkWorld (photos w) (projects w) (next_photo_id w) (f (files w)) (dirs w)
          (clock w) (nextGroupId w) (api_calls w) (delays w) (sent w).

Definition set_dirs (f : gset string -> gset string) (w : World) : World :=
  mkWorld (photos w) (projects w) (next_photo_id w) (files w) (f (dirs w))
          (clock w) (nextGroupId w) (api_calls w) (delays w) (sent w).

Definition set_nextGroupId (g : Z) (w : World) : World :=
  mkWorld (photos w) (projects w) (next_photo_id w) (files w) (dirs w)
          (clock w) g (api_calls w) (delays w) (sent w).

(** The time passes and the delay is recorded. *)
Definition add_delay (waitTime : Z) (w : World) : World :=
  mkWorld (photos w) (projects w) (next_photo_id w) (files w) (dirs w)
          (clock w + waitTime) (nextGroupId w) (api_calls w)
          (delays w ++ [waitTime]) (sent w).

Definition add_call (w : World) : World :=
  mkWorld (photos w) (projects w) (next_photo_id w) (files w) (dirs w)
          (clock w) (nextGroupId w) (S (api_calls w)) (delays w) (sent w).

Definition add_sent (e : IpcEvent) (w : World) : World :=
  mkWorld (photos w) (projects w) (next_photo_id w) (files w) (dirs w)
          (clock w) (nextGroupId w) (api_calls w) (delays w) (sent w ++ [e]).

(** ** Sequential code with exceptions *)

Inductive result (A : Type) :=
| Ok (a : A)
| Throw (e : exn)
| OutOfFuel.
Arguments Ok {A} a.
Arguments Throw {A} e.
Arguments OutOfFuel {A}.

Definition M (A : Type) : Type := World -> World * result A.

Definition ret {A} (a : A) : M A := fun w => (w, Ok a).
Definition throw {A} (e : exn) : M A := fun w => (w, Throw e).
Definition out_of_fuel {A} : M A := fun w => (w, OutOfFuel).

Definition bind {A B} (m : M A) (k : A -> M B) : M B :=
  fun w =>
    match m w with
    | (w', Ok a) => k a w'
    | (w', Throw e) => (w', Throw e)
    | (w', OutOfFuel) => (w', OutOfFuel)
    end.

(** try { body } catch (error) { handler } *)
Definition try_catch {A} (body : M A) (handler : exn -> M A) : M A :=
  fun w =>
    match body w with
    | (w', Throw e) => handler e w'
    | r => r
    end.

Definition lift {A} (r : result A) : M A := fun w => (w, r).
Definition gets {A} (f : World -> A) : M A := fun w => (w, Ok (f w)).
Definition modify (f : World -> World) : M unit := fun w => (f w, Ok tt).

Notation "'let*' x ':=' m 'in' k" := (bind m (fun x => k))
  (at level 10, x pattern, m at level 100, k at level 200).
Notation "m ';;' k" := (bind m (fun _ => k))
  (at level 100, k at level 200, right associativity).

(** for (const x of l) { body } *)
Fixpoint for_each {A} (l : list A) (body : A -> M unit) : M unit :=
  match l with
  | [] => ret tt
  | x :: rest => body x ;; for_each rest body
  end.

(** A loop that carries a local variable. *)
Fixpoint fold_each {A S} (l : list A) (acc : S) (body : S -> A -> M S) : M S :=
  match l with
  | [] => ret acc
  | x :: rest => let* acc' := body acc x in fold_each rest acc' body
  end.

(** fs.readFile(path) *)
Definition readFile (path : string) : M string :=
  fun w =>
    match files w !! path with
    | Some bytes => (w, Ok bytes)
    | None => (w, Throw (FsError path))
    end.

(** await new Promise((resolve) => setTimeout(resolve, waitTime)) *)
Definition sleep (waitTime : Z) : M unit := modify (add_delay waitTime).

(** webContents.send(channel, event) *)
Definition send (e : IpcEvent) : M unit := modify (add_sent e).

(** ** Values of JavaScript *)

(** v.key, for a value [v] that JSON.parse returned and a key that is not
    one of the prototype's. [Ok None] is undefined. *)
Definition prop (v : json) (key : string) : result (option json) :=
  match v with
  | JNull => Throw TypeError
  | JObj members => Ok (Json.assoc_last key members)
  | _ => Ok None
  end.

(** The values that for (const x of v) goes through. *)
Definition iterate (v : option json) : result (list json) :=
  match v with
  | Some (JArr items) => Ok items
  | Some (JStr s) => Ok (Json.chars s)
  | _ => Throw TypeError
  end.

(** id === v, for the id of a row: both are numbers, and they are equal
    as doubles. *)
Definition id_eq (id : Z) (v : option json) : bool :=
  match v with
  | Some (JNum q) => Double.eqb (Double.fl q) (Double.fl (inject_Z id))
  | _ => false
  end.

(** ToNumber(v), for a value [v] that JSON.parse returned or undefined
    ([None]). A JSON number is held with the value of its text, and the
    number of JavaScript is the double nearest to it. The number of a
    string, of an array or of an object is the engine's business
    (StringToNumber and ToPrimitive): [coerce]. *)
Definition ToNumber (coerce : json -> Double.number) (v : option json) : Double.number :=
  match v with
  | None => Double.NaN
  | Some JNull => Double.Num (Double.Finite 0)
  | Some (JBool b) => Double.Num (Double.Finite (if b then 1 else 0))
  | Some (JNum q) => Double.Num (Double.fl q)
  | Some other => coerce other
  end.

(** What SQLite stores for a number that is bound to a REAL column: NULL
    for NaN. *)
Definition stored (x : Double.number) : option Double.real :=
  match x with
  | Double.Num r => Some r
  | Double.NaN => None
  end.

(** ** The vision service *)

(** The blocks of a request. *)
Inductive ContentBlock :=
| ImageBlock (data : string)   (** a base64 JPEG *)
| TextBlock (text : string).

(** The blocks of a response: response.content[i].type is 'text' or not. *)
Inductive ResponseBlock :=
| RText (text : string)
| ROther.

(** How a call of client.messages.create ends. *)
Inductive Outcome :=
| Responds (content : list ResponseBlock)
| Rejects (error : exn).

(** await this.client.messages.create({ ..., messages: [{ role: 'user', content }] }),
    for a client [create] that gives the outcome of a call from the number
    of calls made before it and the content sent. *)
Definition messages_create (create : nat -> list ContentBlock -> Outcome)
    (content : list ContentBlock) : M (list ResponseBlock) :=
  fun w =>
    match create (api_calls w) content with
    | Responds response => (add_call w, Ok response)
    | Rejects error => (add_call w, Throw error)
    end.

(** The body of the loop that builds the content of a request, the same in
    analyzeBatch and in processBatch: an image block and a text block for a
    photo whose thumbnail can be read, nothing for another one.
      try { imageBuffer = await fs.readFile(photo.thumbnail_path);
            content.push(image); content.push(text) } catch (error) { } *)
Definition pushThumbnail (base64 : string -> string)
    (content : list ContentBlock) (photo : Photo.t) : M (list ContentBlock) :=
  try_catch
    (let* imageBuffer := readFile (Photo.thumbnail_path photo) in
     ret (content ++ [ImageBlock (base64 imageBuffer);
                      TextBlock ("[Photo ID: " +:+ pretty (Photo.id photo) +:+ "]")]))
    (fun _ => ret content).

(** ** ClaudeVisionService: scoring *)

Module ClaudeVisionService.

Definition BATCH_SIZE : nat := 10.

Section Service.
(** client.messages.create, by the number of calls made before this one
    and the content sent. *)
Variable create : nat -> list ContentBlock -> Outcome.
(** JSON.parse: [None] when it throws. *)
Variable JSON_parse : string -> option json.
(** ToNumber on a string, an array or an object *)
Variable coerce : json -> Double.number.
(** What the SQLite driver does with a value bound to the column
    ai_comment (TEXT) that is neither a string nor null: it stores a text
    or NULL ([Some]), or run throws ([None]). *)
Variable driver : option json -> option (option string).
(** Buffer.toString('base64') *)
Variable base64 : string -> string.
(** this.project *)
Variable project : Project.t.

Definition buildPrompt : string :=
  let prompt := "You are a professional photo evaluator. Analyze each photo above and provide:
1. A score from 0.0 to 10.0 (one decimal place)
2. A brief comment (1-2 sentences) explaining the score

Consider: composition, lighting, focus, subject interest, emotional impact, and technical quality." in
  let prompt :=
    match Project.prompt project with
    | Some custom =>
        if String.eqb custom EmptyString then prompt
        else prompt +:+ "

Additional evaluation criteria from the user:
" +:+ custom
    | None => prompt
    end in
  prompt +:+ Json.dq "

Respond ONLY with valid JSON (no markdown code blocks):
{'evaluations': [{'photo_id': 123, 'score': 8.5, 'comment': 'Brief explanation.'}]}".

Definition parseResponse (text : string) : json :=
  match JSON_parse (Js.jsonStr text) with
  | Some parsed => parsed
  | None => JObj [("evaluations", JArr [])]
  end.

(** The first loop of analyzeBatch. *)
Definition buildContent (batch : list Photo.t) : M (list ContentBlock) :=
  fold_each batch [] (pushThumbnail base64).

(** batch.find((p) => p.id === evaluation.photo_id): the property is read
    once for each photo that is tried. *)
Fixpoint find_photo (batch : list Photo.t) (evaluation : json) : result (option Photo.t) :=
  match batch with
  | [] => Ok None
  | p :: rest =>
      match prop evaluation "photo_id" with
      | Ok photo_id =>
          if id_eq (Photo.id p) photo_id then Ok (Some p) else find_photo rest evaluation
      | Throw e => Throw e
      | OutOfFuel => OutOfFuel
      end
  end.

(** UPDATE photos SET score = ?, ai_comment = ?, updated_at = datetime('now')
    WHERE id = ? *)
Definition update_score (score : option Double.real) (comment : option string)
    (photo_id : Z) : M unit :=
  modify (fun w =>
    set_photos (fmap (fun p =>
      if decide (Photo.id p = photo_id)
      then Photo.set_score score comment (clock w) p else p)) w).

(** Math.round(evaluation.score * 10) / 10 *)
Definition roundedScore (score : option json) : Double.number :=
  Double.div
    (Double.Math_round (Double.mul (ToNumber coerce score) (Double.of_Z 10)))
    (Double.of_Z 10).

(** What run stores in ai_comment for evaluation.comment: a string as it
    is, NULL for null, and what the driver decides for another value;
    [None] when run throws. *)
Definition boundComment (comment : option json) : option (option string) :=
  match comment with
  | Some (JStr c) => Some (Some c)
  | Some JNull => Some None
  | other => driver other
  end.

(** The body of the loop over parsed.evaluations. The score and the
    comment are read whatever they are: the score is converted to a
    number, and NaN is stored as NULL; the comment is bound by the driver,
    which throws for some values, before anything is written. The id bound
    to WHERE id = ? is evaluation.photo_id, which is the id of the photo
    found. *)
Definition saveEvaluation (batch : list Photo.t) (evaluation : json) : M unit :=
  let* photo := lift (find_photo batch evaluation) in
  match photo with
  | Some p =>
      let* score := lift (prop evaluation "score") in
      let score := roundedScore score in
      let* comment := lift (prop evaluation "comment") in
      match boundComment comment with
      | Some comment => update_score (stored score) comment (Photo.id p)
      | None => throw DriverError
      end
  | None => ret tt
  end.

(** What analyzeBatch does with the response, inside its try block. *)
Definition saveResults (batch : list Photo.t) (response : list ResponseBlock) : M unit :=
  match response with
  | [] => throw TypeError
  | RText text :: _ =>
      let parsed := parseResponse text in
      let* evaluations := lift (prop parsed "evaluations") in
      let* evaluations := lift (iterate evaluations) in
      for_each evaluations (saveEvaluation batch)
  | ROther :: _ => ret tt
  end.

(** analyzeBatch(photos, retryCount). The recursion is on the retries
    that remain. *)
Fixpoint analyzeBatch_fuel (fuel : nat) (batch : list Photo.t) (retryCount : nat) : M unit :=
  let* content := buildContent batch in
  match content with
  | [] => ret tt
  | _ =>
      let content := content ++ [TextBlock buildPrompt] in
      try_catch
        (let* response := messages_create create content in
         saveResults batch response)
        (fun error =>
           if decide (status error = Some 429) then
             if (retryCount <? 3)%nat then
               match fuel with
               | O => out_of_fuel
               | S fuel' =>
                   let waitTime := (Z.of_nat retryCount + 1) * 5000 in
                   sleep waitTime ;;
                   analyzeBatch_fuel fuel' batch (retryCount + 1)
               end
             else throw error
           else throw error)
  end.

Definition analyzeBatch (batch : list Photo.t) (retryCount : nat) : M unit :=
  analyzeBatch_fuel (3 - retryCount) batch retryCount.

(** SELECT * FROM photos WHERE project_id = ? AND score IS NULL ORDER BY id *)
Definition unscored (project_id : Z) (table : list Photo.t) : list Photo.t :=
  merge_sort Photo.id_le
    (filter (fun p => Photo.project_id p = project_id /\ Photo.score p = None) table).

Definition select_unscored (project_id : Z) : M (list Photo.t) :=
  gets (fun w => unscored project_id (photos w)).

(** onProgress, as the handler of ANALYZE_PHOTOS passes it. *)
Definition onProgress (current total : nat) (message : ProgressMessage) : M unit :=
  send (AnalyzeProgress current total message).

(** The body of the loop of analyzePhotos, for the batch that starts at
    the index i: the new value of processed. *)
Definition analyzeStep (total processed : nat) (slice : nat * list Photo.t) : M nat :=
  let (i, batch) := slice in
  onProgress processed total (AnalyzingBatch (i / BATCH_SIZE + 1)) ;;
  try_catch
    (analyzeBatch batch 0 ;;
     ret (processed + length batch)%nat)
    (fun error =>
       onProgress processed total (ErrorInBatch error) ;;
       ret processed).

Definition analyzePhotos : M nat :=
  let* photos := select_unscored (Project.id project) in
  let total := length photos in
  if decide (total = 0%nat) then ret 0%nat else
  match Js.batches BATCH_SIZE photos with
  | None => out_of_fuel
  | Some bs =>
      let* processed := fold_each bs 0%nat (analyzeStep total) in
      onProgress processed total AnalysisComplete ;;
      ret processed
  end.

End Service.
End ClaudeVisionService.

(** ** SimilarityGroupingService: grouping *)

Module SimilarityGroupingService.

Definition BATCH_SIZE : nat := 20.

Section Service.
Variable create : nat -> list ContentBlock -> Outcome.
Variable JSON_parse : string -> option json.
(** ToNumber on a string, an array or an object *)
Variable coerce : json -> Double.number.
Variable base64 : string -> string.
Variable project : Project.t.

(** The constructor: this.nextGroupId = 1. *)
Definition construct : M unit := modify (set_nextGroupId 1).

Definition buildPrompt : string :=
  Json.dq "Analyze these photos and identify which ones are VISUALLY SIMILAR.

Photos are 'similar' if they show:
- The same scene from slightly different angles
- Burst shots (rapid sequence of the same moment)
- Near-duplicates with minor differences
- The same subject/person in very similar poses

Photos are NOT similar just because they have the same general theme (e.g., all beach photos).
Only group photos that are clearly variations of the same shot.

For each group of similar photos, list them together.
Photos that are unique should NOT be included in any group.

Respond ONLY with valid JSON (no markdown code blocks):
{'groups': [{'photo_ids': [1, 5, 12], 'reason': 'Same sunset from slightly different angles'}, {'photo_ids': [7, 8], 'reason': 'Burst shots of jumping'}]}

If no photos are similar, respond with: {'groups': []}".

Definition parseResponse (text : string) : json :=
  match JSON_parse (Js.jsonStr text) with
  | Some parsed => parsed
  | None => JObj [("groups", JArr [])]
  end.

(** The first loop of processBatch. *)
Definition buildContent (batch : list Photo.t) : M (list ContentBlock) :=
  fold_each batch [] (pushThumbnail base64).

(** group.photo_ids || []: the value read when it is truthy, the empty
    array otherwise. [None] is undefined. *)
Definition photo_ids_of (group : json) : result json :=
  match prop group "photo_ids" with
  | Ok None | Ok (Some JNull) | Ok (Some (JBool false)) => Ok (JArr [])
  | Ok (Some (JNum q)) =>
      if Double.sign (Double.fl q) =? 0 then Ok (JArr []) else Ok (JNum q)
  | Ok (Some (JStr s)) => if String.eqb s EmptyString then Ok (JArr []) else Ok (JStr s)
  | Ok (Some v) => Ok v
  | Throw e => Throw e
  | OutOfFuel => OutOfFuel
  end.

(** photoIds.length < 2: the length of an array or of a string, the member
    length of an object, undefined for a number or a boolean; the
    comparison is one of numbers, and it is false for NaN. *)
Definition length_below_2 (photoIds : json) : bool :=
  match photoIds with
  | JArr ids => (length ids <? 2)%nat
  | JStr s => (String.length s <? 2)%nat
  | JObj members =>
      Double.lt_number (ToNumber coerce (Json.assoc_last "length" members)) (Double.of_Z 2)
  | _ => false
  end.

(** photoIds.includes(id) on an array *)
Definition includes (photoIds : list json) (id : Z) : bool :=
  existsb (fun v => id_eq id (Some v)) photoIds.

(** photos.filter((p) => photoIds.includes(p.id)): includes is that of
    arrays or that of strings, which looks for the digits of the id in the
    string; another value has no method includes, and the first call
    throws. *)
Definition filter_includes (photoIds : json) (batch : list Photo.t)
  : result (list Photo.t) :=
  match photoIds with
  | JArr ids => Ok (List.filter (fun p => includes ids (Photo.id p)) batch)
  | JStr s =>
      Ok (List.filter
            (fun p => bool_decide (is_Some (Js.find_sub (pretty (Photo.id p)) s))) batch)
  | _ => match batch with [] => Ok [] | _ :: _ => Throw TypeError end
  end.

(** UPDATE photos SET similarity_group_id = ? WHERE id = ? *)
Definition update_group (groupId : Z) (photo_id : Z) : M unit :=
  modify (set_photos (fmap (fun p =>
    if decide (Photo.id p = photo_id) then Photo.set_group (Some groupId) p else p))).

(** The body of the loop of assignGroups. The text that it logs at its
    end has photoIds.join(', ') in it: a string has no method join, and the
    call throws after the group was assigned. *)
Definition assignGroup (batch : list Photo.t) (group : json) : M unit :=
  let* photoIds := lift (photo_ids_of group) in
  if length_below_2 photoIds then ret tt else
  let* groupPhotos := lift (filter_includes photoIds batch) in
  if (length groupPhotos <? 2)%nat then ret tt else
  let* groupId := gets nextGroupId in
  modify (set_nextGroupId (groupId + 1)) ;;
  for_each groupPhotos (fun photo => update_group groupId (Photo.id photo)) ;;
  match photoIds with
  | JArr _ => ret tt
  | _ => throw TypeError
  end.

(** assignGroups(photos, groups, db) *)
Definition assignGroups (batch : list Photo.t) (groups : option json) : M unit :=
  let* groups := lift (iterate groups) in
  for_each groups (assignGroup batch).

(** What processBatch does with the response, inside its try block. *)
Definition saveResults (batch : list Photo.t) (response : list ResponseBlock) : M unit :=
  match response with
  | [] => throw TypeError
  | RText text :: _ =>
      let parsed := parseResponse text in
      let* groups := lift (prop parsed "groups") in
      assignGroups batch groups
  | ROther :: _ => ret tt
  end.

(** processBatch(photos, retryCount) *)
Fixpoint processBatch_fuel (fuel : nat) (batch : list Photo.t) (retryCount : nat) : M unit :=
  let* content := buildContent batch in
  match content with
  | [] => ret tt
  | _ =>
      let content := content ++ [TextBlock buildPrompt] in
      try_catch
        (let* response := messages_create create content in
         saveResults batch response)
        (fun error =>
           if decide (status error = Some 429) then
             if (retryCount <? 3)%nat then
               match fuel with
               | O => out_of_fuel
               | S fuel' =>
                   let waitTime := (Z.of_nat retryCount + 1) * 5000 in
                   sleep waitTime ;;
                   processBatch_fuel fuel' batch (retryCount + 1)
               end
             else throw error
           else throw error)
  end.

Definition processBatch (batch : list Photo.t) (retryCount : nat) : M unit :=
  processBatch_fuel (3 - retryCount) batch retryCount.

(** UPDATE photos SET similarity_group_id = NULL WHERE project_id = ? *)
Definition clear_groups (project_id : Z) : M unit :=
  modify (set_photos (fmap (fun p =>
    if decide (Photo.project_id p = project_id) then Photo.set_group None p else p))).

(** SELECT * FROM photos WHERE project_id = ? ORDER BY id *)
Definition select_photos (project_id : Z) : M (list Photo.t) :=
  gets (fun w =>
    merge_sort Photo.id_le
      (filter (fun p => Photo.project_id p = project_id) (photos w))).

(** The group ids of a project's photos, without the nulls. *)
Definition group_ids (project_id : Z) (table : list Photo.t) : list Z :=
  omap Photo.similarity_group_id
       (filter (fun p => Photo.project_id p = project_id) table).

(** SELECT COUNT(DISTINCT similarity_group_id) FROM photos
    WHERE project_id = ? AND similarity_group_id IS NOT NULL *)
Definition count_groups (project_id : Z) : M nat :=
  gets (fun w => length (remove_dups (group_ids project_id (photos w)))).

Definition groupPhotos : M nat :=
  clear_groups (Project.id project) ;;
  let* photos := select_photos (Project.id project) in
  if (length photos <? 2)%nat then ret 0%nat else
  match Js.batches BATCH_SIZE photos with
  | None => out_of_fuel
  | Some bs =>
      for_each bs (fun '(_, batch) =>
        if (length batch <? 2)%nat then ret tt else
        try_catch (processBatch batch 0) (fun _ => ret tt)) ;;
      count_groups (Project.id project)
  end.

(** The handler of GROUP_SIMILAR, once the key and the project are found:
    new SimilarityGroupingService(apiKey, project).groupPhotos() *)
Definition group_similar : M nat := construct ;; groupPhotos.

End Service.
End SimilarityGroupingService.

(** ** PhotoManager: ingestion *)

Module PhotoManager.

Definition THUMBNAIL_SIZE : Z := 400.

Record UploadResult := mkUploadResult {
  duplicate : bool;
  photo : option Photo.t;
  existingPhoto : option Photo.t
}.

(** name.replace(/[^0-9A-Za-z.\-\s]/g, '_').trim() *)
Definition keeps (c : ascii) : bool :=
  let n := nat_of_ascii c in
  ((48 <=? n)%nat && (n <=? 57)%nat) || ((65 <=? n)%nat && (n <=? 90)%nat)
  || ((97 <=? n)%nat && (n <=? 122)%nat) || (n =? 46)%nat || (n =? 45)%nat
  || Js.is_space c.

Fixpoint replace_others (s : string) : string :=
  match s with
  | EmptyString => EmptyString
  | String c s' => String (if keeps c then c else "_"%char) (replace_others s')
  end.

Definition sanitizeName (name : string) : string := Js.trim (replace_others name).

Section Manager.
(** crypto.createHash('sha256').update(buffer).digest('hex') *)
Variable sha256 : string -> string.
(** Node's path module: join, basename (with and without a suffix to
    remove), extname, and parse(p).name. *)
Variable join : string -> string -> string.
Variable basename : string -> string.
Variable basename_without : string -> string -> string.
Variable extname : string -> string.
Variable parse_name : string -> string.
(** sharp(bytes).resize(400, 400, inside, no enlargement).jpeg(85): the
    JPEG, or [None] when the image cannot be decoded. *)
Variable thumbnail_of : string -> option string.
(** The gray 400 x 400 JPEG, or [None] when it cannot be made. *)
Variable placeholder : option string.
(** Whether a file may be written at a path. *)
Variable writable : string -> bool.
(** this.storagePath *)
Variable storagePath : string.

Definition getProjectPath (projectName : string) : string :=
  join storagePath (sanitizeName projectName).

(** fs.mkdir(path, { recursive: true }) *)
Definition mkdir (path : string) : M unit := modify (set_dirs (union {[path]})).

Definition createDirectories (projectName : string) : M unit :=
  let projectPath := getProjectPath projectName in
  mkdir (join projectPath "originals") ;;
  mkdir (join projectPath "thumbnails") ;;
  mkdir (join projectPath "exports").

(** fsSync.existsSync(path) *)
Definition existsSync (w : World) (path : string) : bool :=
  bool_decide (is_Some (files w !! path)) || bool_decide (path ∈ dirs w).

(** fs.writeFile(path, bytes) *)
Definition writeFile (path bytes : string) : M unit :=
  if writable path then modify (set_files <[path := bytes]>)
  else throw (FsError path).

(** fs.copyFile(from, to) *)
Definition copyFile (from to : string) : M unit :=
  let* bytes := readFile from in writeFile to bytes.

(** SELECT * FROM photos WHERE project_id = ? AND file_hash = ?, first row *)
Definition find_by_hash (project_id : Z) (fileHash : string) (table : list Photo.t)
  : option Photo.t :=
  List.find (fun p => bool_decide (Photo.project_id p = project_id)
                      && String.eqb (Photo.file_hash p) fileHash) table.

(** The loop that looks for a name that is free in originals/, from the
    values of originalFilename, originalPath and counter. *)
Fixpoint unique_name (fuel : nat) (filename projectPath : string)
    (originalFilename originalPath : string) (counter : Z) : M (string * string) :=
  let* taken := gets (fun w => existsSync w originalPath) in
  if taken then
    match fuel with
    | O => out_of_fuel
    | S fuel' =>
        let ext := extname filename in
        let base := basename_without filename ext in
        let originalFilename := base +:+ "_" +:+ pretty counter +:+ ext in
        let originalPath := join (join projectPath "originals") originalFilename in
        unique_name fuel' filename projectPath originalFilename originalPath (counter + 1)
    end
  else ret (originalFilename, originalPath).

(** INSERT INTO photos (project_id, original_filename, original_path,
    thumbnail_path, file_hash, file_size) VALUES (...), and then the
    SELECT of the row by lastInsertRowid. *)
Definition insert_photo (project_id : Z) (originalFilename originalPath
    thumbnailPath fileHash : string) (fileSize : Z) : M Photo.t :=
  fun w =>
    let row := Photo.make (next_photo_id w) project_id originalFilename originalPath
                 thumbnailPath fileHash fileSize None None false None
                 (clock w) (clock w) in
    (set_next_photo_id (next_photo_id w + 1) (set_photos (fun t => t ++ [row]) w),
     Ok row).

(** processUpload(project, filePath); [fuel] bounds the turns of the loop
    that looks for a free name. *)
Definition processUpload (fuel : nat) (project : Project.t) (filePath : string)
  : M UploadResult :=
  let* fileBuffer := readFile filePath in
  let fileHash := sha256 fileBuffer in
  let* existing := gets (fun w => find_by_hash (Project.id project) fileHash (photos w)) in
  match existing with
  | Some _ => ret (mkUploadResult true None existing)
  | None =>
      let filename := basename filePath in
      let projectPath := getProjectPath (Project.name project) in
      createDirectories (Project.name project) ;;
      let* (originalFilename, originalPath) :=
        unique_name fuel filename projectPath
          filename (join (join projectPath "originals") filename) 1 in
      copyFile filePath originalPath ;;
      let thumbnailFilename := parse_name originalFilename +:+ "_thumb.jpg" in
      let thumbnailPath := join (join projectPath "thumbnails") thumbnailFilename in
      let* thumbnailGenerated :=
        try_catch
          (match thumbnail_of fileBuffer with
           | Some jpeg => writeFile thumbnailPath jpeg ;; ret true
           | None => throw (Error "sharp")
           end)
          (fun _ =>
             try_catch
               (match placeholder with
                | Some jpeg => writeFile thumbnailPath jpeg ;; ret true
                | None => throw (Error "sharp")
                end)
               (fun _ => ret false)) in
      let finalThumbnailPath := if thumbnailGenerated then thumbnailPath else originalPath in
      let* photo := insert_photo (Project.id project) originalFilename originalPath
                      finalThumbnailPath fileHash
                      (Z.of_nat (String.length fileBuffer)) in
      ret (mkUploadResult false (Some photo) None)
  end.

(** ** The handler of PHOTOS_UPLOAD *)

Record UploadResults := mkUploadResults {
  uploaded : nat;
  duplicates : nat;
  uploaded_photos : list (option Photo.t)
}.

(** The loop over filePaths, from the index i. *)
Fixpoint upload_loop (fuel : nat) (project : Project.t) (total : nat) (i : nat)
    (filePaths : list string) (results : UploadResults) : M UploadResults :=
  match filePaths with
  | [] => ret results
  | filePath :: rest =>
      let* result := processUpload fuel project filePath in
      let results :=
        if duplicate result then
          mkUploadResults (uploaded results) (S (duplicates results))
                          (uploaded_photos results)
        else
          mkUploadResults (S (uploaded results)) (duplicates results)
                          (uploaded_photos results ++ [photo result]) in
      send (UploadProgress (i + 1) total (basename filePath)) ;;
      upload_loop fuel project total (i + 1) rest results
  end.

Definition photos_upload (fuel : nat) (projectId : Z) (filePaths : list string)
  : M UploadResults :=
  let* project := gets (fun w =>
    List.find (fun p => bool_decide (Project.id p = projectId)) (projects w)) in
  match project with
  | None => throw (Error "Project not found")
  | Some project =>
      upload_loop fuel project (length filePaths) 0 filePaths (mkUploadResults 0 0 [])
  end.

End Manager.
End PhotoManager.

(** * The vocabulary of the properties *)

(** ** Texts *)

(** There is no fence in [s]. *)
Definition no_fence (s : string) : Prop := Js.find_sub Js.fence s = None.



(** ** Sequential code *)

(** [preserves R m]: the world that [m] leaves is related by [R] to the
    world it starts from, however [m] ends. *)
Definition preserves {A} (R : relation World) (m : M A) : Prop :=
  forall w, R w (m w).1.

(** [ends m]: [m] does not run out of fuel. *)
Definition ends {A} (m : M A) : Prop := forall w, (m w).2 <> OutOfFuel.

(** [throws P m]: an exception that [m] throws satisfies [P]. *)
Definition throws {A} (P : exn -> Prop) (m : M A) : Prop :=
  forall w e, (m w).2 = Throw e -> P e.

(** ** Requests and answers *)

(** The request built from the thumbnails that can be read, as a function
    of the files. *)
Fixpoint thumbnails (base64 : string -> string) (fs : gmap string string)
    (batch : list Photo.t) (content : list ContentBlock) : list ContentBlock :=
  match batch with
  | [] => content
  | photo :: rest =>
      thumbnails base64 fs rest
        (match fs !! Photo.thumbnail_path photo with
         | Some imageBuffer =>
             content ++ [ImageBlock (base64 imageBuffer);
                         TextBlock ("[Photo ID: " +:+ pretty (Photo.id photo) +:+ "]")]
         | None => content
         end)
  end.

(** The evaluations that saveResults goes through for a response. *)
Definition evaluations_of (JSON_parse : string -> option json)
    (response : list ResponseBlock) : list json :=
  match response with
  | RText text :: _ =>
      match prop (ClaudeVisionService.parseResponse JSON_parse text) "evaluations" with
      | Ok evaluations =>
          match iterate evaluations with
          | Ok evs => evs
          | _ => []
          end
      | _ => []
      end
  | _ => []
  end.

(** [same_calls w w']: no request was sent, nothing was awaited and no file
    was written from [w] to [w']. *)
Definition same_calls : relation World :=
  fun w w' => api_calls w' = api_calls w /\ delays w' = delays w /\ files w' = files w.

(** ** Retries *)

(** The world after [k] attempts that were rate limited: each one is a
    request and then a delay of 5 s times its number. *)
Fixpoint retried (k : nat) (w : World) : World :=
  match k with
  | O => w
  | S k' => add_delay ((Z.of_nat k' + 1) * 5000) (add_call (retried k' w))
  end.

(** The delays of the first [k] retries, in ms: 5000, 10000, 15000. *)
Definition backoff (k : nat) : list Z :=
  (fun i => (Z.of_nat i + 1) * 5000) <$> seq 0 k.

Definition rate_limited (o : Outcome) : Prop :=
  exists error, o = Rejects error /\ status error = Some 429.

Definition scoring_request (base64 : string -> string) (project : Project.t)
    (w : World) (batch : list Photo.t) : list ContentBlock :=
  thumbnails base64 (files w) batch [] ++ [TextBlock (ClaudeVisionService.buildPrompt project)].

Definition grouping_request (base64 : string -> string)
    (w : World) (batch : list Photo.t) : list ContentBlock :=
  thumbnails base64 (files w) batch [] ++ [TextBlock SimilarityGroupingService.buildPrompt].

(** ** Rows and tables *)

(** Every field but score, ai_comment and updated_at is the same. *)
Definition same_but_score (p p' : Photo.t) : Prop :=
  Photo.id p' = Photo.id p
  /\ Photo.project_id p' = Photo.project_id p
  /\ Photo.original_filename p' = Photo.original_filename p
  /\ Photo.original_path p' = Photo.original_path p
  /\ Photo.thumbnail_path p' = Photo.thumbnail_path p
  /\ Photo.file_hash p' = Photo.file_hash p
  /\ Photo.file_size p' = Photo.file_size p
  /\ Photo.selected p' = Photo.selected p
  /\ Photo.similarity_group_id p' = Photo.similarity_group_id p
  /\ Photo.created_at p' = Photo.created_at p.

(** Every field but similarity_group_id is the same. *)
Definition same_but_group (p p' : Photo.t) : Prop :=
  Photo.id p' = Photo.id p
  /\ Photo.project_id p' = Photo.project_id p
  /\ Photo.original_filename p' = Photo.original_filename p
  /\ Photo.original_path p' = Photo.original_path p
  /\ Photo.thumbnail_path p' = Photo.thumbnail_path p
  /\ Photo.file_hash p' = Photo.file_hash p
  /\ Photo.file_size p' = Photo.file_size p
  /\ Photo.score p' = Photo.score p
  /\ Photo.ai_comment p' = Photo.ai_comment p
  /\ Photo.selected p' = Photo.selected p
  /\ Photo.created_at p' = Photo.created_at p
  /\ Photo.updated_at p' = Photo.updated_at p.

(** The row keeps its id, and it is the same row when its id is not in [ids]. *)
Definition same_unless_in (ids : list Z) (p p' : Photo.t) : Prop :=
  Photo.id p' = Photo.id p /\ (Photo.id p ∉ ids -> p' = p).

(** [rows Rp w w']: the tables of photos of [w] and [w'] have the same
    length and their rows are related by [Rp], one by one. *)
Definition rows (Rp : relation Photo.t) : relation World :=
  fun w w' => Forall2 Rp (photos w) (photos w').

(** The table of photos is the same. *)
Definition same_table : relation World := fun w w' => photos w' = photos w.

(** A number of [0, 10]. *)
Definition in_0_10 (x : Double.real) : Prop :=
  exists v, x = Double.Finite v /\ (0 <= v <= 10)%Q.

(** The scores of a table are null or in [0, 10]. *)
Definition in_range (table : list Photo.t) : Prop :=
  forall p s, p ∈ table -> Photo.score p = Some s -> in_0_10 s.

(** The double nearest to k / 10: the number that the text of k / 10 with
    one decimal denotes. *)
Definition tenth (k : Z) : Double.real := Double.fl (inject_Z k / 10).

(** The service keeps its contract on the scores: every evaluation of its
    answers is an object with a score that is a number of [0, 10]. *)
Definition answers_in_range (create : nat -> list ContentBlock -> Outcome)
    (JSON_parse : string -> option json) : Prop :=
  forall n content response evaluation,
    create n content = Responds response ->
    evaluation ∈ evaluations_of JSON_parse response ->
    exists ms s,
      evaluation = JObj ms
      /\ Json.assoc_last "score" ms = Some (JNum s)
      /\ (0 <= s <= 10)%Q.

(** [in_range] is kept from a world to another one. *)
Definition keeps_range : relation World :=
  fun w w' => in_range (photos w) -> in_range (photos w').

(** The number of photos of a table that have the group id [g]. *)
Definition members (g : Z) (table : list Photo.t) : nat :=
  length (filter (fun p => Photo.similarity_group_id p = Some g) table).

(** The table after the group id [g] is given to the rows whose id is in [ids]. *)
Definition assigned (g : Z) (ids : list Z) (table : list Photo.t) : list Photo.t :=
  (fun p => if decide (Photo.id p ∈ ids) then Photo.set_group (Some g) p else p) <$> table.

(** ** The batches that a scoring run completes *)

Section Completes.
Variable create : nat -> list ContentBlock -> Outcome.
Variable JSON_parse : string -> option json.
Variable coerce : json -> Double.number.
Variable driver : option json -> option (option string).
Variable base64 : string -> string.
Variable project : Project.t.

Local Abbreviation analyzeBatch :=
  (ClaudeVisionService.analyzeBatch create JSON_parse coerce driver base64 project).

(** [completes total processed w bs done]: the loop of analyzePhotos goes
    through the batches [bs] from the world [w] with the count [processed],
    and [done] are the batches, in order, for which analyzeBatch returns;
    the other ones are those for which it throws. *)
Inductive completes (total : nat)
  : nat -> World -> list (nat * list Photo.t) -> list (list Photo.t) -> Prop :=
| completes_nil processed w : completes total processed w [] []
| completes_returns processed w i batch bs w' done :
    analyzeBatch batch 0
      (add_sent (AnalyzeProgress processed total
                   (AnalyzingBatch (i / ClaudeVisionService.BATCH_SIZE + 1))) w)
      = (w', Ok tt) ->
    completes total (processed + length batch) w' bs done ->
    completes total processed w ((i, batch) :: bs) (batch :: done)
| completes_throws processed w i batch bs w' error done :
    analyzeBatch batch 0
      (add_sent (AnalyzeProgress processed total
                   (AnalyzingBatch (i / ClaudeVisionService.BATCH_SIZE + 1))) w)
      = (w', Throw error) ->
    completes total processed
      (add_sent (AnalyzeProgress processed total (ErrorInBatch error)) w') bs done ->
    completes total processed w ((i, batch) :: bs) done.

(** Every request is answered, and every answer is saved without an
    exception. *)
Definition always_saved : Prop :=
  forall n content, exists response,
    create n content = Responds response
    /\ forall batch w,
         (ClaudeVisionService.saveResults JSON_parse coerce driver batch response w).2
         = Ok tt.

End Completes.

(** ** A stub service and a small project *)

Module Stub.

(** A photo of project 1 that was just ingested. *)
Definition photo (id : Z) (thumbnail : string) : Photo.t :=
  Photo.make id 1 "a.jpg" "/p/originals/a.jpg" thumbnail "hash" 10
             None None false None 0 0.

Definition project : Project.t := Project.make 1 "p" None 0 0.

Definition batch : list Photo.t := [photo 1 "t1"; photo 2 "t2"; photo 3 "t3"].

(** Three photos without a score, their thumbnails on disk. *)
Definition world : World :=
  mkWorld batch [project] 4
          (list_to_map [("t1", "jpeg1"); ("t2", "jpeg2"); ("t3", "jpeg3")]) ∅
          100 0 0 [] [].

(** A service that plays a script: the outcome of its n-th call is the n-th
    one of the list, and a connection error after the last one. *)
Definition script (outcomes : list Outcome) (n : nat) (content : list ContentBlock)
  : Outcome :=
  default (Rejects (ApiError None)) (outcomes !! n).

Definition rate_limit : Outcome := Rejects (ApiError (Some 429)).

(** The service answers with a JSON text written with ' for the double quote. *)
Definition answers (text : string) : Outcome := Responds [RText (Json.dq text)].

Definition base64 (bytes : string) : string := bytes.

(** A stand-in for ToNumber on strings, arrays and objects, for the
    examples, which use it on the texts of JSON numbers: the number of such
    a text, and NaN for another value. *)
Definition coerce (v : json) : Double.number :=
  match v with
  | JStr s =>
      match Json.json_parse s with
      | Some (JNum q) => Double.Num (Double.fl q)
      | _ => Double.NaN
      end
  | _ => Double.NaN
  end.

(** A driver for the examples, in which a comment is a string or null: it
    throws for another value. *)
Definition driver (v : option json) : option (option string) := None.

End Stub.

(** ** A stub disk *)

Module StubDisk.

(** A stand-in for the SHA-256 digest: one digest for each content. *)
Definition sha256 (bytes : string) : string := "sha256:" +:+ bytes.

Definition join (a b : string) : string := a +:+ "/" +:+ b.

(** What follows the last occurrence of [c] in [s], with [c], when there is one. *)
Fixpoint from_last (c : ascii) (s : string) : option string :=
  match s with
  | EmptyString => None
  | String a s' =>
      match from_last c s' with
      | Some t => Some t
      | None => if Ascii.eqb a c then Some s else None
      end
  end.

Definition basename (path : string) : string :=
  match from_last "/" path with
  | Some (String _ name) => name
  | _ => path
  end.

Definition extname (path : string) : string :=
  default EmptyString (from_last "." (basename path)).

Definition basename_without (path ext : string) : string :=
  let name := basename path in
  if String.eqb (extname path) ext
  then String.substring 0 (String.length name - String.length ext) name
  else name.

Definition parse_name (path : string) : string := basename_without path (extname path).

Definition thumbnail_of (bytes : string) : option string := Some ("thumbnail:" +:+ bytes).
Definition placeholder : option string := Some "gray".
Definition writable (path : string) : bool := true.
Definition storagePath : string := "/store".

(** The disk holds two files with the same bytes under two names, and
    another one; the project has no photo. *)
Definition world : World :=
  mkWorld [] [Stub.project] 1
          (list_to_map [("/in/a.jpg", "AAA"); ("/in/copy.jpg", "AAA"); ("/in/b.jpg", "BBB")])
          ∅ 100 0 0 [] [].

Definition processUpload :=
  PhotoManager.processUpload sha256 join basename basename_without extname parse_name
    thumbnail_of placeholder writable storagePath.

Definition photos_upload :=
  PhotoManager.photos_upload sha256 join basename basename_without extname parse_name
    thumbnail_of placeholder writable storagePath.

End StubDisk.

(** The row that the first upload of /in/a.jpg makes. *)
Definition first_row : Photo.t :=
  Photo.make 1 1 "a.jpg" "/store/p/originals/a.jpg" "/store/p/thumbnails/a_thumb.jpg"
             "sha256:AAA" 3 None None false None 100 100.

(** The world after the upload of /in/a.jpg as the first of three files. *)
Definition after_first_upload : World :=
  (PhotoManager.upload_loop StubDisk.sha256 StubDisk.join StubDisk.basename
     StubDisk.basename_without StubDisk.extname StubDisk.parse_name
     StubDisk.thumbnail_of StubDisk.placeholder StubDisk.writable StubDisk.storagePath
     10 Stub.project 3 0 ["/in/a.jpg"] (PhotoManager.mkUploadResults 0 0 [])
     StubDisk.world).1.

(** * The rest of the main process and the project view *)

(** ** More of JavaScript's strings and arrays *)

Module JsString.

(** One code unit of String.prototype.toLowerCase, among the code units
    below 256: the letters A-Z and the capital letters of Latin-1 (192 to
    222 but the multiplication sign, 215) move up by 32. *)
Definition lower (c : ascii) : ascii :=
  let n := nat_of_ascii c in
  if (((65 <=? n) && (n <=? 90))
      || ((192 <=? n) && (n <=? 222) && negb (n =? 215)))%nat
  then ascii_of_nat (n + 32) else c.

Fixpoint toLowerCase (s : string) : string :=
  match s with
  | EmptyString => EmptyString
  | String c s' => String (lower c) (toLowerCase s')
  end.

(** s.endsWith(suffix) *)
Fixpoint endsWith (suffix s : string) : bool :=
  if String.eqb s suffix then true else
  match s with
  | String _ s' => endsWith suffix s'
  | EmptyString => false
  end.

Fixpoint repeat (n : nat) (c : ascii) : string :=
  match n with
  | O => EmptyString
  | S n' => String c (repeat n' c)
  end.

(** s.padStart(targetLength, pad), for a pad of one character *)
Definition padStart (targetLength : nat) (pad : ascii) (s : string) : string :=
  repeat (targetLength - String.length s) pad +:+ s.

End JsString.

Module JsArray.

(** l.sort(compare), for a comparator that returns a number: the sort is
    stable, so for a consistent comparator the result is the one sorted
    arrangement of [l] that keeps the elements that compare equal in their
    order. Insertion from the right computes it: an element goes before the
    first one of those after it that it does not compare greater than. *)
Fixpoint insert {A} (compare : A -> A -> Q) (x : A) (l : list A) : list A :=
  match l with
  | [] => [x]
  | y :: l' => if Qle_bool (compare x y) 0 then x :: l else y :: insert compare x l'
  end.

Definition sort {A} (compare : A -> A -> Q) (l : list A) : list A :=
  foldr (insert compare) [] l.

(** l.reduce(f), with no initial value: [None] when [l] is empty (a
    TypeError is thrown). *)
Definition reduce {A} (f : A -> A -> A) (l : list A) : option A :=
  match l with
  | [] => None
  | x :: rest => Some (foldl f x rest)
  end.

End JsArray.

(** ** CostEstimator *)

Module CostEstimator.

Definition INPUT_COST_PER_MILLION : Double.number := Double.of_Z 3.
Definition OUTPUT_COST_PER_MILLION : Double.number := Double.of_Z 15.
Definition TOKENS_PER_THUMBNAIL : nat := 1500.
Definition TOKENS_PER_PHOTO_PROMPT : nat := 50.
Definition TOKENS_PER_BATCH_PROMPT : nat := 250.
Definition OUTPUT_TOKENS_PER_PHOTO : nat := 100.
Definition BATCH_SIZE : nat := 10.

Record CostEstimate := mkCostEstimate {
  photoCount : nat;
  batchCount : nat;
  estimatedInputTokens : nat;
  estimatedOutputTokens : nat;
  estimatedCost : Double.number;
  formattedCost : string
}.

(** x.toFixed(2) for a double 0 <= x < 10^21: the integer n nearest to
    100 x, the greater one when two are as near, written with its last two
    digits after the point. The value of the double is read exactly. *)
Definition toFixed2 (x : Double.number) : string :=
  match x with
  | Double.Num (Double.Finite q) =>
      let n := Qfloor (q * 100 + (1 # 2)) in
      pretty (n / 100) +:+ "." +:+ JsString.padStart 2 "0" (pretty (n mod 100))
  | Double.Num Double.Infinity => "Infinity"
  | Double.Num Double.NegInfinity => "-Infinity"
  | Double.NaN => "NaN"
  end.

(** The number of a count. An array has fewer than 2^32 elements, so the
    counts of tokens are integers below 2^53: the doubles hold them as they
    are, and the products and sums that make them are exact. *)
Definition of_count (n : nat) : Double.number := Double.of_Z (Z.of_nat n).

Definition estimate (photos : list Photo.t) : CostEstimate :=
  let photoCount := length photos in
  if decide (photoCount = 0%nat)
  then mkCostEstimate 0 0 0 0 (Double.of_Z 0) "$0.00" else
  let batchCount := Js.ceil_div photoCount BATCH_SIZE in
  let imageTokens := (photoCount * TOKENS_PER_THUMBNAIL)%nat in
  let promptTokens :=
    (photoCount * TOKENS_PER_PHOTO_PROMPT + batchCount * TOKENS_PER_BATCH_PROMPT)%nat in
  let totalInputTokens := (imageTokens + promptTokens)%nat in
  let totalOutputTokens := (photoCount * OUTPUT_TOKENS_PER_PHOTO)%nat in
  let inputCost :=
    Double.mul (Double.div (of_count totalInputTokens) (Double.of_Z 1000000))
               INPUT_COST_PER_MILLION in
  let outputCost :=
    Double.mul (Double.div (of_count totalOutputTokens) (Double.of_Z 1000000))
               OUTPUT_COST_PER_MILLION in
  let totalCost := Double.add inputCost outputCost in
  mkCostEstimate photoCount batchCount totalInputTokens totalOutputTokens
                 totalCost ("$" +:+ toFixed2 totalCost).

End CostEstimator.

(** ** The project view of the renderer *)

Module ProjectView.

(** photo.similarity_group_id, when it is truthy: not null and not 0. *)
Definition truthy_group (photo : Photo.t) : option Z :=
  match Photo.similarity_group_id photo with
  | Some g => if decide (g = 0) then None else Some g
  | None => None
  end.

(** p.score ?? -1 *)
Definition score_or (p : Photo.t) : Double.real :=
  default (Double.Finite (-1 # 1)) (Photo.score p).

(** A Map from group ids to arrays of photos: its entries, in the order in
    which their keys were first set. *)
Definition GroupedMap : Type := list (Z * list Photo.t).

Fixpoint map_get (key : Z) (m : GroupedMap) : option (list Photo.t) :=
  match m with
  | [] => None
  | (k, v) :: m' => if decide (k = key) then Some v else map_get key m'
  end.

Fixpoint map_set (key : Z) (value : list Photo.t) (m : GroupedMap) : GroupedMap :=
  match m with
  | [] => [(key, value)]
  | (k, v) :: m' =>
      if decide (k = key) then (key, value) :: m' else (k, v) :: map_set key value m'
  end.

(** The body of the first loop of getGroupedPhotos, on groupedMap and
    ungrouped. *)
Definition classify (state : GroupedMap * list Photo.t) (photo : Photo.t)
  : GroupedMap * list Photo.t :=
  let (groupedMap, ungrouped) := state in
  match truthy_group photo with
  | Some id =>
      let group := default [] (map_get id groupedMap) in
      (map_set id (group ++ [photo]) groupedMap, ungrouped)
  | None => (groupedMap, ungrouped ++ [photo])
  end.

(** (a, b) => (a.score ?? -1) > (b.score ?? -1) ? a : b *)
Definition better (a b : Photo.t) : Photo.t :=
  if Double.ltb (score_or b) (score_or a) then a else b.

(** (a, b) => (b.score ?? -1) - (a.score ?? -1), of which the sort reads
    the sign. *)
Definition by_score (a b : Photo.t) : Q := Double.difference (score_or b) (score_or a).

(** getGroupedPhotos(photos): [None] when it throws. *)
Definition getGroupedPhotos (photos : list Photo.t) : option (list Photo.t) :=
  let (groupedMap, ungrouped) := foldl classify ([], []) photos in
  bestFromGroups ← mapM (JsArray.reduce better) (snd <$> groupedMap);
  Some (JsArray.sort by_score (bestFromGroups ++ ungrouped)).

(** getGroupSize(photos, photo) *)
Definition getGroupSize (photos : list Photo.t) (photo : Photo.t) : nat :=
  match truthy_group photo with
  | None => 1%nat
  | Some _ =>
      length (filter (fun p => Photo.similarity_group_id p
                               = Photo.similarity_group_id photo) photos)
  end.

(** The state of the score filter: minScoreFilter and maxScoreFilter. *)
Record ScoreFilter := mkScoreFilter {
  minScoreFilter : Q;
  maxScoreFilter : Q
}.

(** useState(0) and useState(10) *)
Definition initialFilter : ScoreFilter := mkScoreFilter 0 10.

(** What the user does to the filter: moves the slider of the minimum or
    that of the maximum to a value, or resets the filter. *)
Inductive FilterEvent :=
| MinChange (val : Q)
| MaxChange (val : Q)
| ResetFilter.

(** The onChange handlers of the two sliders and the onClick handler of the
    reset button: the state that the next render sees. *)
Definition onFilterEvent (f : ScoreFilter) (e : FilterEvent) : ScoreFilter :=
  match e with
  | MinChange val =>
      mkScoreFilter val
        (if Qlt_le_dec (maxScoreFilter f) val then val else maxScoreFilter f)
  | MaxChange val =>
      mkScoreFilter
        (if Qlt_le_dec val (minScoreFilter f) then val else minScoreFilter f)
        val
  | ResetFilter => mkScoreFilter 0 10
  end.

(** const hasScoreFilter = minScoreFilter > 0 || maxScoreFilter < 10 *)
Definition hasScoreFilter (f : ScoreFilter) : bool :=
  (if Qlt_le_dec 0 (minScoreFilter f) then true else false)
  || (if Qlt_le_dec (maxScoreFilter f) 10 then true else false).

(** p.score !== null && p.score >= minScoreFilter && p.score <= maxScoreFilter *)
Definition inFilter (f : ScoreFilter) (p : Photo.t) : bool :=
  match Photo.score p with
  | Some s =>
      Double.leb (Double.Finite (minScoreFilter f)) s
      && Double.leb s (Double.Finite (maxScoreFilter f))
  | None => false
  end.

Definition filteredByScore (f : ScoreFilter) (allPhotos : list Photo.t) : list Photo.t :=
  if hasScoreFilter f then List.filter (inFilter f) allPhotos else allPhotos.

Inductive ViewMode := ViewAll | ViewGrouped.

(** The photos that the grid shows: [None] when getGroupedPhotos throws. *)
Definition shown (viewMode : ViewMode) (f : ScoreFilter) (allPhotos : list Photo.t)
  : option (list Photo.t) :=
  match viewMode with
  | ViewGrouped => getGroupedPhotos (filteredByScore f allPhotos)
  | ViewAll => Some (filteredByScore f allPhotos)
  end.

End ProjectView.

(** ** More of the file system *)

(** fs.unlink(path) and fs.unlinkSync(path): a file is removed; a path that
    is not one of a file (nothing there, or a directory) is an error. *)
Definition unlink (path : string) : M unit :=
  fun w =>
    match files w !! path with
    | Some _ => (set_files (delete path) w, Ok tt)
    | None => (w, Throw (FsError path))
    end.

(** ORDER BY score DESC, id: a null score is below every number. *)
Definition score_desc_id (p q : Photo.t) : Prop :=
  match Photo.score p, Photo.score q with
  | Some a, Some b =>
      Double.lt b a \/ (Double.le a b /\ Double.le b a /\ Photo.id p <= Photo.id q)
  | Some _, None => True
  | None, Some _ => False
  | None, None => Photo.id p <= Photo.id q
  end.

#[global] Instance score_desc_id_dec : RelDecision score_desc_id.
Proof.
  intros p q. unfold score_desc_id, Double.lt, Double.le.
  destruct (Photo.score p) as [a|], (Photo.score q) as [b|]; apply _.
Defined.

(** ** PhotoManager: export *)

Module PhotoExport.

Definition SPECIAL_EXTENSIONS : list string :=
  [".cr2"; ".cr3"; ".nef"; ".arw"; ".orf"; ".rw2"; ".dng"; ".raf"; ".raw"; ".srw"; ".pef";
   ".heic"; ".heif"].

Record ExportResult := mkExportResult {
  exported : list string;
  skipped : nat
}.

Section Manager.
(** Node's path module: join, extname, and dirname and basename for the
    listing of a directory. *)
Variable join : string -> string -> string.
Variable extname : string -> string.
Variable dirname : string -> string.
Variable basename : string -> string.
(** sharp(bytes).jpeg({ quality: 90 }): the JPEG, or [None] when the image
    cannot be decoded. *)
Variable jpeg_of : string -> option string.
(** Whether a file may be written at a path. *)
Variable writable : string -> bool.
(** this.storagePath *)
Variable storagePath : string.

Definition getExportsPath (projectName : string) : string :=
  join (PhotoManager.getProjectPath join storagePath projectName) "exports".

(** fs.readdir(path): the names of the files and of the directories that
    are in the directory, in an order that is not specified. *)
Definition readdir (path : string) : M (list string) :=
  fun w =>
    if decide (path ∈ dirs w) then
      (w, Ok (basename <$> List.filter (fun p => bool_decide (dirname p = path))
                             (elements (dom (files w)) ++ elements (dirs w))))
    else (w, Throw (FsError path)).

(** sharp(input).jpeg({ quality: 90 }).toFile(output) *)
Definition toFile (input output : string) : M unit :=
  let* bytes := readFile input in
  match jpeg_of bytes with
  | Some jpeg => PhotoManager.writeFile writable output jpeg
  | None => throw (Error "sharp")
  end.

(** SELECT * FROM photos WHERE project_id = ? AND selected = 1
    ORDER BY score DESC, id *)
Definition select_selected (project_id : Z) (table : list Photo.t) : list Photo.t :=
  merge_sort score_desc_id
    (filter (fun p => Photo.project_id p = project_id /\ Photo.selected p = true) table).

(** The loop that clears the exports. *)
Definition clearExports (exportsPath : string) (existingFiles : list string) : M unit :=
  for_each existingFiles (fun file =>
    if JsString.endsWith ".jpg" file then unlink (join exportsPath file) else ret tt).

(** exportFilename, for the value of exportIndex *)
Definition exportFilename (sanitizedName : string) (exportIndex : nat) : string :=
  sanitizedName +:+ "_" +:+ JsString.padStart 2 "0" (pretty exportIndex) +:+ ".jpg".

(** The body of the loop over the photos, on exportedFiles, skipped and
    exportIndex. *)
Definition exportPhoto (sanitizedName exportsPath : string)
    (state : list string * nat * nat) (photo : Photo.t) : M (list string * nat * nat) :=
  let '(exportedFiles, skipped, exportIndex) := state in
  let ext := JsString.toLowerCase (extname (Photo.original_filename photo)) in
  if bool_decide (ext ∈ SPECIAL_EXTENSIONS) then
    ret (exportedFiles, S skipped, exportIndex)
  else
    let exportPath := join exportsPath (exportFilename sanitizedName exportIndex) in
    try_catch
      (toFile (Photo.original_path photo) exportPath ;;
       ret (exportedFiles ++ [exportPath], skipped, S exportIndex))
      (fun _ => ret (exportedFiles, S skipped, exportIndex)).

Definition exportSelected (project : Project.t) : M ExportResult :=
  let* photos := gets (fun w => select_selected (Project.id project) (photos w)) in
  let exportsPath := getExportsPath (Project.name project) in
  PhotoManager.mkdir exportsPath ;;
  let* existingFiles := readdir exportsPath in
  clearExports exportsPath existingFiles ;;
  let sanitizedName := PhotoManager.sanitizeName (Project.name project) in
  let* (exportedFiles, skipped, _) :=
    fold_each photos ([], 0%nat, 1%nat) (exportPhoto sanitizedName exportsPath) in
  ret (mkExportResult exportedFiles skipped).

(** ** The handler of PHOTOS_EXPORT *)

Record ExportReply := mkExportReply {
  count : nat;
  reply_skipped : nat;
  exportPath : string
}.

Definition photos_export (projectId : Z) : M ExportReply :=
  let* project := gets (fun w =>
    List.find (fun p => bool_decide (Project.id p = projectId)) (projects w)) in
  match project with
  | None => throw (Error "Project not found")
  | Some project =>
      let* result := exportSelected project in
      ret (mkExportReply (length (exported result)) (skipped result)
                         (getExportsPath (Project.name project)))
  end.

End Manager.
End PhotoExport.

(** ** Other handlers of the main process *)

Module IpcHandlers.

(** ANALYZE_ESTIMATE_COST:
    SELECT * FROM photos WHERE project_id = ? AND score IS NULL, in the
    order of the table, and then the estimate. *)
Definition analyze_estimate_cost (projectId : Z) : M CostEstimator.CostEstimate :=
  gets (fun w =>
    CostEstimator.estimate
      (filter (fun p => Photo.project_id p = projectId /\ Photo.score p = None) (photos w))).

(** GROUP_CLEAR *)
Definition group_clear (projectId : Z) : M bool :=
  SimilarityGroupingService.clear_groups projectId ;; ret true.

(** PHOTO_GROUP: the photo by its id, and
    SELECT * FROM photos WHERE similarity_group_id = ? ORDER BY score DESC, id *)
Definition photo_group (id : Z) : M (list Photo.t) :=
  let* photo := gets (fun w =>
    List.find (fun p => bool_decide (Photo.id p = id)) (photos w)) in
  match photo with
  | None => ret []
  | Some photo =>
      match ProjectView.truthy_group photo with
      | None => ret []
      | Some g =>
          gets (fun w =>
            merge_sort score_desc_id
              (filter (fun p => Photo.similarity_group_id p = Some g) (photos w)))
      end
  end.



(** PHOTOS_UPDATE_SELECTION:
    UPDATE photos SET selected = ?, updated_at = datetime('now') WHERE id IN (...) *)
Definition photos_update_selection (photoIds : list Z) (selected : bool) : M bool :=
  modify (fun w =>
    set_photos (fmap (fun p =>
      if decide (Photo.id p ∈ photoIds) then
        Photo.make (Photo.id p) (Photo.project_id p) (Photo.original_filename p)
          (Photo.original_path p) (Photo.thumbnail_path p) (Photo.file_hash p)
          (Photo.file_size p) (Photo.score p) (Photo.ai_comment p) selected
          (Photo.similarity_group_id p) (Photo.created_at p) (clock w)
      else p)) w) ;;
  ret true.

End IpcHandlers.

(** ** The database of the prompt templates and its migrations *)

Module Database.

(** A row of the table prompt_templates. *)
Record PromptTemplate := mkPromptTemplate {
  id : Z;
  name : string;
  prompt : string;
  is_preset : bool;
  created_at : Z
}.

(** The names of the rows of the table migrations, the table
    prompt_templates with the counter of its AUTOINCREMENT, and the clock
    that datetime('now') reads. *)
Record t := mk {
  migrations : list string;
  prompt_templates : list PromptTemplate;
  next_template_id : Z;
  now : Z
}.

(** INSERT INTO prompt_templates (name, prompt, is_preset) VALUES (?, ?, ?) *)
Definition insert_template (name prompt : string) (is_preset : bool) (db : t) : t :=
  mk (migrations db)
     (prompt_templates db
        ++ [mkPromptTemplate (next_template_id db) name prompt is_preset (now db)])
     (next_template_id db + 1) (now db).

(** INSERT INTO migrations (name) VALUES (?) *)
Definition record_migration (name : string) (db : t) : t :=
  mk (migrations db ++ [name]) (prompt_templates db) (next_template_id db) (now db).

Definition presets : list (string * string) :=
  [("Candid Moments", "Prioritize candid moments and genuine expressions over posed shots");
   ("Technical Quality", "Prioritize technical quality: sharpness, proper exposure, and good composition");
   ("Family Photos", "Prioritize photos where all family members are present and clearly visible");
   ("Portrait Focus", "Prioritize portraits with good facial expressions and eye contact")].

(** runMigrations(database). The statements CREATE TABLE IF NOT EXISTS and
    CREATE INDEX IF NOT EXISTS change no row. The table prompt_templates
    has no constraint that INSERT OR IGNORE could meet, so each row of the
    second migration is inserted. *)
Definition runMigrations (db : t) : t :=
  let appliedMigrations := migrations db in
  let db :=
    if bool_decide ("001_initial_schema" ∈ appliedMigrations) then db
    else record_migration "001_initial_schema" db in
  if bool_decide ("002_default_templates" ∈ appliedMigrations) then db
  else
    record_migration "002_default_templates"
      (foldl (fun db preset => insert_template preset.1 preset.2 true db) db presets).

(** The argument of SETTINGS_SAVE_PROMPT_TEMPLATE. *)
Record TemplateInput := mkTemplateInput {
  input_id : option Z;
  input_name : string;
  input_prompt : string
}.

(** SETTINGS_SAVE_PROMPT_TEMPLATE: the database after it, and the template
    that it returns. *)
Definition save_prompt_template (template : TemplateInput) (db : t) : t * TemplateInput :=
  match input_id template with
  | Some tid =>
      if decide (tid = 0) then
        (insert_template (input_name template) (input_prompt template) false db,
         mkTemplateInput (Some (next_template_id db)) (input_name template)
                         (input_prompt template))
      else
        (mk (migrations db)
            ((fun row =>
                if decide (id row = tid /\ is_preset row = false) then
                  mkPromptTemplate (id row) (input_name template) (input_prompt template)
                                   (is_preset row) (created_at row)
                else row) <$> prompt_templates db)
            (next_template_id db) (now db),
         template)
  | None =>
      (insert_template (input_name template) (input_prompt template) false db,
       mkTemplateInput (Some (next_template_id db)) (input_name template)
                       (input_prompt template))
  end.

(** SETTINGS_DELETE_PROMPT_TEMPLATE *)
Definition delete_prompt_template (tid : Z) (db : t) : t :=
  mk (migrations db)
     (filter (fun row => ~ (id row = tid /\ is_preset row = false)) (prompt_templates db))
     (next_template_id db) (now db).

(** A request on the templates. *)
Inductive TemplateRequest :=
| SaveTemplate (template : TemplateInput)
| DeleteTemplate (tid : Z).

Definition handle (db : t) (request : TemplateRequest) : t :=
  match request with
  | SaveTemplate template => (save_prompt_template template db).1
  | DeleteTemplate tid => delete_prompt_template tid db
  end.

End Database.

(** * More vocabulary *)

(** ** Characters *)

(** Every character of [s] satisfies [P]. *)
Fixpoint all_chars (P : ascii -> bool) (s : string) : bool :=
  match s with
  | EmptyString => true
  | String c s' => P c && all_chars P s'
  end.

(** The characters of a sanitized name: those that the regular expression
    of sanitizeName keeps, and the underscore. *)
Definition in_name (c : ascii) : bool :=
  PhotoManager.keeps c || Ascii.eqb c "_".

Definition backslash : ascii := ascii_of_nat 92.

(** ** The cards of the grouped view *)

(** The photos of a list that have the group [g], and those that have no
    group, for the project view: a group id that is null or 0 is no group. *)
Definition group_of (g : Z) (photos : list Photo.t) : list Photo.t :=
  filter (fun p => ProjectView.truthy_group p = Some g) photos.

Definition ungrouped (photos : list Photo.t) : list Photo.t :=
  filter (fun p => ProjectView.truthy_group p = None) photos.

(** [a] is shown before [b] in a list that is sorted by decreasing score. *)
Definition score_ge (a b : Photo.t) : Prop :=
  Double.le (ProjectView.score_or b) (ProjectView.score_or a).

(** The group of the best photo of an entry of groupedMap is the key of
    the entry. *)
Definition best_of (photos : list Photo.t) (entry : Z * list Photo.t) (best : Photo.t)
  : Prop :=
  entry.2 = group_of entry.1 photos
  /\ exists before after,
       entry.2 = before ++ best :: after
       /\ (forall q, q ∈ before ->
             Double.le (ProjectView.score_or q) (ProjectView.score_or best))
       /\ (forall q, q ∈ after ->
             Double.lt (ProjectView.score_or q) (ProjectView.score_or best)).

(** ** Exports *)

(** The paths of the first [k] exports of a project: name_01.jpg,
    name_02.jpg, ... in the directory of the exports. *)
Definition export_paths (join : string -> string -> string)
    (exportsPath sanitizedName : string) (k : nat) : list string :=
  (fun i => join exportsPath (PhotoExport.exportFilename sanitizedName i)) <$> seq 1 k.

(** ** Uploads *)

(** [same_db w w']: the two tables, the counter of the ids of photos and
    the events sent are the same. *)
Definition same_db : relation World :=
  fun w w' =>
    photos w' = photos w /\ projects w' = projects w
    /\ next_photo_id w' = next_photo_id w /\ sent w' = sent w.

(** The progress events of an upload of [filePaths], the first of them
    being the file number [i] + 1 of [total]. *)
Fixpoint upload_events (basename : string -> string) (total i : nat)
    (filePaths : list string) : list IpcEvent :=
  match filePaths with
  | [] => []
  | filePath :: rest =>
      UploadProgress (i + 1) total (basename filePath)
      :: upload_events basename total (i + 1) rest
  end.

(** ** Progress *)

(** [more_sent P w w']: the events sent from [w] to [w'] satisfy [P], and
    those sent before are kept. *)
Definition more_sent (P : IpcEvent -> Prop) : relation World :=
  fun w w' => exists events, sent w' = sent w ++ events /\ Forall P events.

(** A progress event of a scoring run over [total] photos that does not
    count more photos than there are. *)
Definition progress_of (total : nat) (e : IpcEvent) : Prop :=
  exists current message, e = AnalyzeProgress current total message /\ (current <= total)%nat.

(** No more than [k] requests were sent from [w] to [w']. *)
Definition calls_within (k : nat) (w w' : World) : Prop :=
  (api_calls w <= api_calls w' <= api_calls w + k)%nat.

(** Nothing was sent to the window and nothing was written to the disk
    from [w] to [w']. *)
Definition quiet : relation World :=
  fun w w' => sent w' = sent w /\ files w' = files w.

(** A world in which no thumbnail can be read. *)
Definition without_files (w : World) : World := set_files (fun _ => ∅) w.

(** ** Group ids *)

(** The group ids of the photos of the project [pid] are those that the
    service gave since its construction: from 1 to the next one. *)
Definition groups_below (pid : Z) (w : World) : Prop :=
  1 <= nextGroupId w
  /\ forall g, g ∈ SimilarityGroupingService.group_ids pid (photos w) ->
               1 <= g < nextGroupId w.

(** [groups_below] is kept from a world to another one. *)
Definition keeps_groups_below (pid : Z) : relation World :=
  fun w w' => groups_below pid w -> groups_below pid w'.

(** The world after assignGroups has kept a proposal: the next group id is
    given to the rows of [groupPhotos]. *)
Definition assign (groupPhotos : list Photo.t) (w : World) : World :=
  set_photos (assigned (nextGroupId w) (Photo.id <$> groupPhotos))
             (set_nextGroupId (nextGroupId w + 1) w).

(** The world in which a grouping run of the project [pid] makes its
    requests: the service constructed, the groups of the project cleared. *)
Definition cleared (pid : Z) (w : World) : World :=
  (SimilarityGroupingService.clear_groups pid (set_nextGroupId 1 w)).1.

(** SELECT * FROM photos WHERE project_id = ? ORDER BY id *)
Definition project_photos (pid : Z) (w : World) : list Photo.t :=
  merge_sort Photo.id_le (filter (fun p => Photo.project_id p = pid) (photos w)).

(** ** A disk for the exports *)

Module StubExport.

(** path.dirname, for the paths of the stub: what precedes the last slash. *)
Definition dirname (path : string) : string :=
  match StubDisk.from_last "/" path with
  | Some rest => String.substring 0 (String.length path - String.length rest) path
  | None => "."
  end.

(** An image is decoded unless its bytes start with an x. *)
Definition jpeg_of (bytes : string) : option string :=
  match bytes with
  | String "x" _ => None
  | _ => Some ("jpeg:" +:+ bytes)
  end.

Definition photo (id : Z) (filename : string) (score : option Double.real)
    (selected : bool) : Photo.t :=
  Photo.make id 1 filename ("/store/p/originals/" +:+ filename) "t" "hash" 10
             score None selected None 0 0.

(** Five photos of the project, four of them selected: a raw file, a file
    that is missing, two JPEG files. The directory of the exports holds an
    export of an earlier run and a file of another kind. *)
Definition world : World :=
  mkWorld [photo 1 "a.jpg" (Some (Double.Finite 7)) true;
           photo 2 "b.CR2" (Some (Double.Finite 9)) true;
           photo 3 "c.png" None true;
           photo 4 "d.jpg" (Some (Double.Finite 8)) true;
           photo 5 "e.jpg" (Some (Double.Finite 10)) false]
          [Stub.project] 6
          (list_to_map [("/store/p/originals/a.jpg", "AAA");
                        ("/store/p/originals/b.CR2", "BBB");
                        ("/store/p/originals/d.jpg", "DDD");
                        ("/store/p/originals/e.jpg", "EEE");
                        ("/store/p/exports/p_07.jpg", "old");
                        ("/store/p/exports/notes.txt", "notes")])
          {["/store/p/exports"]} 100 0 0 [] [].

Definition exportSelected :=
  PhotoExport.exportSelected StubDisk.join StubDisk.extname dirname StubDisk.basename
    jpeg_of StubDisk.writable StubDisk.storagePath.

End StubExport.

(** * Properties *)

(** ** The parsers on examples *)

Example json_parse_evaluations :
  Json.json_parse (Json.dq "{'evaluations': [{'photo_id': 7, 'score': 8.55, 'comment': 'ok'}]}")
  = Some (JObj [("evaluations",
       JArr [JObj [("photo_id", JNum 7); ("score", JNum (171 # 20)); ("comment", JStr "ok")]])]).
Proof. vm_compute. reflexivity. Qed.

Example json_parse_garbage :
  Json.json_parse "I could not see the photos" = None
  /\ Json.json_parse "{} trailing" = None
  /\ Json.json_parse "[1,]" = None
  /\ Json.json_parse "01" = None
  /\ Json.json_parse "-1.5e1" = Some (JNum (-15)).
Proof. vm_compute. repeat split. Qed.

Example jsonStr_examples :
  Js.jsonStr "Here you go:
```json
  [1, 2]

``` and more ``` text" = "[1, 2]"
  /\ Js.jsonStr "  [1, 2]
" = "[1, 2]"
  /\ Js.jsonStr "```[1, 2]" = "```[1, 2]"
  /\ Js.jsonStr "``````" = EmptyString.
Proof. vm_compute. repeat split. Qed.

(** ** Doubles *)

Section DoubleFacts.
Import Double.

Lemma leb_refl x : leb x x = true.
Proof. destruct x; simpl; try done. apply Qle_bool_iff, Qle_refl. Qed.

Lemma leb_trans x y z : leb x y = true -> leb y z = true -> leb x z = true.
Proof.
  destruct x, y, z; simpl; try done.
  rewrite !Qle_bool_iff. apply Qle_trans.
Qed.

Lemma leb_total x y : leb x y = true \/ leb y x = true.
Proof.
  destruct x as [p| |], y as [q| |]; simpl; try tauto.
  rewrite !Qle_bool_iff. destruct (Qlt_le_dec p q) as [H|H]; [left|right]; lra.
Qed.

Lemma real_le_refl x : le x x.
Proof. apply leb_refl. Qed.

Lemma real_le_trans x y z : le x y -> le y z -> le x z.
Proof. apply leb_trans. Qed.

Lemma real_lt_le x y : lt x y -> le x y.
Proof.
  unfold lt, le, ltb. intros H. destruct (leb_total x y) as [|Hyx]; [done|].
  by rewrite Hyx in H.
Qed.

Lemma real_not_le_lt x y : leb x y = false -> lt y x.
Proof. unfold lt, ltb. by intros ->. Qed.

Lemma difference_le x y : Qle_bool (difference x y) 0 = true <-> le x y.
Proof.
  unfold le. destruct x as [p| |], y as [q| |]; simpl; try done.
  rewrite !Qle_bool_iff. split; intros H; lra.
Qed.

Lemma round_even_floor x : Qfloor x <= round_even x <= Qfloor x + 1.
Proof.
  unfold round_even. destruct (_ ?= _)%Q; [destruct (Z.even _)| |]; lia.
Qed.

Lemma round_even_Z k : round_even (inject_Z k) = k.
Proof.
  unfold round_even. rewrite Qfloor_Z.
  destruct (Qcompare_spec (inject_Z k - inject_Z k) (1 # 2)) as [H|H|H]; [lra|done|lra].
Qed.

Lemma round_even_mono x y : (x <= y)%Q -> round_even x <= round_even y.
Proof.
  intros Hxy. pose proof (Qfloor_resp_le _ _ Hxy) as Hf.
  destruct (Z.eq_dec (Qfloor x) (Qfloor y)) as [Heq|Hne].
  - unfold round_even. rewrite <- Heq.
    destruct (Qcompare_spec (x - inject_Z (Qfloor x)) (1 # 2)) as [Hx|Hx|Hx];
      destruct (Qcompare_spec (y - inject_Z (Qfloor x)) (1 # 2)) as [Hy|Hy|Hy];
      try lia; try lra; destruct (Z.even _); lia.
  - pose proof (round_even_floor x). pose proof (round_even_floor y). lia.
Qed.

Lemma round_even_ge k x : (inject_Z k <= x)%Q -> k <= round_even x.
Proof. intros H. rewrite <- (round_even_Z k). by apply round_even_mono. Qed.

Lemma round_even_le k x : (x <= inject_Z k)%Q -> round_even x <= k.
Proof. intros H. rewrite <- (round_even_Z k). by apply round_even_mono. Qed.

Lemma inject_Z_pow2_pos u : (0 < inject_Z (2 ^ u))%Q \/ u < 0.
Proof.
  destruct (Z.lt_ge_cases u 0) as [|Hu]; [by right|left].
  change 0%Q with (inject_Z 0). rewrite <- Zlt_Qlt. by apply Z.pow_pos_nonneg.
Qed.

Lemma quantum_nonneg x : 0 <= quantum x.
Proof. unfold quantum. lia. Qed.

Lemma quantum_mono x y : (x <= y)%Q -> quantum x <= quantum y.
Proof.
  intros Hxy. unfold quantum.
  pose proof (Z.log2_le_mono _ _ (Qfloor_resp_le _ _ Hxy)). lia.
Qed.

Lemma quantum_upper x : (0 <= x)%Q -> (x < inject_Z (2 ^ (quantum x + 53)))%Q.
Proof.
  intros Hx. unfold quantum.
  assert (Hf : 0 <= Qfloor x).
  { change 0 with (Qfloor 0). by apply Qfloor_resp_le. }
  assert (Hlt : Qfloor x < 2 ^ (Z.max (Z.log2 (Qfloor x)) 52 - 52 + 53)).
  { destruct (Z.eq_dec (Qfloor x) 0) as [->|Hne].
    - apply Z.pow_pos_nonneg; [lia|]. simpl. lia.
    - pose proof (Z.log2_spec (Qfloor x) ltac:(lia)) as [_ Hup].
      eapply Z.lt_le_trans; [exact Hup|].
      apply Z.pow_le_mono_r; lia. }
  pose proof (Qlt_floor x) as Hx1.
  assert (Hle : Qfloor x + 1 <= 2 ^ (Z.max (Z.log2 (Qfloor x)) 52 - 52 + 53)) by lia.
  rewrite Zle_Qle in Hle. eapply Qlt_le_trans; [exact Hx1|exact Hle].
Qed.

Lemma quantum_lower x :
  0 < quantum x -> (inject_Z (2 ^ (quantum x + 52)) <= x)%Q.
Proof.
  unfold quantum. intros Hu.
  assert (Hlog : Z.max (Z.log2 (Qfloor x)) 52 - 52 + 52 = Z.log2 (Qfloor x)) by lia.
  rewrite Hlog.
  assert (Hpos : 0 < Qfloor x).
  { destruct (Z.lt_ge_cases 0 (Qfloor x)) as [|Hle]; [done|].
    rewrite (Z.log2_nonpos (Qfloor x)) in Hu by lia. lia. }
  pose proof (Z.log2_spec (Qfloor x) Hpos) as [Hlo _].
  pose proof (Qfloor_le x) as Hx. rewrite Zle_Qle in Hlo.
  eapply Qle_trans; [exact Hlo|exact Hx].
Qed.

Lemma pow2_pos u : 0 <= u -> (0 < inject_Z (2 ^ u))%Q.
Proof.
  intros Hu. change 0%Q with (inject_Z 0). rewrite <- Zlt_Qlt.
  by apply Z.pow_pos_nonneg.
Qed.

Lemma div_pow2_le x k u :
  0 <= u -> (x <= inject_Z (k * 2 ^ u))%Q -> (x / inject_Z (2 ^ u) <= inject_Z k)%Q.
Proof.
  intros Hu Hx. pose proof (pow2_pos u Hu) as Hp.
  rewrite inject_Z_mult in Hx.
  apply Qle_shift_div_r; [done|]. lra.
Qed.

Lemma div_pow2_ge x k u :
  0 <= u -> (inject_Z (k * 2 ^ u) <= x)%Q -> (inject_Z k <= x / inject_Z (2 ^ u))%Q.
Proof.
  intros Hu Hx. pose proof (pow2_pos u Hu) as Hp.
  rewrite inject_Z_mult in Hx.
  apply Qle_shift_div_l; [done|]. lra.
Qed.

Lemma units_mono x y : (0 <= x)%Q -> (x <= y)%Q -> units x <= units y.
Proof.
  intros Hx Hxy. pose proof (quantum_mono x y Hxy) as Hu.
  pose proof (quantum_nonneg x) as Hux.
  unfold units.
  destruct (Z.eq_dec (quantum x) (quantum y)) as [Heq|Hne].
  - rewrite <- Heq. apply Z.mul_le_mono_nonneg_r; [by apply Z.pow_nonneg|].
    apply round_even_mono. pose proof (pow2_pos _ Hux) as Hp.
    apply Qmult_le_compat_r; [done|]. apply Qlt_le_weak, Qinv_lt_0_compat. done.
  - assert (Hy : 0 < quantum y) by lia.
    pose proof (quantum_lower y Hy) as Hlow.
    pose proof (quantum_upper x Hx) as Hup.
    assert (H1 : round_even (x / inject_Z (2 ^ quantum x)) <= 2 ^ 53).
    { apply round_even_le, div_pow2_le; [done|].
      rewrite <- Z.pow_add_r by lia. rewrite (Z.add_comm 53).
      by apply Qlt_le_weak. }
    assert (H2 : 2 ^ 52 <= round_even (y / inject_Z (2 ^ quantum y))).
    { apply round_even_ge, div_pow2_ge; [lia|].
      rewrite <- Z.pow_add_r by lia. by rewrite (Z.add_comm 52). }
    transitivity (2 ^ 53 * 2 ^ quantum x).
    { apply Z.mul_le_mono_nonneg_r; [by apply Z.pow_nonneg|done]. }
    transitivity (2 ^ 52 * 2 ^ quantum y).
    { rewrite <- !Z.pow_add_r by lia. apply Z.pow_le_mono_r; lia. }
    apply Z.mul_le_mono_nonneg_r; [apply Z.pow_nonneg; lia|done].
Qed.

Lemma units_nonneg x : (0 <= x)%Q -> 0 <= units x.
Proof.
  intros Hx. unfold units. apply Z.mul_nonneg_nonneg; [|apply Z.pow_nonneg; lia].
  apply (round_even_ge 0). pose proof (pow2_pos _ (quantum_nonneg x)) as Hp.
  apply Qle_shift_div_l; [done|]. change (inject_Z 0) with 0%Q. lra.
Qed.

Lemma nearest_units q :
  nearest q
  = if 2 ^ 2098 <=? units (q * inject_Z scale)
    then Infinity
    else Finite (Qred (inject_Z (units (q * inject_Z scale)) / inject_Z scale)).
Proof. reflexivity. Qed.

Lemma scale_pos : (0 < inject_Z scale)%Q.
Proof. apply pow2_pos. lia. Qed.

Lemma nearest_mono p q : (0 <= p)%Q -> (p <= q)%Q -> le (nearest p) (nearest q).
Proof.
  intros Hp Hpq. rewrite !nearest_units. pose proof scale_pos as Hs.
  assert (Hu : units (p * inject_Z scale) <= units (q * inject_Z scale)).
  { apply units_mono; [|by apply Qmult_le_compat_r; lra].
    apply Qmult_le_0_compat; lra. }
  unfold le.
  destruct (Z.leb_spec (2 ^ 2098) (units (p * inject_Z scale)));
    destruct (Z.leb_spec (2 ^ 2098) (units (q * inject_Z scale))); simpl; try done; [lia|].
  apply Qle_bool_iff. rewrite !Qred_correct.
  apply Qmult_le_compat_r; [by rewrite <- Zle_Qle|].
  apply Qlt_le_weak, Qinv_lt_0_compat. done.
Qed.

Lemma nearest_nonneg q : (0 <= q)%Q -> le (Finite 0) (nearest q).
Proof.
  intros Hq. rewrite nearest_units. pose proof scale_pos as Hs. unfold le.
  destruct (_ <=? _); [done|]. simpl. apply Qle_bool_iff. rewrite Qred_correct.
  pose proof (units_nonneg (q * inject_Z scale) ltac:(apply Qmult_le_0_compat; lra)) as Hu.
  rewrite Zle_Qle in Hu. change (inject_Z 0) with 0%Q in Hu.
  apply Qle_shift_div_l; [done|]. lra.
Qed.

Lemma le_opp x y : le x y -> le (opp y) (opp x).
Proof.
  unfold le. destruct x, y; simpl; try done.
  rewrite !Qle_bool_iff, !Qred_correct. lra.
Qed.

Lemma opp_nonpos x : le (Finite 0) x -> le (opp x) (Finite 0).
Proof.
  unfold le. destruct x; simpl; try done.
  rewrite !Qle_bool_iff, !Qred_correct. lra.
Qed.

(** Rounding to a double keeps the order. *)
Lemma fl_mono p q : (p <= q)%Q -> le (fl p) (fl q).
Proof.
  intros Hpq. unfold fl.
  destruct (Qcompare_spec p 0) as [Hp|Hp|Hp]; destruct (Qcompare_spec q 0) as [Hq|Hq|Hq];
    try lra;
    first [ apply nearest_mono; lra
          | apply le_opp, nearest_mono; lra
          | eapply leb_trans;
            [apply opp_nonpos, nearest_nonneg; lra|apply nearest_nonneg; lra] ].
Qed.

(** The integer nearest to [x] is within a half of it. *)
Lemma round_even_near x :
  (x - (1 # 2) <= inject_Z (round_even x) <= x + (1 # 2))%Q.
Proof.
  pose proof (Qfloor_le x) as Hlo. pose proof (Qlt_floor x) as Hhi.
  rewrite inject_Z_plus in Hhi. change (inject_Z 1) with 1%Q in Hhi.
  unfold round_even.
  destruct (Qcompare_spec (x - inject_Z (Qfloor x)) (1 # 2)) as [H|H|H];
    [destruct (Z.even _)| |];
    rewrite ?inject_Z_plus; change (inject_Z 1) with 1%Q; lra.
Qed.

(** A double in the range of the normal numbers is within 2^-53 of what
    it rounds, relatively. *)
Lemma fl_error q v :
  (inject_Z (2 ^ 53) <= q * inject_Z scale)%Q ->
  fl q = Finite v ->
  (q - q * (1 # 2 ^ 53) <= v <= q + q * (1 # 2 ^ 53))%Q.
Proof.
  intros Hnormal Hv. pose proof scale_pos as HS.
  assert (Hq : (0 < q)%Q).
  { assert (0 < inject_Z (2 ^ 53))%Q by done.
    destruct (Qlt_le_dec 0 q) as [|Hle]; [done|]. exfalso.
    assert (q * inject_Z scale <= 0)%Q; [|lra].
    rewrite <- (Qmult_0_l (inject_Z scale)). apply Qmult_le_compat_r; lra. }
  unfold fl in Hv. destruct (Qcompare_spec q 0) as [H|H|H]; try lra.
  rewrite nearest_units in Hv.
  destruct (2 ^ 2098 <=? units (q * inject_Z scale)); [done|].
  injection Hv as <-. rewrite Qred_correct.
  set (x := (q * inject_Z scale)%Q) in *.
  assert (Hu : 0 < quantum x).
  { unfold quantum.
    assert (2 ^ 53 <= Qfloor x).
    { rewrite <- (Qfloor_Z (2 ^ 53)). by apply Qfloor_resp_le. }
    pose proof (Z.log2_le_mono _ _ H0) as Hlog.
    rewrite Z.log2_pow2 in Hlog by lia. lia. }
  pose proof (quantum_lower x Hu) as Hlow.
  pose proof (pow2_pos (quantum x) ltac:(lia)) as HP.
  rewrite Z.pow_add_r, inject_Z_mult in Hlow by lia.
  unfold units. rewrite inject_Z_mult.
  pose proof (round_even_near (x / inject_Z (2 ^ quantum x))) as [Hr1 Hr2].
  set (P := inject_Z (2 ^ quantum x)) in *.
  set (R := inject_Z (round_even (x / P))) in *.
  assert (Hx1 : ((R - (1 # 2)) * P <= x)%Q).
  { apply (Qmult_le_r _ _ (/ P)); [by apply Qinv_lt_0_compat|].
    rewrite <- Qmult_assoc, Qmult_inv_r, Qmult_1_r by lra.
    change (x * / P)%Q with (x / P)%Q. lra. }
  assert (Hx2 : (x <= (R + (1 # 2)) * P)%Q).
  { apply (Qmult_le_r _ _ (/ P)); [by apply Qinv_lt_0_compat|].
    rewrite <- Qmult_assoc, Qmult_inv_r, Qmult_1_r by lra.
    change (x * / P)%Q with (x / P)%Q. lra. }
  assert (Hlow' : (P * 4503599627370496 <= x)%Q) by exact Hlow.
  change (1 # 2 ^ 53) with (1 # 9007199254740992).
  set (S := inject_Z scale) in *.
  assert (Hxq : (x == q * S)%Q) by done.
  clear Hlow Hr1 Hr2 Hnormal Hu. clearbody R P x S.
  split.
  - apply (Qmult_le_r _ _ S); [done|].
    unfold Qdiv. rewrite <- (Qmult_assoc (R * P)), (Qmult_comm (/ S)), Qmult_inv_r, Qmult_1_r by lra.
    lra.
  - apply (Qmult_le_r _ _ S); [done|].
    unfold Qdiv. rewrite <- (Qmult_assoc (R * P)), (Qmult_comm (/ S)), Qmult_inv_r, Qmult_1_r by lra.
    lra.
Qed.

Lemma fl_within (a b q : Q) :
  fl a = Finite a -> fl b = Finite b -> (a <= q <= b)%Q ->
  exists v, fl q = Finite v /\ (a <= v <= b)%Q.
Proof.
  intros Ha Hb [Hlo Hhi].
  pose proof (fl_mono _ _ Hlo) as H1. pose proof (fl_mono _ _ Hhi) as H2.
  rewrite Ha in H1. rewrite Hb in H2. unfold le in *.
  destruct (fl q) as [v| |]; simpl in *; try done.
  apply Qle_bool_iff in H1, H2. by exists v.
Qed.

(** One rounding, for a number that is neither tiny nor huge. *)
Lemma fl_round q :
  (1 # 1000000000 <= q <= 1000000000000000000)%Q ->
  exists v, fl q = Finite v
    /\ (q - q * (1 # 9007199254740992) <= v <= q + q * (1 # 9007199254740992))%Q.
Proof.
  intros [Hlo Hhi].
  destruct (fl_within 0 1000000000000000000 q) as (v & Hv & _).
  { vm_compute. reflexivity. }
  { vm_compute. reflexivity. }
  { lra. }
  exists v. split; [done|]. apply fl_error; [|done].
  assert (Hscale : (inject_Z (2 ^ 53) <= (1 # 1000000000) * inject_Z scale)%Q).
  { apply Qle_bool_iff. vm_compute. reflexivity. }
  eapply Qle_trans; [exact Hscale|].
  apply Qmult_le_compat_r; [done|]. apply Qlt_le_weak, scale_pos.
Qed.

Lemma le_Finite p q : le (Finite p) (Finite q) <-> (p <= q)%Q.
Proof. unfold le. simpl. apply Qle_bool_iff. Qed.

End DoubleFacts.

(** ** The batch scheduler *)

Section BatchScheduler.
Context {A : Type}.
Implicit Types (photos : list A) (B i fuel : nat).

Lemma ceil_div_0 B : (0 < B)%nat -> Js.ceil_div 0 B = 0%nat.
Proof. intros HB. unfold Js.ceil_div. apply Nat.div_small. lia. Qed.

Lemma ceil_div_step n B :
  (0 < B)%nat -> (0 < n)%nat -> Js.ceil_div n B = S (Js.ceil_div (n - B) B).
Proof.
  intros HB Hn. unfold Js.ceil_div.
  destruct (Nat.le_gt_cases n B) as [Hle|Hgt].
  - replace (n - B)%nat with 0%nat by lia.
    rewrite (Nat.div_small (0 + B - 1) B) by lia.
    replace (n + B - 1)%nat with ((n - 1) + 1 * B)%nat by lia.
    rewrite Nat.div_add by lia. rewrite Nat.div_small by lia. done.
  - replace (n + B - 1)%nat with ((n - B + B - 1) + 1 * B)%nat by lia.
    rewrite Nat.div_add by lia. lia.
Qed.

Lemma batch_loop_spec B photos fuel i :
  (0 < B)%nat ->
  (length photos <= i + fuel * B)%nat ->
  exists bs,
    Js.batch_loop fuel B i photos = Some bs /\
    concat (bs.*2) = drop i photos /\
    length bs = Js.ceil_div (length photos - i) B /\
    (forall k j b, bs !! k = Some (j, b) ->
       j = (i + k * B)%nat /\ b = Js.slice j (j + B) photos /\
       (j < length photos)%nat).
Proof.
  intros HB. revert i.
  induction fuel as [|fuel IH]; intros i Hfuel; simpl.
  - destruct (Nat.ltb_spec i (length photos)) as [Hlt|Hge]; [lia|].
    exists []. split_and!; try done.
    + by rewrite drop_ge.
    + replace (length photos - i)%nat with 0%nat by lia.
      by rewrite ceil_div_0.
  - destruct (Nat.ltb_spec i (length photos)) as [Hlt|Hge].
    + destruct (IH (i + B)%nat) as (bs & -> & Hcat & Hlen & Hnth); [lia|].
      exists ((i, Js.slice i (i + B) photos) :: bs). split_and!; try done.
      * rewrite fmap_cons. cbn [snd concat]. rewrite Hcat. unfold Js.slice.
        replace (i + B - i)%nat with B by lia.
        rewrite <- drop_drop. apply take_drop.
      * simpl. rewrite Hlen, (ceil_div_step (length photos - i) B) by lia.
        do 2 f_equal. lia.
      * intros [|k] j b Hk; simpl in Hk.
        -- injection Hk as <- <-. split_and!; [lia|done|done].
        -- destruct (Hnth k j b Hk) as (-> & -> & Hj). split_and!; [lia|done|done].
    + exists []. split_and!; try done.
      * by rewrite drop_ge.
      * replace (length photos - i)%nat with 0%nat by lia.
        by rewrite ceil_div_0.
Qed.

(** The loop ends for a batch size that is not 0, and its slices make the
    list. *)
Lemma batches_some B photos :
  (0 < B)%nat ->
  exists bs, Js.batches B photos = Some bs /\ concat (bs.*2) = photos.
Proof.
  intros HB.
  destruct (batch_loop_spec B photos (length photos) 0 HB)
    as (bs & Hbs & Hcat & _); [nia|].
  exists bs. by rewrite drop_0 in Hcat.
Qed.

(** C5. For a list of N photos and a batch size B > 0 (10 for scoring, 20
    for grouping), the batch loop ends and yields ceil(N/B) slices: the
    k-th one is photos.slice(k*B, k*B+B), of size B except the last one,
    whose size is N - k*B <= B; and the slices, concatenated in order, are
    the input sequence. *)
Theorem batches_partition B photos :
  (0 < B)%nat ->
  exists bs,
    Js.batches B photos = Some bs /\
    length bs = Js.ceil_div (length photos) B /\
    concat (bs.*2) = photos /\
    (forall k j b, bs !! k = Some (j, b) ->
       j = (k * B)%nat /\
       b = take B (drop (k * B) photos) /\
       (S k < length bs -> length b = B)%nat /\
       (S k = length bs ->
          length b = (length photos - k * B)%nat /\ (0 < length b <= B)%nat)).
Proof.
  intros HB.
  destruct (batch_loop_spec B photos (length photos) 0 HB)
    as (bs & Hbs & Hcat & Hlen & Hnth); [nia|].
  exists bs. rewrite Nat.sub_0_r in Hlen. rewrite drop_0 in Hcat.
  split_and!; try done.
  intros k j b Hk. destruct (Hnth k j b Hk) as (-> & -> & Hj). simpl in *.
  assert (Hk' : (k < length bs)%nat) by (eapply lookup_lt_Some; eauto).
  assert (Hceil : (length bs * B < length photos + B
                   /\ length photos <= length bs * B)%nat).
  { rewrite Hlen. unfold Js.ceil_div.
    pose proof (Nat.div_mod_eq (length photos + B - 1) B) as Hdm.
    pose proof (Nat.mod_upper_bound (length photos + B - 1) B) as Hmod. nia. }
  unfold Js.slice. replace (k * B + B - k * B)%nat with B by lia.
  split_and!; try done.
  - intros HS. rewrite length_take, length_drop. nia.
  - intros HS. rewrite length_take, length_drop. nia.
Qed.

End BatchScheduler.

Lemma batches_partition_witness :
  (0 < 10)%nat /\
  exists bs,
    Js.batches 10 (seq 0 23) = Some bs /\
    length bs = Js.ceil_div 23 10 /\
    concat (bs.*2) = seq 0 23.
Proof.
  split; [lia|].
  destruct (batches_partition 10 (seq 0 23)) as (bs & H1 & H2 & H3 & _); [lia|].
  exists bs. split_and!; [exact H1|exact H2|exact H3].
Defined.

(** ** The response parser *)

Section ParserFacts.
Implicit Types (s t p : string) (c : ascii).

Lemma append_cons c s t : String c s +:+ t = String c (s +:+ t).
Proof. reflexivity. Qed.

Lemma append_nil t : EmptyString +:+ t = t.
Proof. reflexivity. Qed.




Lemma strip_prefix_Some p s r : Js.strip_prefix p s = Some r -> s = p +:+ r.
Proof.
  revert s. induction p as [|a p IH]; intros s; simpl; [by intros [= ->]|].
  destruct s as [|b s]; [done|].
  destruct (Ascii.eqb_spec a b) as [->|]; [|done].
  intros H. rewrite append_cons. f_equal. by apply IH.
Qed.



Lemma find_sub_unfold p c s :
  Js.find_sub p (String c s)
  = match Js.strip_prefix p (String c s) with
    | Some rest => Some (EmptyString, rest)
    | None => match Js.find_sub p s with
              | Some (before, rest) => Some (String c before, rest)
              | None => None
              end
    end.
Proof. reflexivity. Qed.

Lemma find_sub_Some p s a b : Js.find_sub p s = Some (a, b) -> s = a +:+ p +:+ b.
Proof.
  revert a. induction s as [|c s IH]; intros a.
  - simpl. destruct (Js.strip_prefix p EmptyString) as [r|] eqn:Hp; [|done].
    intros [= <- <-]. by apply strip_prefix_Some in Hp.
  - rewrite find_sub_unfold.
    destruct (Js.strip_prefix p (String c s)) as [r|] eqn:Hp.
    + intros [= <- <-]. by apply strip_prefix_Some in Hp.
    + destruct (Js.find_sub p s) as [[a' b']|]; [|done].
      intros [= <- <-]. rewrite append_cons. f_equal. by apply IH.
Qed.

Lemma find_fence_cons c s :
  no_fence (String c s) ->
  Js.strip_prefix Js.fence (String c s) = None /\ no_fence s.
Proof.
  unfold no_fence. rewrite find_sub_unfold.
  destruct (Js.strip_prefix Js.fence (String c s)); [done|].
  destruct (Js.find_sub Js.fence s) as [[??]|]; done.
Qed.







(** A text has no fence when it is not one around a fence. *)
Lemma no_fence_iff s : no_fence s <-> forall a b, s <> a +:+ Js.fence +:+ b.
Proof.
  split.
  - intros Hs a b ->. revert Hs. induction a as [|c a IH]; intros Hs.
    + rewrite append_nil in Hs. unfold no_fence in Hs. destruct b; done.
    + rewrite append_cons in Hs. apply IH. by destruct (find_fence_cons _ _ Hs).
  - intros Hs. unfold no_fence.
    destruct (Js.find_sub Js.fence s) as [[a b]|] eqn:Hfind; [|done].
    apply find_sub_Some in Hfind. by destruct (Hs a b).
Qed.

















End ParserFacts.




(** ** Reasoning on sequential code *)

Section Preserves.
Context (R : relation World) `{!PreOrder R}.

Lemma preserves_ret {A} (a : A) : preserves R (ret a).
Proof. intros w. simpl. reflexivity. Qed.

Lemma preserves_throw {A} e : preserves R (@throw A e).
Proof. intros w. simpl. reflexivity. Qed.

Lemma preserves_out_of_fuel {A} : preserves R (@out_of_fuel A).
Proof. intros w. simpl. reflexivity. Qed.

Lemma preserves_lift {A} (r : result A) : preserves R (lift r).
Proof. intros w. simpl. reflexivity. Qed.

Lemma preserves_gets {A} (f : World -> A) : preserves R (gets f).
Proof. intros w. simpl. reflexivity. Qed.

Lemma preserves_readFile path : preserves R (readFile path).
Proof. intros w. unfold readFile. destruct (files w !! path); simpl; reflexivity. Qed.

Lemma preserves_modify f : (forall w, R w (f w)) -> preserves R (modify f).
Proof. intros Hf w. simpl. apply Hf. Qed.

Lemma preserves_bind {A B} (m : M A) (k : A -> M B) :
  preserves R m -> (forall a, preserves R (k a)) -> preserves R (bind m k).
Proof.
  intros Hm Hk w. unfold bind. specialize (Hm w).
  destruct (m w) as [w' [a| e |]]; simpl in *; try done.
  etrans; [exact Hm|apply Hk].
Qed.

Lemma preserves_try_catch {A} (m : M A) (h : exn -> M A) :
  preserves R m -> (forall e, preserves R (h e)) -> preserves R (try_catch m h).
Proof.
  intros Hm Hh w. unfold try_catch. specialize (Hm w).
  destruct (m w) as [w' [a| e |]]; simpl in *; try done.
  etrans; [exact Hm|apply Hh].
Qed.

Lemma preserves_for_each {A} (l : list A) (body : A -> M unit) :
  (forall x, x ∈ l -> preserves R (body x)) -> preserves R (for_each l body).
Proof.
  induction l as [|x l IH]; intros Hbody; simpl.
  - apply preserves_ret.
  - apply preserves_bind.
    + apply Hbody. left.
    + intros _. apply IH. intros y Hy. apply Hbody. by right.
Qed.

Lemma preserves_fold_each {A S} (l : list A) (acc : S) (body : S -> A -> M S) :
  (forall s x, x ∈ l -> preserves R (body s x)) -> preserves R (fold_each l acc body).
Proof.
  revert acc. induction l as [|x l IH]; intros acc Hbody; simpl.
  - apply preserves_ret.
  - apply preserves_bind.
    + apply Hbody. left.
    + intros acc'. apply IH. intros s y Hy. apply Hbody. by right.
Qed.
End Preserves.

Section Ends.
Lemma ends_ret {A} (a : A) : ends (ret a).
Proof. intros w. done. Qed.

Lemma ends_throw {A} e : ends (@throw A e).
Proof. intros w. done. Qed.

Lemma ends_lift {A} (r : result A) : r <> OutOfFuel -> ends (lift r).
Proof. intros Hr w. done. Qed.

Lemma ends_gets {A} (f : World -> A) : ends (gets f).
Proof. intros w. done. Qed.

Lemma ends_modify f : ends (modify f).
Proof. intros w. done. Qed.

Lemma ends_readFile path : ends (readFile path).
Proof. intros w. unfold readFile. destruct (files w !! path); done. Qed.

Lemma ends_bind {A B} (m : M A) (k : A -> M B) :
  ends m -> (forall a, ends (k a)) -> ends (bind m k).
Proof.
  intros Hm Hk w. unfold bind. specialize (Hm w).
  destruct (m w) as [w' [a| e |]]; simpl in *; try done. apply Hk.
Qed.

Lemma ends_try_catch {A} (m : M A) (h : exn -> M A) :
  ends m -> (forall e, ends (h e)) -> ends (try_catch m h).
Proof.
  intros Hm Hh w. unfold try_catch. specialize (Hm w).
  destruct (m w) as [w' [a| e |]]; simpl in *; try done. apply Hh.
Qed.

Lemma ends_for_each {A} (l : list A) (body : A -> M unit) :
  (forall x, ends (body x)) -> ends (for_each l body).
Proof.
  intros Hbody. induction l as [|x l IH]; simpl.
  - apply ends_ret.
  - apply ends_bind; [apply Hbody|done].
Qed.

Lemma ends_fold_each {A S} (l : list A) (acc : S) (body : S -> A -> M S) :
  (forall s x, ends (body s x)) -> ends (fold_each l acc body).
Proof.
  intros Hbody. revert acc. induction l as [|x l IH]; intros acc; simpl.
  - apply ends_ret.
  - apply ends_bind; [apply Hbody|done].
Qed.
End Ends.

Lemma pushThumbnail_all base64 batch content w :
  fold_each batch content (pushThumbnail base64) w
  = (w, Ok (thumbnails base64 (files w) batch content)).
Proof.
  revert content. induction batch as [|p batch IH]; intros content; simpl; [done|].
  unfold bind at 1, pushThumbnail, try_catch, bind, readFile.
  destruct (files w !! Photo.thumbnail_path p); simpl; apply IH.
Qed.

Lemma buildContent_scoring base64 batch w :
  ClaudeVisionService.buildContent base64 batch w
  = (w, Ok (thumbnails base64 (files w) batch [])).
Proof. apply pushThumbnail_all. Qed.

Lemma buildContent_grouping base64 batch w :
  SimilarityGroupingService.buildContent base64 batch w
  = (w, Ok (thumbnails base64 (files w) batch [])).
Proof. apply pushThumbnail_all. Qed.

(** Applies a lemma on [preserves] and finds the preorder. *)
Ltac papply lem := apply lem; try (exact _).

Section Throws.
Context (P : exn -> Prop).

Lemma throws_ret {A} (a : A) : throws P (ret a).
Proof. intros w e. done. Qed.

Lemma throws_throw {A} e : P e -> throws P (@throw A e).
Proof. intros He w e' [= <-]. done. Qed.

Lemma throws_lift {A} (r : result A) : (forall e, r = Throw e -> P e) -> throws P (lift r).
Proof. intros Hr w e. simpl. apply Hr. Qed.

Lemma throws_gets {A} (f : World -> A) : throws P (gets f).
Proof. intros w e. done. Qed.

Lemma throws_modify f : throws P (modify f).
Proof. intros w e. done. Qed.

Lemma throws_bind {A B} (m : M A) (k : A -> M B) :
  throws P m -> (forall a, throws P (k a)) -> throws P (bind m k).
Proof.
  intros Hm Hk w e. unfold bind. specialize (Hm w).
  destruct (m w) as [w' [a| e' |]]; simpl in *; try done.
  - apply Hk.
  - intros [= <-]. by apply Hm.
Qed.

Lemma throws_for_each {A} (l : list A) (body : A -> M unit) :
  (forall x, throws P (body x)) -> throws P (for_each l body).
Proof.
  intros Hbody. induction l as [|x l IH]; simpl.
  - apply throws_ret.
  - apply throws_bind; [apply Hbody|done].
Qed.
End Throws.

(** The property of a value, and the values to iterate, are found or a
    TypeError is thrown. *)
Lemma prop_throws v key e : prop v key = Throw e -> status e = None.
Proof. destruct v; simpl; intros [= <-]; done. Qed.

Lemma iterate_throws v e : iterate v = Throw e -> status e = None.
Proof. destruct v as [[]|]; simpl; intros [= <-]; done. Qed.

Lemma prop_ends v key : prop v key <> OutOfFuel.
Proof. destruct v; done. Qed.

Lemma iterate_ends v : iterate v <> OutOfFuel.
Proof. destruct v as [[]|]; done. Qed.

(** What a world is after requests and delays. *)
Lemma files_add_call w : files (add_call w) = files w.
Proof. reflexivity. Qed.

Lemma files_add_delay d w : files (add_delay d w) = files w.
Proof. reflexivity. Qed.

#[local] Instance same_calls_preorder : PreOrder same_calls.
Proof.
  split.
  - intros w. by repeat split.
  - intros w1 w2 w3 (?&?&?) (?&?&?). repeat split; congruence.
Qed.

Section ScoringBatch.
Variable create : nat -> list ContentBlock -> Outcome.
Variable JSON_parse : string -> option json.
Variable coerce : json -> Double.number.
Variable driver : option json -> option (option string).
Variable base64 : string -> string.
Variable project : Project.t.

Local Abbreviation find_photo := ClaudeVisionService.find_photo.
Local Abbreviation saveEvaluation := (ClaudeVisionService.saveEvaluation coerce driver).
Local Abbreviation saveResults := (ClaudeVisionService.saveResults JSON_parse coerce driver).
Local Abbreviation analyzeBatch_fuel :=
  (ClaudeVisionService.analyzeBatch_fuel create JSON_parse coerce driver base64 project).
Local Abbreviation analyzeBatch :=
  (ClaudeVisionService.analyzeBatch create JSON_parse coerce driver base64 project).
Local Abbreviation request w batch :=
  (thumbnails base64 (files w) batch []
     ++ [TextBlock (ClaudeVisionService.buildPrompt project)]).

Lemma find_photo_cases batch evaluation :
  (exists p ms,
     evaluation = JObj ms /\ find_photo batch evaluation = Ok (Some p) /\ p ∈ batch
     /\ id_eq (Photo.id p) (Json.assoc_last "photo_id" ms) = true)
  \/ find_photo batch evaluation = Ok None
  \/ find_photo batch evaluation = Throw TypeError.
Proof.
  induction batch as [|p batch IH]; simpl; [by right; left|].
  destruct evaluation as [| | | | |ms]; simpl in *; try (by right; right);
    try (destruct IH as [(?&?&?&?)|[?|?]]; [done|by right; left|by right; right]).
  destruct (id_eq (Photo.id p) (Json.assoc_last "photo_id" ms)) eqn:Hid.
  - left. exists p, ms. split_and!; try done. left.
  - destruct IH as [(q&ms'&Heq&?&?&?)|[?|?]]; [left|by right; left|by right; right].
    exists q, ms'. split_and!; try done. by right.
Qed.

(** What saveEvaluation does: it writes the rounded score and the comment
    bound in the row of the photo found, or it does nothing, or it throws
    before it writes. *)
Lemma saveEvaluation_cases batch evaluation w :
  (exists p ms comment,
     evaluation = JObj ms /\ p ∈ batch
     /\ id_eq (Photo.id p) (Json.assoc_last "photo_id" ms) = true
     /\ find_photo batch evaluation = Ok (Some p)
     /\ ClaudeVisionService.boundComment driver (Json.assoc_last "comment" ms)
        = Some comment
     /\ saveEvaluation batch evaluation w
        = ClaudeVisionService.update_score
            (stored (ClaudeVisionService.roundedScore coerce
                       (Json.assoc_last "score" ms)))
            comment (Photo.id p) w)
  \/ saveEvaluation batch evaluation w = (w, Ok tt)
  \/ (exists e, saveEvaluation batch evaluation w = (w, Throw e) /\ status e = None).
Proof.
  unfold ClaudeVisionService.saveEvaluation, bind at 1, lift.
  destruct (find_photo_cases batch evaluation) as [(p&ms&->&Hp&Hin&Hid)|[Hp|Hp]];
    rewrite Hp.
  - simpl. unfold bind, lift. simpl.
    destruct (ClaudeVisionService.boundComment driver (Json.assoc_last "comment" ms))
      as [comment|] eqn:Hbound.
    + left. exists p, ms, comment. by split_and!.
    + right. right. by exists DriverError.
  - right. by left.
  - right. right. by exists TypeError.
Qed.

Lemma saveEvaluation_throws batch evaluation :
  throws (fun e => status e = None) (saveEvaluation batch evaluation).
Proof.
  intros w e.
  destruct (saveEvaluation_cases batch evaluation w)
    as [(p&ms&c&_&_&_&_&_&->)|[->|(e'&->&He')]]; simpl; try done.
  by intros [= <-].
Qed.

Lemma saveResults_throws batch response :
  throws (fun e => status e = None) (saveResults batch response).
Proof.
  destruct response as [|[text|] rest]; simpl.
  - by apply throws_throw.
  - apply throws_bind; [apply throws_lift; intros e; apply prop_throws|].
    intros evaluations.
    apply throws_bind; [apply throws_lift; intros e; apply iterate_throws|].
    intros evs. apply throws_for_each. intros ev. apply saveEvaluation_throws.
  - apply throws_ret.
Qed.

Lemma saveEvaluation_ends batch evaluation : ends (saveEvaluation batch evaluation).
Proof.
  intros w.
  by destruct (saveEvaluation_cases batch evaluation w)
    as [(p&ms&c&_&_&_&_&_&->)|[->|(e'&->&He')]].
Qed.

Lemma saveResults_ends batch response : ends (saveResults batch response).
Proof.
  destruct response as [|[text|] rest]; simpl.
  - by apply ends_throw.
  - apply ends_bind; [apply ends_lift, prop_ends|].
    intros evaluations.
    apply ends_bind; [apply ends_lift, iterate_ends|].
    intros evs. apply ends_for_each. intros ev. apply saveEvaluation_ends.
  - apply ends_ret.
Qed.

Lemma saveResults_preserves (R : relation World) `{!PreOrder R} batch response :
  (forall evaluation,
     evaluation ∈ evaluations_of JSON_parse response ->
     preserves R (saveEvaluation batch evaluation)) ->
  preserves R (saveResults batch response).
Proof.
  intros Hev w. destruct response as [|[text|] rest]; simpl; try reflexivity.
  unfold evaluations_of in Hev. unfold bind at 1, lift.
  destruct (prop _ "evaluations") as [evaluations| |]; simpl; try reflexivity.
  unfold bind at 1.
  destruct (iterate evaluations) as [evs| |]; simpl; try reflexivity.
  apply (preserves_for_each R evs). intros ev Hin. by apply Hev.
Qed.

Lemma saveEvaluation_preserves (R : relation World) `{!PreOrder R} batch evaluation :
  (forall p ms comment,
     p ∈ batch -> evaluation = JObj ms ->
     id_eq (Photo.id p) (Json.assoc_last "photo_id" ms) = true ->
     ClaudeVisionService.boundComment driver (Json.assoc_last "comment" ms)
       = Some comment ->
     preserves R (ClaudeVisionService.update_score
                    (stored (ClaudeVisionService.roundedScore coerce
                               (Json.assoc_last "score" ms)))
                    comment (Photo.id p))) ->
  preserves R (saveEvaluation batch evaluation).
Proof.
  intros Hupdate w.
  destruct (saveEvaluation_cases batch evaluation w)
    as [(p&ms&c&Heq&Hin&Hid&_&Hbound&->)|[->|(e'&->&He')]]; try reflexivity.
  by apply (Hupdate p ms c).
Qed.

Lemma saveResults_same_calls batch response :
  preserves same_calls (saveResults batch response).
Proof.
  apply saveResults_preserves; [exact _|]. intros evaluation _.
  apply saveEvaluation_preserves; [exact _|]. intros p ms c _ _ _ _.
  by papply @preserves_modify.
Qed.

(** *** One attempt of analyzeBatch *)

Lemma analyzeBatch_no_thumbnail fuel batch retryCount w :
  thumbnails base64 (files w) batch [] = [] ->
  analyzeBatch_fuel fuel batch retryCount w = (w, Ok tt).
Proof.
  intros Hc. destruct fuel; simpl; unfold bind at 1;
    rewrite buildContent_scoring, Hc; done.
Qed.

Lemma analyzeBatch_responds fuel batch retryCount w response :
  thumbnails base64 (files w) batch [] <> [] ->
  create (api_calls w) (request w batch) = Responds response ->
  analyzeBatch_fuel fuel batch retryCount w = saveResults batch response (add_call w).
Proof.
  intros Hc Hcreate.
  pose proof (saveResults_throws batch response (add_call w)) as Hthrows.
  destruct fuel; simpl; unfold bind at 1; rewrite buildContent_scoring;
    destruct (thumbnails base64 (files w) batch []) as [|c cs]; try done;
    unfold try_catch, bind at 1, messages_create; rewrite Hcreate;
    destruct (saveResults batch response (add_call w)) as [w' [[]|e|]]; try done;
    specialize (Hthrows e eq_refl);
    destruct (decide (status e = Some 429)); first [congruence|done].
Qed.

Lemma analyzeBatch_rejected fuel batch retryCount w error :
  thumbnails base64 (files w) batch [] <> [] ->
  create (api_calls w) (request w batch) = Rejects error ->
  status error <> Some 429 \/ (3 <= retryCount)%nat ->
  analyzeBatch_fuel fuel batch retryCount w = (add_call w, Throw error).
Proof.
  intros Hc Hcreate Hwhy.
  destruct fuel; simpl; unfold bind at 1; rewrite buildContent_scoring;
    destruct (thumbnails base64 (files w) batch []) as [|c cs]; try done;
    unfold try_catch, bind at 1, messages_create; rewrite Hcreate;
    destruct (decide (status error = Some 429)); try done;
    destruct (Nat.ltb_spec retryCount 3); try done;
    destruct Hwhy; first [done|lia].
Qed.

Lemma analyzeBatch_rate_limited batch retryCount w error :
  thumbnails base64 (files w) batch [] <> [] ->
  create (api_calls w) (request w batch) = Rejects error ->
  status error = Some 429 ->
  (retryCount < 3)%nat ->
  analyzeBatch batch retryCount w
  = analyzeBatch batch (retryCount + 1)
      (add_delay ((Z.of_nat retryCount + 1) * 5000) (add_call w)).
Proof.
  intros Hc Hcreate Hstatus Hlt. unfold ClaudeVisionService.analyzeBatch.
  replace (3 - retryCount)%nat with (S (3 - (retryCount + 1))) by lia.
  simpl. unfold bind at 1. rewrite buildContent_scoring.
  destruct (thumbnails base64 (files w) batch []) as [|c cs]; try done.
  unfold try_catch, bind at 1, messages_create. rewrite Hcreate.
  destruct (decide (status error = Some 429)); try done.
  destruct (Nat.ltb_spec retryCount 3); [|lia]. done.
Qed.

(** analyzeBatch does not run out of fuel. *)
Lemma analyzeBatch_fuel_ends fuel batch retryCount :
  (3 <= retryCount + fuel)%nat -> ends (analyzeBatch_fuel fuel batch retryCount).
Proof.
  revert retryCount. induction fuel as [|fuel IH]; intros rc Hfuel; simpl.
  - apply ends_bind; [intros w; by rewrite buildContent_scoring|].
    intros [|c cs]; [apply ends_ret|].
    apply ends_try_catch.
    + apply ends_bind; [|intros r; apply saveResults_ends].
      intros w. unfold messages_create. by destruct (create _ _).
    + intros e. destruct (decide _); [|apply ends_throw].
      destruct (Nat.ltb_spec rc 3); [lia|apply ends_throw].
  - apply ends_bind; [intros w; by rewrite buildContent_scoring|].
    intros [|c cs]; [apply ends_ret|].
    apply ends_try_catch.
    + apply ends_bind; [|intros r; apply saveResults_ends].
      intros w. unfold messages_create. by destruct (create _ _).
    + intros e. destruct (decide _); [|apply ends_throw].
      destruct (Nat.ltb_spec rc 3); [|apply ends_throw].
      apply ends_bind; [apply ends_modify|]. intros _. apply IH. lia.
Qed.

Lemma analyzeBatch_ends batch retryCount : ends (analyzeBatch batch retryCount).
Proof. apply analyzeBatch_fuel_ends. lia. Qed.

End ScoringBatch.

Section GroupingBatch.
Variable create : nat -> list ContentBlock -> Outcome.
Variable JSON_parse : string -> option json.
Variable coerce : json -> Double.number.
Variable base64 : string -> string.

Local Abbreviation assignGroup := (SimilarityGroupingService.assignGroup coerce).
Local Abbreviation assignGroups := (SimilarityGroupingService.assignGroups coerce).
Local Abbreviation saveResults := (SimilarityGroupingService.saveResults JSON_parse coerce).
Local Abbreviation processBatch_fuel :=
  (SimilarityGroupingService.processBatch_fuel create JSON_parse coerce base64).
Local Abbreviation processBatch :=
  (SimilarityGroupingService.processBatch create JSON_parse coerce base64).
Local Abbreviation request w batch :=
  (thumbnails base64 (files w) batch []
     ++ [TextBlock SimilarityGroupingService.buildPrompt]).

Lemma photo_ids_of_throws group e :
  SimilarityGroupingService.photo_ids_of group = Throw e -> status e = None.
Proof.
  unfold SimilarityGroupingService.photo_ids_of.
  destruct (prop group "photo_ids") as [[[]|]| |] eqn:Hp; try done;
    repeat case_match; intros [= <-]; try done.
  by apply prop_throws in Hp.
Qed.

Lemma photo_ids_of_ends group :
  SimilarityGroupingService.photo_ids_of group <> OutOfFuel.
Proof.
  unfold SimilarityGroupingService.photo_ids_of.
  pose proof (prop_ends group "photo_ids").
  destruct (prop group "photo_ids") as [[[]|]| |]; try done; by repeat case_match.
Qed.

(** The photos that filter keeps are photos of the batch, in their order;
    when it throws, it throws a TypeError. *)
Lemma filter_includes_cases photoIds batch :
  (exists groupPhotos,
     SimilarityGroupingService.filter_includes photoIds batch = Ok groupPhotos
     /\ sublist groupPhotos batch)
  \/ SimilarityGroupingService.filter_includes photoIds batch = Throw TypeError.
Proof.
  assert (Hsub : forall f, sublist (List.filter f batch) batch).
  { intros f. induction batch as [|p batch IH]; simpl; [done|].
    destruct (f p); by constructor. }
  destruct photoIds; simpl; try (destruct batch; [left; by exists []|by right]);
    left; eexists; split; try reflexivity; apply Hsub.
Qed.

Lemma assignGroup_throws batch group :
  throws (fun e => status e = None) (assignGroup batch group).
Proof.
  unfold SimilarityGroupingService.assignGroup.
  apply throws_bind; [apply throws_lift; intros e; apply photo_ids_of_throws|].
  intros ids. destruct (SimilarityGroupingService.length_below_2 _ _); [apply throws_ret|].
  apply throws_bind.
  { apply throws_lift. intros e.
    destruct (filter_includes_cases ids batch) as [(gp & -> & _)| ->]; [done|].
    by intros [= <-]. }
  intros groupPhotos. destruct (_ <? 2)%nat; [apply throws_ret|].
  apply throws_bind; [apply throws_gets|]. intros g.
  apply throws_bind; [apply throws_modify|]. intros _.
  apply throws_bind; [apply throws_for_each; intros p; apply throws_modify|]. intros _.
  destruct ids; first [apply throws_ret|by apply throws_throw].
Qed.

Lemma assignGroup_ends batch group : ends (assignGroup batch group).
Proof.
  unfold SimilarityGroupingService.assignGroup.
  apply ends_bind; [apply ends_lift, photo_ids_of_ends|].
  intros ids. destruct (SimilarityGroupingService.length_below_2 _ _); [apply ends_ret|].
  apply ends_bind.
  { apply ends_lift.
    by destruct (filter_includes_cases ids batch) as [(gp & -> & _)| ->]. }
  intros groupPhotos. destruct (_ <? 2)%nat; [apply ends_ret|].
  apply ends_bind; [apply ends_gets|]. intros g.
  apply ends_bind; [apply ends_modify|]. intros _.
  apply ends_bind; [apply ends_for_each; intros p; apply ends_modify|]. intros _.
  destruct ids; first [apply ends_ret|by apply ends_throw].
Qed.

Lemma grouping_saveResults_throws batch response :
  throws (fun e => status e = None) (saveResults batch response).
Proof.
  destruct response as [|[text|] rest]; simpl.
  - by apply throws_throw.
  - apply throws_bind; [apply throws_lift; intros e; apply prop_throws|].
    intros groups. unfold SimilarityGroupingService.assignGroups.
    apply throws_bind; [apply throws_lift; intros e; apply iterate_throws|].
    intros gs. apply throws_for_each. intros g. apply assignGroup_throws.
  - apply throws_ret.
Qed.

Lemma grouping_saveResults_ends batch response : ends (saveResults batch response).
Proof.
  destruct response as [|[text|] rest]; simpl.
  - by apply ends_throw.
  - apply ends_bind; [apply ends_lift, prop_ends|].
    intros groups. unfold SimilarityGroupingService.assignGroups.
    apply ends_bind; [apply ends_lift, iterate_ends|].
    intros gs. apply ends_for_each. intros g. apply assignGroup_ends.
  - apply ends_ret.
Qed.

Lemma grouping_saveResults_preserves (R : relation World) `{!PreOrder R} batch response :
  (forall group, preserves R (assignGroup batch group)) ->
  preserves R (saveResults batch response).
Proof.
  intros Hg. destruct response as [|[text|] rest]; simpl.
  - papply @preserves_throw.
  - papply @preserves_bind; [papply @preserves_lift|]. intros groups.
    unfold SimilarityGroupingService.assignGroups.
    papply @preserves_bind; [papply @preserves_lift|]. intros gs.
    papply @preserves_for_each. intros g _. apply Hg.
  - papply @preserves_ret.
Qed.

Lemma assignGroup_preserves (R : relation World) `{!PreOrder R} batch group :
  (forall g w, R w (set_nextGroupId g w)) ->
  (forall g p, p ∈ batch ->
     preserves R (SimilarityGroupingService.update_group g (Photo.id p))) ->
  preserves R (assignGroup batch group).
Proof.
  intros Hnext Hupd. unfold SimilarityGroupingService.assignGroup.
  papply @preserves_bind; [papply @preserves_lift|].
  intros ids. destruct (SimilarityGroupingService.length_below_2 _ _);
    [papply @preserves_ret|].
  intros w. unfold bind at 1, lift.
  destruct (filter_includes_cases ids batch) as [(gp & -> & Hsub)| ->];
    [|reflexivity].
  revert w. change (preserves R
    (if (length gp <? 2)%nat then ret tt else
     let* groupId := gets nextGroupId in
     modify (set_nextGroupId (groupId + 1)) ;;
     for_each gp (fun photo =>
       SimilarityGroupingService.update_group groupId (Photo.id photo)) ;;
     match ids with JArr _ => ret tt | _ => throw TypeError end)).
  destruct (_ <? 2)%nat; [papply @preserves_ret|].
  papply @preserves_bind; [papply @preserves_gets|]. intros g.
  papply @preserves_bind; [papply @preserves_modify; apply Hnext|]. intros _.
  papply @preserves_bind.
  - papply @preserves_for_each. intros p Hp. apply Hupd.
    by apply (elem_of_submseteq gp batch p Hp), sublist_submseteq.
  - intros _. destruct ids; first [papply @preserves_ret|papply @preserves_throw].
Qed.

Lemma grouping_saveResults_same_calls batch response :
  preserves same_calls (saveResults batch response).
Proof.
  apply grouping_saveResults_preserves; [exact _|]. intros group.
  apply assignGroup_preserves; [exact _|done|].
  intros g p _. by papply @preserves_modify.
Qed.

(** *** One attempt of processBatch *)

Lemma processBatch_no_thumbnail fuel batch retryCount w :
  thumbnails base64 (files w) batch [] = [] ->
  processBatch_fuel fuel batch retryCount w = (w, Ok tt).
Proof.
  intros Hc. destruct fuel; simpl; unfold bind at 1;
    rewrite buildContent_grouping, Hc; done.
Qed.

Lemma processBatch_responds fuel batch retryCount w response :
  thumbnails base64 (files w) batch [] <> [] ->
  create (api_calls w) (request w batch) = Responds response ->
  processBatch_fuel fuel batch retryCount w = saveResults batch response (add_call w).
Proof.
  intros Hc Hcreate.
  pose proof (grouping_saveResults_throws batch response (add_call w)) as Hthrows.
  destruct fuel; simpl; unfold bind at 1; rewrite buildContent_grouping;
    destruct (thumbnails base64 (files w) batch []) as [|c cs]; try done;
    unfold try_catch, bind at 1, messages_create; rewrite Hcreate;
    destruct (saveResults batch response (add_call w)) as [w' [[]|e|]]; try done;
    specialize (Hthrows e eq_refl);
    destruct (decide (status e = Some 429)); first [congruence|done].
Qed.

Lemma processBatch_rejected fuel batch retryCount w error :
  thumbnails base64 (files w) batch [] <> [] ->
  create (api_calls w) (request w batch) = Rejects error ->
  status error <> Some 429 \/ (3 <= retryCount)%nat ->
  processBatch_fuel fuel batch retryCount w = (add_call w, Throw error).
Proof.
  intros Hc Hcreate Hwhy.
  destruct fuel; simpl; unfold bind at 1; rewrite buildContent_grouping;
    destruct (thumbnails base64 (files w) batch []) as [|c cs]; try done;
    unfold try_catch, bind at 1, messages_create; rewrite Hcreate;
    destruct (decide (status error = Some 429)); try done;
    destruct (Nat.ltb_spec retryCount 3); try done;
    destruct Hwhy; first [done|lia].
Qed.

Lemma processBatch_rate_limited batch retryCount w error :
  thumbnails base64 (files w) batch [] <> [] ->
  create (api_calls w) (request w batch) = Rejects error ->
  status error = Some 429 ->
  (retryCount < 3)%nat ->
  processBatch batch retryCount w
  = processBatch batch (retryCount + 1)
      (add_delay ((Z.of_nat retryCount + 1) * 5000) (add_call w)).
Proof.
  intros Hc Hcreate Hstatus Hlt. unfold SimilarityGroupingService.processBatch.
  replace (3 - retryCount)%nat with (S (3 - (retryCount + 1))) by lia.
  simpl. unfold bind at 1. rewrite buildContent_grouping.
  destruct (thumbnails base64 (files w) batch []) as [|c cs]; try done.
  unfold try_catch, bind at 1, messages_create. rewrite Hcreate.
  destruct (decide (status error = Some 429)); try done.
  destruct (Nat.ltb_spec retryCount 3); [|lia]. done.
Qed.

Lemma processBatch_fuel_ends fuel batch retryCount :
  (3 <= retryCount + fuel)%nat -> ends (processBatch_fuel fuel batch retryCount).
Proof.
  revert retryCount. induction fuel as [|fuel IH]; intros rc Hfuel; simpl.
  - apply ends_bind; [intros w; by rewrite buildContent_grouping|].
    intros [|c cs]; [apply ends_ret|].
    apply ends_try_catch.
    + apply ends_bind; [|intros r; apply grouping_saveResults_ends].
      intros w. unfold messages_create. by destruct (create _ _).
    + intros e. destruct (decide _); [|apply ends_throw].
      destruct (Nat.ltb_spec rc 3); [lia|apply ends_throw].
  - apply ends_bind; [intros w; by rewrite buildContent_grouping|].
    intros [|c cs]; [apply ends_ret|].
    apply ends_try_catch.
    + apply ends_bind; [|intros r; apply grouping_saveResults_ends].
      intros w. unfold messages_create. by destruct (create _ _).
    + intros e. destruct (decide _); [|apply ends_throw].
      destruct (Nat.ltb_spec rc 3); [|apply ends_throw].
      apply ends_bind; [apply ends_modify|]. intros _. apply IH. lia.
Qed.

Lemma processBatch_ends batch retryCount : ends (processBatch batch retryCount).
Proof. apply processBatch_fuel_ends. lia. Qed.

End GroupingBatch.

(** ** The retry governor *)

Lemma files_retried k w : files (retried k w) = files w.
Proof. induction k; simpl; [done|]. by rewrite <- IHk. Qed.

Lemma api_calls_retried k w : api_calls (retried k w) = (api_calls w + k)%nat.
Proof. induction k; simpl; [lia|]. rewrite IHk. lia. Qed.

Lemma delays_retried k w : delays (retried k w) = delays w ++ backoff k.
Proof.
  unfold backoff. induction k as [|k IH]; [simpl; by rewrite app_nil_r|].
  rewrite seq_S, fmap_app, app_assoc, <- IH. reflexivity.
Qed.

Lemma photos_retried k w : photos (retried k w) = photos w.
Proof. induction k; simpl; [done|]. by rewrite <- IHk. Qed.

Section RetryGovernor.
Variable create : nat -> list ContentBlock -> Outcome.
Variable JSON_parse : string -> option json.
Variable coerce : json -> Double.number.
Variable driver : option json -> option (option string).
Variable base64 : string -> string.
Variable project : Project.t.

Local Abbreviation analyzeBatch :=
  (ClaudeVisionService.analyzeBatch create JSON_parse coerce driver base64 project).
Local Abbreviation processBatch :=
  (SimilarityGroupingService.processBatch create JSON_parse coerce base64).

Lemma analyzeBatch_retried batch w k :
  thumbnails base64 (files w) batch [] <> [] ->
  (k <= 3)%nat ->
  (forall i, (i < k)%nat ->
     rate_limited (create (api_calls w + i) (scoring_request base64 project w batch))) ->
  analyzeBatch batch 0 w = analyzeBatch batch k (retried k w).
Proof.
  intros Hc. induction k as [|k IH]; intros Hk Hlim; [done|].
  rewrite IH by (try lia; intros i Hi; apply Hlim; lia).
  destruct (Hlim k) as (error & Hcreate & Hstatus); [lia|].
  rewrite (analyzeBatch_rate_limited create JSON_parse coerce driver base64 project batch k _ error);
    rewrite ?files_retried, ?api_calls_retried; try done; try lia.
  by rewrite Nat.add_1_r.
Qed.

Lemma processBatch_retried batch w k :
  thumbnails base64 (files w) batch [] <> [] ->
  (k <= 3)%nat ->
  (forall i, (i < k)%nat ->
     rate_limited (create (api_calls w + i) (grouping_request base64 w batch))) ->
  processBatch batch 0 w = processBatch batch k (retried k w).
Proof.
  intros Hc. induction k as [|k IH]; intros Hk Hlim; [done|].
  rewrite IH by (try lia; intros i Hi; apply Hlim; lia).
  destruct (Hlim k) as (error & Hcreate & Hstatus); [lia|].
  rewrite (processBatch_rate_limited create JSON_parse coerce base64 batch k _ error);
    rewrite ?files_retried, ?api_calls_retried; try done; try lia.
  by rewrite Nat.add_1_r.
Qed.

(** C7. A batch with a thumbnail to send, whose first [k] requests (k at
    most 3) are rate limited: the [k] delays awaited are 5 s, 10 s and
    15 s, in this order, and [k + 1] requests are made. When the next
    request is answered, the answer is saved and nothing more is
    awaited; when it is rejected for another reason than the rate
    limit, or when it is the fourth one, its error is thrown to the
    caller at once. The same holds for analyzeBatch and for
    processBatch. *)
Theorem retry_governor batch w k :
  thumbnails base64 (files w) batch [] <> [] ->
  (k <= 3)%nat ->
  (forall i, (i < k)%nat ->
     rate_limited (create (api_calls w + i) (scoring_request base64 project w batch))
     /\ rate_limited (create (api_calls w + i) (grouping_request base64 w batch))) ->
  delays (retried k w) = delays w ++ backoff k
  /\ api_calls (retried k w) = (api_calls w + k)%nat
  /\ (forall response,
        create (api_calls w + k) (scoring_request base64 project w batch)
          = Responds response ->
        analyzeBatch batch 0 w
          = ClaudeVisionService.saveResults JSON_parse coerce driver batch response
              (add_call (retried k w))
        /\ delays (analyzeBatch batch 0 w).1 = delays w ++ backoff k
        /\ api_calls (analyzeBatch batch 0 w).1 = (api_calls w + k + 1)%nat)
  /\ (forall error,
        create (api_calls w + k) (scoring_request base64 project w batch)
          = Rejects error ->
        status error <> Some 429 \/ k = 3%nat ->
        analyzeBatch batch 0 w = (add_call (retried k w), Throw error))
  /\ (forall response,
        create (api_calls w + k) (grouping_request base64 w batch)
          = Responds response ->
        processBatch batch 0 w
          = SimilarityGroupingService.saveResults JSON_parse coerce batch response
              (add_call (retried k w))
        /\ delays (processBatch batch 0 w).1 = delays w ++ backoff k
        /\ api_calls (processBatch batch 0 w).1 = (api_calls w + k + 1)%nat)
  /\ (forall error,
        create (api_calls w + k) (grouping_request base64 w batch)
          = Rejects error ->
        status error <> Some 429 \/ k = 3%nat ->
        processBatch batch 0 w = (add_call (retried k w), Throw error)).
Proof.
  intros Hc Hk Hlim.
  assert (Hc' : thumbnails base64 (files (retried k w)) batch [] <> [])
    by by rewrite files_retried.
  split_and!.
  - apply delays_retried.
  - apply api_calls_retried.
  - intros response Hcreate.
    assert (Heq : analyzeBatch batch 0 w
              = ClaudeVisionService.saveResults JSON_parse coerce driver batch response
                  (add_call (retried k w))).
    { rewrite (analyzeBatch_retried batch w k) by (try done; intros i Hi; by apply Hlim).
      apply analyzeBatch_responds; [done|].
      by rewrite files_retried, api_calls_retried. }
    destruct (saveResults_same_calls JSON_parse coerce driver batch response (add_call (retried k w)))
      as (Hcalls & Hdelays & _).
    rewrite Heq. split_and!; [done| |].
    + rewrite Hdelays. apply delays_retried.
    + rewrite Hcalls. simpl. rewrite api_calls_retried. lia.
  - intros error Hcreate Hwhy.
    rewrite (analyzeBatch_retried batch w k) by (try done; intros i Hi; by apply Hlim).
    apply analyzeBatch_rejected; [done| |].
    + by rewrite files_retried, api_calls_retried.
    + destruct Hwhy; [by left|right; lia].
  - intros response Hcreate.
    assert (Heq : processBatch batch 0 w
              = SimilarityGroupingService.saveResults JSON_parse coerce batch response
                  (add_call (retried k w))).
    { rewrite (processBatch_retried batch w k) by (try done; intros i Hi; by apply Hlim).
      apply processBatch_responds; [done|].
      by rewrite files_retried, api_calls_retried. }
    destruct (grouping_saveResults_same_calls JSON_parse coerce batch response
                (add_call (retried k w))) as (Hcalls & Hdelays & _).
    rewrite Heq. split_and!; [done| |].
    + rewrite Hdelays. apply delays_retried.
    + rewrite Hcalls. simpl. rewrite api_calls_retried. lia.
  - intros error Hcreate Hwhy.
    rewrite (processBatch_retried batch w k) by (try done; intros i Hi; by apply Hlim).
    apply processBatch_rejected; [done| |].
    + by rewrite files_retried, api_calls_retried.
    + destruct Hwhy; [by left|right; lia].
Qed.

End RetryGovernor.

Lemma retry_governor_witness :
  thumbnails Stub.base64 (files Stub.world) Stub.batch [] <> []
  /\ (2 <= 3)%nat
  /\ delays (ClaudeVisionService.analyzeBatch
               (Stub.script [Stub.rate_limit; Stub.rate_limit;
                             Stub.answers "{'evaluations': []}"])
               Json.json_parse Stub.coerce Stub.driver Stub.base64 Stub.project Stub.batch 0 Stub.world).1
     = [5000; 10000].
Proof.
  assert (H1 : thumbnails Stub.base64 (files Stub.world) Stub.batch [] <> [])
    by (vm_compute; discriminate).
  assert (H2 : (2 <= 3)%nat) by lia.
  split; [exact H1|]. split; [exact H2|].
  refine (proj1 (proj2 (proj1 (proj2 (proj2
    (retry_governor
       (Stub.script [Stub.rate_limit; Stub.rate_limit; Stub.answers "{'evaluations': []}"])
       Json.json_parse Stub.coerce Stub.driver Stub.base64 Stub.project Stub.batch Stub.world 2 H1 H2 _)))
    [RText (Json.dq "{'evaluations': []}")] _))).
  - intros i Hi. destruct i as [|[|i]]; [| |lia];
      (split; exists (ApiError (Some 429)); split; reflexivity).
  - reflexivity.
Defined.

Example retry_always_rate_limited :
  let run := SimilarityGroupingService.processBatch
               (Stub.script [Stub.rate_limit; Stub.rate_limit; Stub.rate_limit;
                             Stub.rate_limit; Stub.answers "{'groups': []}"])
               Json.json_parse Stub.coerce Stub.base64 Stub.batch 0 Stub.world in
  run.2 = Throw (ApiError (Some 429))
  /\ delays run.1 = [5000; 10000; 15000]
  /\ api_calls run.1 = 4%nat.
Proof. vm_compute. repeat split. Qed.

Example retry_other_error :
  let run := ClaudeVisionService.analyzeBatch
               (Stub.script [Rejects (ApiError (Some 401)); Stub.answers "{'evaluations': []}"])
               Json.json_parse Stub.coerce Stub.driver Stub.base64 Stub.project Stub.batch 0 Stub.world in
  run.2 = Throw (ApiError (Some 401))
  /\ delays run.1 = []
  /\ api_calls run.1 = 1%nat.
Proof. vm_compute. repeat split. Qed.

(** ** A scoring run *)

Section ScoringRun.
Variable create : nat -> list ContentBlock -> Outcome.
Variable JSON_parse : string -> option json.
Variable coerce : json -> Double.number.
Variable driver : option json -> option (option string).
Variable base64 : string -> string.
Variable project : Project.t.

Local Abbreviation saveEvaluation := (ClaudeVisionService.saveEvaluation coerce driver).
Local Abbreviation saveResults := (ClaudeVisionService.saveResults JSON_parse coerce driver).
Local Abbreviation analyzeBatch_fuel :=
  (ClaudeVisionService.analyzeBatch_fuel create JSON_parse coerce driver base64 project).
Local Abbreviation analyzeBatch :=
  (ClaudeVisionService.analyzeBatch create JSON_parse coerce driver base64 project).
Local Abbreviation analyzePhotos :=
  (ClaudeVisionService.analyzePhotos create JSON_parse coerce driver base64 project).

Section Invariant.
Context (R : relation World) `{!PreOrder R}.
Hypothesis R_call : forall w, R w (add_call w).
Hypothesis R_delay : forall d w, R w (add_delay d w).
Hypothesis R_sent : forall e w, R w (add_sent e w).

(** A relation kept by the requests, the delays and the saving of the
    service's answers is kept by analyzeBatch. *)
Lemma analyzeBatch_preserves batch fuel retryCount :
  (forall n content response,
     create n content = Responds response ->
     preserves R (saveResults batch response)) ->
  preserves R (analyzeBatch_fuel fuel batch retryCount).
Proof.
  intros Hsave. revert retryCount.
  assert (Hbody : forall content,
    preserves R (let* response := messages_create create content in
                 saveResults batch response)).
  { intros content w. unfold bind, messages_create.
    destruct (create (api_calls w) content) as [response|error] eqn:Hcreate; simpl;
      [|apply R_call].
    etrans; [apply R_call|]. by apply (Hsave _ _ _ Hcreate). }
  induction fuel as [|fuel IH]; intros rc; simpl.
  - papply @preserves_bind.
    { intros w. rewrite buildContent_scoring. simpl. reflexivity. }
    intros [|c cs]; [papply @preserves_ret|].
    papply @preserves_try_catch; [apply Hbody|]. intros e.
    destruct (decide _); [|papply @preserves_throw].
    destruct (rc <? 3)%nat; [papply @preserves_out_of_fuel|papply @preserves_throw].
  - papply @preserves_bind.
    { intros w. rewrite buildContent_scoring. simpl. reflexivity. }
    intros [|c cs]; [papply @preserves_ret|].
    papply @preserves_try_catch; [apply Hbody|]. intros e.
    destruct (decide _); [|papply @preserves_throw].
    destruct (rc <? 3)%nat; [|papply @preserves_throw].
    papply @preserves_bind; [papply @preserves_modify; apply R_delay|]. intros _. apply IH.
Qed.

Lemma analyzePhotos_preserves :
  (forall batch n content response,
     create n content = Responds response ->
     preserves R (saveResults batch response)) ->
  preserves R analyzePhotos.
Proof.
  intros Hsave. unfold ClaudeVisionService.analyzePhotos.
  papply @preserves_bind; [papply @preserves_gets|]. intros photos.
  destruct (decide _); [papply @preserves_ret|].
  destruct (Js.batches _ photos) as [bs|]; [|papply @preserves_out_of_fuel].
  papply @preserves_bind.
  - papply @preserves_fold_each. intros processed [i batch] _.
    unfold ClaudeVisionService.analyzeStep.
    papply @preserves_bind; [papply @preserves_modify; apply R_sent|]. intros _.
    papply @preserves_try_catch.
    + papply @preserves_bind; [|intros; papply @preserves_ret].
      apply analyzeBatch_preserves. apply Hsave.
    + intros e. papply @preserves_bind; [papply @preserves_modify; apply R_sent|].
      intros _. papply @preserves_ret.
  - intros processed.
    papply @preserves_bind; [papply @preserves_modify; apply R_sent|]. intros _. papply @preserves_ret.
Qed.
End Invariant.

(** A scoring run ends. *)
Lemma analyzePhotos_ends : ends analyzePhotos.
Proof.
  unfold ClaudeVisionService.analyzePhotos.
  apply ends_bind; [apply ends_gets|]. intros photos.
  destruct (decide _); [apply ends_ret|].
  destruct (batches_some ClaudeVisionService.BATCH_SIZE photos) as (bs & -> & _).
  { unfold ClaudeVisionService.BATCH_SIZE. lia. }
  apply ends_bind.
  - apply ends_fold_each. intros processed [i batch].
    unfold ClaudeVisionService.analyzeStep.
    apply ends_bind; [apply ends_modify|]. intros _.
    apply ends_try_catch.
    + apply ends_bind; [apply analyzeBatch_ends|]. intros; apply ends_ret.
    + intros e. apply ends_bind; [apply ends_modify|]. intros; apply ends_ret.
  - intros processed. apply ends_bind; [apply ends_modify|]. intros; apply ends_ret.
Qed.

End ScoringRun.

(** ** A grouping run *)

Section GroupingRun.
Variable create : nat -> list ContentBlock -> Outcome.
Variable JSON_parse : string -> option json.
Variable coerce : json -> Double.number.
Variable base64 : string -> string.
Variable project : Project.t.

Local Abbreviation saveResults := (SimilarityGroupingService.saveResults JSON_parse coerce).
Local Abbreviation processBatch_fuel :=
  (SimilarityGroupingService.processBatch_fuel create JSON_parse coerce base64).
Local Abbreviation groupPhotos :=
  (SimilarityGroupingService.groupPhotos create JSON_parse coerce base64 project).
Local Abbreviation group_similar :=
  (SimilarityGroupingService.group_similar create JSON_parse coerce base64 project).

Context (R : relation World) `{!PreOrder R}.
Hypothesis R_call : forall w, R w (add_call w).
Hypothesis R_delay : forall d w, R w (add_delay d w).
Hypothesis R_next : forall g w, R w (set_nextGroupId g w).
Hypothesis R_clear : forall project_id,
  preserves R (SimilarityGroupingService.clear_groups project_id).
Hypothesis R_update : forall g photo_id,
  preserves R (SimilarityGroupingService.update_group g photo_id).

Lemma processBatch_preserves batch fuel retryCount :
  preserves R (processBatch_fuel fuel batch retryCount).
Proof.
  revert retryCount.
  assert (Hbody : forall content,
    preserves R (let* response := messages_create create content in
                 saveResults batch response)).
  { intros content. papply @preserves_bind.
    - intros w. unfold messages_create. destruct (create _ _); apply R_call.
    - intros response. apply grouping_saveResults_preserves; [exact _|].
      intros group. apply assignGroup_preserves; [exact _|apply R_next|].
      intros g p _. apply R_update. }
  induction fuel as [|fuel IH]; intros rc; simpl.
  - papply @preserves_bind.
    { intros w. rewrite buildContent_grouping. simpl. reflexivity. }
    intros [|c cs]; [papply @preserves_ret|].
    papply @preserves_try_catch; [apply Hbody|]. intros e.
    destruct (decide _); [|papply @preserves_throw].
    destruct (rc <? 3)%nat; [papply @preserves_out_of_fuel|papply @preserves_throw].
  - papply @preserves_bind.
    { intros w. rewrite buildContent_grouping. simpl. reflexivity. }
    intros [|c cs]; [papply @preserves_ret|].
    papply @preserves_try_catch; [apply Hbody|]. intros e.
    destruct (decide _); [|papply @preserves_throw].
    destruct (rc <? 3)%nat; [|papply @preserves_throw].
    papply @preserves_bind; [papply @preserves_modify; apply R_delay|].
    intros _. apply IH.
Qed.

Lemma group_similar_preserves : preserves R group_similar.
Proof.
  unfold SimilarityGroupingService.group_similar, SimilarityGroupingService.construct.
  papply @preserves_bind; [papply @preserves_modify; apply R_next|]. intros _.
  unfold SimilarityGroupingService.groupPhotos.
  papply @preserves_bind; [apply R_clear|]. intros _.
  papply @preserves_bind; [papply @preserves_gets|]. intros photos.
  destruct (_ <? 2)%nat; [papply @preserves_ret|].
  destruct (Js.batches _ photos) as [bs|]; [|papply @preserves_out_of_fuel].
  papply @preserves_bind; [|intros _; papply @preserves_gets].
  papply @preserves_for_each. intros [i batch] _.
  destruct (_ <? 2)%nat; [papply @preserves_ret|].
  papply @preserves_try_catch; [apply processBatch_preserves|].
  intros e. papply @preserves_ret.
Qed.

End GroupingRun.

(** A grouping run ends. *)
Lemma group_similar_ends create JSON_parse coerce base64 project :
  ends (SimilarityGroupingService.group_similar create JSON_parse coerce base64 project).
Proof.
  unfold SimilarityGroupingService.group_similar, SimilarityGroupingService.construct.
  apply ends_bind; [apply ends_modify|]. intros _.
  unfold SimilarityGroupingService.groupPhotos.
  apply ends_bind; [apply ends_modify|]. intros _.
  apply ends_bind; [apply ends_gets|]. intros photos.
  destruct (_ <? 2)%nat; [apply ends_ret|].
  destruct (batches_some SimilarityGroupingService.BATCH_SIZE photos) as (bs & -> & _).
  { unfold SimilarityGroupingService.BATCH_SIZE. lia. }
  apply ends_bind; [|intros _; apply ends_gets].
  apply ends_for_each. intros [i batch].
  destruct (_ <? 2)%nat; [apply ends_ret|].
  apply ends_try_catch; [apply processBatch_ends|]. intros e. apply ends_ret.
Qed.

(** ** Relations between the rows before and after a run *)

#[local] Instance same_but_score_preorder : PreOrder same_but_score.
Proof.
  split.
  - intros p. unfold same_but_score. tauto.
  - intros p1 p2 p3. unfold same_but_score. intros H1 H2.
    destruct_and!. split_and!; congruence.
Qed.

#[local] Instance same_but_group_preorder : PreOrder same_but_group.
Proof.
  split.
  - intros p. unfold same_but_group. tauto.
  - intros p1 p2 p3. unfold same_but_group. intros H1 H2.
    destruct_and!. split_and!; congruence.
Qed.

#[local] Instance same_unless_in_preorder ids : PreOrder (same_unless_in ids).
Proof.
  split.
  - intros p. by split.
  - intros p1 p2 p3 [Hid1 H1] [Hid2 H2]. split; [congruence|].
    intros Hnot. rewrite <- (H1 Hnot). apply H2. by rewrite (H1 Hnot).
Qed.

#[local] Instance rows_preorder Rp `{!PreOrder Rp} : PreOrder (rows Rp).
Proof.
  split.
  - intros w. unfold rows. reflexivity.
  - intros w1 w2 w3. unfold rows. intros H1 H2. by etrans.
Qed.

Lemma rows_set_photos Rp (f : Photo.t -> Photo.t) w :
  (forall p, Rp p (f p)) -> rows Rp w (set_photos (fmap f) w).
Proof.
  intros Hf. unfold rows. simpl. induction (photos w); constructor; done.
Qed.

Lemma rows_same Rp `{!PreOrder Rp} w w' : photos w' = photos w -> rows Rp w w'.
Proof.
  intros Heq. unfold rows. rewrite Heq. reflexivity.
Qed.

(** C10. A scoring run keeps the rows of the table of photos and, in each
    row, every field but score, ai_comment and updated_at: the selected flag
    and similarity_group_id are left as they were. A grouping run keeps the
    rows and, in each row, every field but similarity_group_id: score,
    ai_comment and the selected flag are left as they were. This holds for
    every behaviour of the vision service and of JSON.parse. *)
Theorem runs_change_their_fields_only
    (create : nat -> list ContentBlock -> Outcome)
    (JSON_parse : string -> option json)
    (coerce : json -> Double.number)
    (driver : option json -> option (option string))
    (base64 : string -> string)
    (project : Project.t) (w : World) :
  Forall2 same_but_score (photos w)
    (photos (ClaudeVisionService.analyzePhotos create JSON_parse coerce driver base64 project w).1)
  /\ Forall2 same_but_group (photos w)
       (photos (SimilarityGroupingService.group_similar
                  create JSON_parse coerce base64 project w).1).
Proof.
  split.
  - apply (analyzePhotos_preserves create JSON_parse coerce driver base64 project (rows same_but_score));
      try exact _; try (intros; apply rows_same; [exact _|reflexivity]).
    intros batch n content response _.
    apply saveResults_preserves; [exact _|]. intros evaluation _.
    apply saveEvaluation_preserves; [exact _|]. intros p ms c _ _ _ _.
    intros w'. apply rows_set_photos. intros q.
    destruct (decide _); [|reflexivity]. unfold same_but_score. simpl. tauto.
  - apply (group_similar_preserves create JSON_parse coerce base64 project (rows same_but_group));
      try exact _; try (intros; apply rows_same; [exact _|reflexivity]).
    + intros project_id w'. apply rows_set_photos. intros q.
      destruct (decide _); [|reflexivity]. unfold same_but_group. simpl. tauto.
    + intros g photo_id w'. apply rows_set_photos. intros q.
      destruct (decide _); [|reflexivity]. unfold same_but_group. simpl. tauto.
Qed.

(** ** The scoring reconciler *)

(** C9. An evaluation whose photo_id is the id of no photo of the batch
    writes nothing: the world is the same after it. And whatever the service
    answers, analyzeBatch leaves every row whose id is not the id of a photo
    of the batch as it is. *)
Theorem scoring_ignores_other_photos
    (create : nat -> list ContentBlock -> Outcome)
    (JSON_parse : string -> option json)
    (coerce : json -> Double.number)
    (driver : option json -> option (option string))
    (base64 : string -> string)
    (project : Project.t) (batch : list Photo.t) (evaluation : json)
    (retryCount : nat) (w : World) :
  (forall p v, p ∈ batch -> prop evaluation "photo_id" = Ok v ->
               id_eq (Photo.id p) v = false) ->
  (ClaudeVisionService.saveEvaluation coerce driver batch evaluation w).1 = w
  /\ Forall2 (same_unless_in (Photo.id <$> batch)) (photos w)
       (photos (ClaudeVisionService.analyzeBatch
                  create JSON_parse coerce driver base64 project batch retryCount w).1).
Proof.
  intros Hother. split.
  - unfold ClaudeVisionService.saveEvaluation, bind, lift.
    destruct (find_photo_cases batch evaluation) as [(p&ms&->&Hp&Hin&Hid)|[Hp|Hp]];
      rewrite Hp; try done.
    by rewrite (Hother p _ Hin eq_refl) in Hid.
  - apply (analyzeBatch_preserves create JSON_parse coerce driver base64 project
             (rows (same_unless_in (Photo.id <$> batch))));
      try exact _; try (intros; apply rows_same; [exact _|reflexivity]).
    intros n content response _.
    apply saveResults_preserves; [exact _|]. intros ev _.
    apply saveEvaluation_preserves; [exact _|]. intros p ms c Hin _ _ _.
    intros w'. apply rows_set_photos. intros q.
    destruct (decide (Photo.id q = Photo.id p)) as [Heq|]; [|reflexivity].
    split; [done|]. intros Hnot. exfalso. apply Hnot. rewrite Heq.
    apply list_elem_of_fmap. by exists p.
Qed.

Lemma scoring_ignores_other_photos_witness :
  (forall p v, p ∈ Stub.batch ->
     prop (JObj [("photo_id", JNum 9); ("score", JNum 5); ("comment", JStr "no")])
          "photo_id" = Ok v ->
     id_eq (Photo.id p) v = false)
  /\ (ClaudeVisionService.saveEvaluation Stub.coerce Stub.driver Stub.batch
        (JObj [("photo_id", JNum 9); ("score", JNum 5); ("comment", JStr "no")])
        Stub.world).1 = Stub.world.
Proof.
  assert (H : forall p v, p ∈ Stub.batch ->
     prop (JObj [("photo_id", JNum 9); ("score", JNum 5); ("comment", JStr "no")])
          "photo_id" = Ok v ->
     id_eq (Photo.id p) v = false).
  { intros p v Hp [= <-]. unfold Stub.batch in Hp.
    repeat (apply elem_of_cons in Hp as [->|Hp]; [reflexivity|]).
    by apply elem_of_nil in Hp. }
  split; [exact H|].
  exact (proj1 (scoring_ignores_other_photos
                  (Stub.script []) Json.json_parse Stub.coerce Stub.driver Stub.base64 Stub.project
                  Stub.batch _ 0%nat Stub.world H)).
Defined.

(** ** The score that is written *)

Section Rounding.
Import Double.

Lemma fl_0 : fl 0 = Finite 0.
Proof. vm_compute. reflexivity. Qed.

Lemma fl_10 : fl 10 = Finite 10.
Proof. vm_compute. reflexivity. Qed.

Lemma fl_100 : fl 100 = Finite 100.
Proof. vm_compute. reflexivity. Qed.

Lemma of_Z_10 : of_Z 10 = Num (Finite 10).
Proof. vm_compute. reflexivity. Qed.

Lemma tenth_in_range (k : Z) : 0 <= k <= 100 -> in_0_10 (tenth k).
Proof.
  intros [Hlo Hhi]. apply (fl_within 0 10); [apply fl_0|apply fl_10|].
  rewrite Zle_Qle in Hlo, Hhi. change (inject_Z 0) with 0%Q in Hlo.
  change (inject_Z 100) with 100%Q in Hhi. split.
  - apply Qle_shift_div_l; [done|]. lra.
  - apply Qle_shift_div_r; [done|]. lra.
Qed.

(** The rounded score of a number of [0, 10] is the double of a number of
    tenths of [0, 10]. *)
Lemma roundedScore_in_range coerce (s : Q) :
  (0 <= s <= 10)%Q ->
  exists k, 0 <= k <= 100
    /\ ClaudeVisionService.roundedScore coerce (Some (JNum s)) = Num (tenth k).
Proof.
  intros Hs. unfold ClaudeVisionService.roundedScore, ToNumber.
  destruct (fl_within 0 10 s fl_0 fl_10 Hs) as (a & -> & Ha).
  rewrite of_Z_10. simpl mul.
  destruct (fl_within 0 100 (a * 10) fl_0 fl_100) as (b & -> & Hb); [lra|].
  simpl. exists (Qfloor (b + (1 # 2))). split; [|reflexivity].
  split.
  - change 0 with (Qfloor 0). apply Qfloor_resp_le. lra.
  - change 100 with (Qfloor (100 + (1 # 2))). apply Qfloor_resp_le. lra.
Qed.

(** A number of tenths of [0, 10] is its own rounded score. *)
Lemma roundedScore_tenths coerce (k : Z) :
  0 <= k <= 100 ->
  ClaudeVisionService.roundedScore coerce (Some (JNum (inject_Z k / 10))) = Num (tenth k).
Proof.
  intros Hk.
  assert (Hall : Forall (fun k =>
    ClaudeVisionService.roundedScore (fun _ => NaN) (Some (JNum (inject_Z k / 10)))
    = Num (tenth k)) (seqZ 0 101)).
  { repeat (constructor; [vm_compute; reflexivity|]). constructor. }
  rewrite Forall_forall in Hall. apply (Hall k). apply elem_of_seqZ. lia.
Qed.

End Rounding.

#[local] Instance keeps_range_preorder : PreOrder keeps_range.
Proof.
  split.
  - intros w H. exact H.
  - intros w1 w2 w3 H12 H23 H. apply H23, H12, H.
Qed.

Lemma update_score_keeps_range (s : option Double.real) (c : option string) (photo_id : Z) :
  (forall x, s = Some x -> in_0_10 x) ->
  preserves keeps_range (ClaudeVisionService.update_score s c photo_id).
Proof.
  intros Hs w Hw p' s' Hin Hscore. simpl in Hin.
  apply list_elem_of_fmap in Hin as (p & -> & Hp).
  destruct (decide (Photo.id p = photo_id)).
  - simpl in Hscore. by apply Hs.
  - by apply (Hw p).
Qed.

(** C1 (amended). For an evaluation that names a photo of the batch, what
    is written in the row of that photo is Math.round(score * 10) / 10,
    computed on doubles after the score is converted to a number (NULL
    when the result is NaN), with the comment as the driver binds it and
    the time of the write; when the driver refuses the comment, nothing is
    written and the exception leaves the batch. The code does not clamp
    the score. The rounded score of a number of [0, 10] is the double
    nearest to k / 10 for an integer k of [0, 100], which is a number of
    [0, 10]; and a score that is such a k / 10 is written as it is. When
    every evaluation that the service answers has a number of [0, 10] as
    its score, a scoring run keeps every score of the table null or in
    [0, 10]. *)
Theorem scores_written_are_rounded
    (create : nat -> list ContentBlock -> Outcome)
    (JSON_parse : string -> option json)
    (coerce : json -> Double.number)
    (driver : option json -> option (option string))
    (base64 : string -> string) (project : Project.t) :
  (forall batch p ms w,
     ClaudeVisionService.find_photo batch (JObj ms) = Ok (Some p) ->
     ClaudeVisionService.saveEvaluation coerce driver batch (JObj ms) w
     = match ClaudeVisionService.boundComment driver (Json.assoc_last "comment" ms) with
       | Some comment =>
           (set_photos (fmap (fun q =>
              if decide (Photo.id q = Photo.id p)
              then Photo.set_score
                     (stored (ClaudeVisionService.roundedScore coerce
                                (Json.assoc_last "score" ms)))
                     comment (clock w) q
              else q)) w, Ok tt)
       | None => (w, Throw DriverError)
       end)
  /\ (forall s, (0 <= s <= 10)%Q ->
        exists k, 0 <= k <= 100
          /\ ClaudeVisionService.roundedScore coerce (Some (JNum s))
             = Double.Num (tenth k)
          /\ in_0_10 (tenth k))
  /\ (forall k, 0 <= k <= 100 ->
        ClaudeVisionService.roundedScore coerce (Some (JNum (inject_Z k / 10)))
        = Double.Num (tenth k))
  /\ (forall w,
        answers_in_range create JSON_parse ->
        in_range (photos w) ->
        in_range (photos (ClaudeVisionService.analyzePhotos
                            create JSON_parse coerce driver base64 project w).1)).
Proof.
  split_and!.
  - intros batch p ms w Hfind.
    unfold ClaudeVisionService.saveEvaluation, bind, lift. rewrite Hfind. simpl.
    by destruct (ClaudeVisionService.boundComment _ _).
  - intros s Hs. destruct (roundedScore_in_range coerce s Hs) as (k & Hk & Heq).
    exists k. split_and!; [lia|lia|done|by apply tenth_in_range].
  - apply roundedScore_tenths.
  - intros w Hcontract. 
    apply (analyzePhotos_preserves create JSON_parse coerce driver base64 project keeps_range);
      try exact _; try (intros; intros H; exact H).
    intros batch' n content response Hcreate.
    apply saveResults_preserves; [exact _|]. intros ev Hev.
    apply saveEvaluation_preserves; [exact _|]. intros q ms c _ -> _ _.
    apply update_score_keeps_range.
    destruct (Hcontract n content response _ Hcreate Hev)
      as (ms0 & s0 & [= <-] & -> & Hrange).
    destruct (roundedScore_in_range coerce s0 Hrange) as (k & Hk & ->).
    simpl. intros x [= <-]. by apply tenth_in_range.
Qed.

Lemma scores_written_are_rounded_witness :
  answers_in_range
    (Stub.script [Stub.answers "{'evaluations': [{'photo_id': 2, 'score': 7.25, 'comment': 'ok'}]}"])
    Json.json_parse
  /\ in_range (photos Stub.world)
  /\ Photo.score <$> photos (ClaudeVisionService.saveEvaluation Stub.coerce Stub.driver
         Stub.batch
         (JObj [("photo_id", JNum 2); ("score", JNum (29 # 4)); ("comment", JStr "ok")])
         Stub.world).1
     = [None; Some (tenth 73); None]
  /\ in_range (photos (ClaudeVisionService.analyzePhotos
       (Stub.script [Stub.answers "{'evaluations': [{'photo_id': 2, 'score': 7.25, 'comment': 'ok'}]}"])
       Json.json_parse Stub.coerce Stub.driver Stub.base64 Stub.project Stub.world).1).
Proof.
  assert (H1 : answers_in_range
    (Stub.script [Stub.answers "{'evaluations': [{'photo_id': 2, 'score': 7.25, 'comment': 'ok'}]}"])
    Json.json_parse).
  { intros n content response evaluation Hcreate Hin.
    destruct n as [|n]; [|destruct n; discriminate].
    injection Hcreate as <-. vm_compute in Hin.
    apply elem_of_cons in Hin as [->|Hin]; [|by apply elem_of_nil in Hin].
    eexists _, (29 # 4)%Q. split_and!; try reflexivity; discriminate. }
  assert (H2 : in_range (photos Stub.world)).
  { intros p s Hp Hs. simpl in Hp. unfold Stub.batch in Hp.
    repeat (apply elem_of_cons in Hp as [->|Hp]; [discriminate|]).
    by apply elem_of_nil in Hp. }
  pose proof (scores_written_are_rounded
                (Stub.script [Stub.answers "{'evaluations': [{'photo_id': 2, 'score': 7.25, 'comment': 'ok'}]}"])
                Json.json_parse Stub.coerce Stub.driver Stub.base64 Stub.project)
    as (Hwrite & _ & _ & Hrun).
  split; [exact H1|]. split; [exact H2|]. split.
  - rewrite (Hwrite Stub.batch (Stub.photo 2 "t2")
               [("photo_id", JNum 2); ("score", JNum (29 # 4)); ("comment", JStr "ok")]
               Stub.world eq_refl).
    vm_compute. reflexivity.
  - exact (Hrun Stub.world H1 H2).
Defined.

(** C1, as stated, fails on a score outside [0, 10]: the service answers 15
    for photo 1, and 15 is written; it answers 1e308 for photo 2, and
    Infinity is written, the product by 10 being above every double. *)
Lemma score_out_of_range_is_written :
  Photo.score <$> photos (ClaudeVisionService.analyzePhotos
      (Stub.script [Stub.answers "{'evaluations': [{'photo_id': 1, 'score': 15, 'comment': 'wow'}, {'photo_id': 2, 'score': 1e308, 'comment': 'wow'}]}"])
      Json.json_parse Stub.coerce Stub.driver Stub.base64 Stub.project Stub.world).1
  = [Some (Double.Finite 15); Some Double.Infinity; None]
  /\ ~ in_0_10 (Double.Finite 15)
  /\ ~ in_0_10 Double.Infinity.
Proof.
  split; [vm_compute; reflexivity|]. split.
  - intros (v & [= <-] & _ & H). by vm_compute in H.
  - by intros (v & [=] & _).
Qed.

(** The score and the comment are read whatever they are: a score that is
    a string is converted, a score that is missing is stored as NULL, and
    the comment null is stored as NULL. *)
Example scores_of_other_types :
  (Photo.score <$> photos (ClaudeVisionService.analyzePhotos
      (Stub.script [Stub.answers "{'evaluations': [{'photo_id': 1, 'score': '8.55', 'comment': 'a'}, {'photo_id': 2, 'comment': null}, {'photo_id': 3, 'score': true, 'comment': 'c'}]}"])
      Json.json_parse Stub.coerce Stub.driver Stub.base64 Stub.project Stub.world).1
   = [Some (tenth 86); None; Some (tenth 10)])
  /\ (Photo.ai_comment <$> photos (ClaudeVisionService.analyzePhotos
      (Stub.script [Stub.answers "{'evaluations': [{'photo_id': 1, 'score': '8.55', 'comment': 'a'}, {'photo_id': 2, 'comment': null}, {'photo_id': 3, 'score': true, 'comment': 'c'}]}"])
      Json.json_parse Stub.coerce Stub.driver Stub.base64 Stub.project Stub.world).1
   = [Some "a"; None; Some "c"]).
Proof. split; vm_compute; reflexivity. Qed.

(** ** The count that a scoring run returns *)

Section ScoringCount.
Variable create : nat -> list ContentBlock -> Outcome.
Variable JSON_parse : string -> option json.
Variable coerce : json -> Double.number.
Variable driver : option json -> option (option string).
Variable base64 : string -> string.
Variable project : Project.t.

Local Abbreviation analyzeBatch :=
  (ClaudeVisionService.analyzeBatch create JSON_parse coerce driver base64 project).
Local Abbreviation analyzePhotos :=
  (ClaudeVisionService.analyzePhotos create JSON_parse coerce driver base64 project).

Local Abbreviation completes := (completes create JSON_parse coerce driver base64 project).
Local Abbreviation always_saved := (always_saved create JSON_parse coerce driver).

Local Abbreviation analyzeStep :=
  (ClaudeVisionService.analyzeStep create JSON_parse coerce driver base64 project).

Lemma analyzeStep_returns total processed i batch w w' :
  analyzeBatch batch 0
    (add_sent (AnalyzeProgress processed total
                 (AnalyzingBatch (i / ClaudeVisionService.BATCH_SIZE + 1))) w)
    = (w', Ok tt) ->
  analyzeStep total processed (i, batch) w = (w', Ok (processed + length batch)%nat).
Proof.
  intros Hrun. unfold ClaudeVisionService.analyzeStep.
  unfold bind at 1, ClaudeVisionService.onProgress, send, modify.
  unfold try_catch, bind at 1. by rewrite Hrun.
Qed.

Lemma analyzeStep_throws total processed i batch w w' error :
  analyzeBatch batch 0
    (add_sent (AnalyzeProgress processed total
                 (AnalyzingBatch (i / ClaudeVisionService.BATCH_SIZE + 1))) w)
    = (w', Throw error) ->
  analyzeStep total processed (i, batch) w
  = (add_sent (AnalyzeProgress processed total (ErrorInBatch error)) w', Ok processed).
Proof.
  intros Hrun. unfold ClaudeVisionService.analyzeStep.
  unfold bind at 1, ClaudeVisionService.onProgress, send, modify.
  unfold try_catch, bind at 1. by rewrite Hrun.
Qed.

Lemma loop_counts total bs processed w :
  exists done,
    completes total processed w bs done
    /\ (fold_each bs processed (analyzeStep total) w).2
       = Ok (processed + sum_list (length <$> done))%nat.
Proof.
  revert processed w. induction bs as [|[i batch] bs IH]; intros processed w.
  - exists []. split; [constructor|]. simpl. f_equal. lia.
  - cbn [fold_each]. unfold bind at 1.
    pose proof (analyzeBatch_ends create JSON_parse coerce driver base64 project batch 0
      (add_sent (AnalyzeProgress processed total
         (AnalyzingBatch (i / ClaudeVisionService.BATCH_SIZE + 1))) w)) as Hends.
    destruct (analyzeBatch batch 0 _) as [w' [[]|error|]] eqn:Hrun; [| |done].
    + rewrite (analyzeStep_returns _ _ _ _ _ _ Hrun).
      destruct (IH (processed + length batch)%nat w') as (done & Hdone & Hfold).
      exists (batch :: done). split; [by eapply completes_returns|].
      rewrite Hfold, fmap_cons. f_equal. simpl. lia.
    + rewrite (analyzeStep_throws _ _ _ _ _ _ _ Hrun).
      destruct (IH processed
        (add_sent (AnalyzeProgress processed total (ErrorInBatch error)) w'))
        as (done & Hdone & Hfold).
      exists done. split; [by eapply completes_throws|]. exact Hfold.
Qed.

Lemma analyzeBatch_saved batch retryCount w :
  always_saved -> (analyzeBatch batch retryCount w).2 = Ok tt.
Proof.
  intros Hsaved. unfold ClaudeVisionService.analyzeBatch.
  destruct (thumbnails base64 (files w) batch []) as [|c cs] eqn:Hc.
  - by rewrite analyzeBatch_no_thumbnail.
  - destruct (Hsaved (api_calls w)
      (thumbnails base64 (files w) batch []
         ++ [TextBlock (ClaudeVisionService.buildPrompt project)]))
      as (response & Hcreate & Hok).
    rewrite (analyzeBatch_responds _ _ _ _ _ _ _ _ _ _ response); [apply Hok| |done].
    by rewrite Hc.
Qed.

Lemma completes_all total processed w bs done :
  always_saved -> completes total processed w bs done -> done = bs.*2.
Proof.
  intros Hsaved. induction 1 as [| |processed w i batch bs w' error done Hrun]; simpl.
  - done.
  - by f_equal.
  - pose proof (analyzeBatch_saved batch 0
      (add_sent (AnalyzeProgress processed total
         (AnalyzingBatch (i / ClaudeVisionService.BATCH_SIZE + 1))) w) Hsaved) as Hok.
    by rewrite Hrun in Hok.
Qed.

(** C4 (amended). A scoring run returns the number of photos of the batches
    for which analyzeBatch returned without an exception: each of them
    counts for its whole length, whether a score was written for each of
    its photos, for some of them or for none, and a batch for which
    analyzeBatch throws counts for nothing. When every request is answered
    and every answer is saved, the run returns the number of the photos of
    the project that had no score when it started. *)
Theorem analyzePhotos_counts_batches (w : World) :
  exists bs done,
    Js.batches ClaudeVisionService.BATCH_SIZE
      (ClaudeVisionService.unscored (Project.id project) (photos w)) = Some bs
    /\ completes (length (ClaudeVisionService.unscored (Project.id project) (photos w)))
         0 w bs done
    /\ (analyzePhotos w).2 = Ok (sum_list (length <$> done))
    /\ (always_saved ->
        (analyzePhotos w).2
        = Ok (length (ClaudeVisionService.unscored (Project.id project) (photos w)))).
Proof.
  set (unscored := ClaudeVisionService.unscored (Project.id project) (photos w)).
  destruct (batches_some ClaudeVisionService.BATCH_SIZE unscored)
    as (bs & Hbs & Hcat).
  { unfold ClaudeVisionService.BATCH_SIZE. lia. }
  destruct (loop_counts (length unscored) bs 0 w) as (done & Hdone & Hfold).
  exists bs, done.
  assert (Hrun : (analyzePhotos w).2 = Ok (sum_list (length <$> done))).
  { unfold ClaudeVisionService.analyzePhotos, ClaudeVisionService.select_unscored.
    unfold bind at 1, gets. fold unscored.
    destruct (decide (length unscored = 0%nat)) as [Hzero|Hpos].
    - destruct unscored; [|done]. injection Hbs as <-.
      inversion Hdone; subst. done.
    - rewrite Hbs. unfold bind at 1.
      destruct (fold_each bs 0%nat _ w) as [w' [n|e|]]; simpl in *; done. }
  split_and!; try done.
  intros Hsaved. rewrite Hrun, (completes_all _ _ _ _ _ Hsaved Hdone).
  f_equal. rewrite <- Hcat, length_concat. done.
Qed.

End ScoringCount.

(** A service that always answers with no evaluation: three photos without
    a score, three photos counted. *)
Lemma analyzePhotos_counts_batches_witness :
  always_saved (fun _ _ => Stub.answers "{'evaluations': []}") Json.json_parse
    Stub.coerce Stub.driver
  /\ (ClaudeVisionService.analyzePhotos (fun _ _ => Stub.answers "{'evaluations': []}")
        Json.json_parse Stub.coerce Stub.driver Stub.base64 Stub.project Stub.world).2
     = Ok (length Stub.batch).
Proof.
  assert (H : always_saved (fun _ _ => Stub.answers "{'evaluations': []}") Json.json_parse
    Stub.coerce Stub.driver).
  { intros n content. eexists. split; [reflexivity|]. intros batch w. reflexivity. }
  split; [exact H|].
  destruct (analyzePhotos_counts_batches (fun _ _ => Stub.answers "{'evaluations': []}")
              Json.json_parse Stub.coerce Stub.driver Stub.base64 Stub.project Stub.world)
    as (bs & done & _ & _ & _ & Hall).
  exact (Hall H).
Defined.

(** C4, as stated, fails when the answer has no evaluation: no score is
    written and the run returns 3, the size of the batch. *)
Lemma empty_evaluations_are_counted :
  (ClaudeVisionService.analyzePhotos
     (Stub.script [Stub.answers "{'evaluations': []}"])
     Json.json_parse Stub.coerce Stub.driver Stub.base64 Stub.project Stub.world).2 = Ok 3%nat
  /\ Photo.score <$> photos (ClaudeVisionService.analyzePhotos
       (Stub.script [Stub.answers "{'evaluations': []}"])
       Json.json_parse Stub.coerce Stub.driver Stub.base64 Stub.project Stub.world).1
     = [None; None; None].
Proof. split; vm_compute; reflexivity. Qed.

(** An answer for one photo of three: one score is written, 3 is returned. *)
Example partial_evaluations_are_counted :
  (ClaudeVisionService.analyzePhotos
     (Stub.script [Stub.answers "{'evaluations': [{'photo_id': 3, 'score': 6, 'comment': 'ok'}]}"])
     Json.json_parse Stub.coerce Stub.driver Stub.base64 Stub.project Stub.world).2 = Ok 3%nat
  /\ Photo.score <$> photos (ClaudeVisionService.analyzePhotos
       (Stub.script [Stub.answers "{'evaluations': [{'photo_id': 3, 'score': 6, 'comment': 'ok'}]}"])
       Json.json_parse Stub.coerce Stub.driver Stub.base64 Stub.project Stub.world).1
     = [None; None; Some (Double.Finite 6)].
Proof. split; vm_compute; reflexivity. Qed.

(** ** The grouping reconciler *)

(** *** A group has two members when it is assigned *)

Lemma set_photos_id w : set_photos (fun t => t) w = w.
Proof. by destruct w. Qed.

Lemma assigned_nil g table : assigned g [] table = table.
Proof.
  unfold assigned. rewrite <- (list_fmap_id table) at 2.
  apply list_fmap_ext. intros i p _. destruct (decide _) as [Hin|]; [|done].
  by apply elem_of_nil in Hin.
Qed.

Lemma assigned_cons g photo_id ids table :
  assigned g ids
    ((fun p => if decide (Photo.id p = photo_id)
               then Photo.set_group (Some g) p else p) <$> table)
  = assigned g (photo_id :: ids) table.
Proof.
  unfold assigned. rewrite <- list_fmap_compose.
  apply list_fmap_ext. intros i p _. simpl.
  destruct (decide (Photo.id p = photo_id)) as [Heq|Hne]; simpl.
  - rewrite (decide_True (P := Photo.id p ∈ photo_id :: ids)) by (rewrite Heq; left).
    by destruct (decide _).
  - destruct (decide (Photo.id p ∈ ids)) as [Hin|Hnin].
    + by rewrite (decide_True (P := Photo.id p ∈ photo_id :: ids)) by by right.
    + rewrite (decide_False (P := Photo.id p ∈ photo_id :: ids)); [done|].
      intros [?|?]%elem_of_cons; done.
Qed.

(** The loop of UPDATEs of assignGroups gives the group id to the rows of
    the photos of the group. *)
Lemma update_groups_assigned g (groupPhotos : list Photo.t) w :
  for_each groupPhotos
    (fun photo => SimilarityGroupingService.update_group g (Photo.id photo)) w
  = (set_photos (assigned g (Photo.id <$> groupPhotos)) w, Ok tt).
Proof.
  revert w. induction groupPhotos as [|photo rest IH]; intros w.
  - simpl. unfold ret. f_equal. destruct w. unfold set_photos. simpl.
    by rewrite assigned_nil.
  - cbn [for_each]. unfold bind, SimilarityGroupingService.update_group, modify.
    rewrite IH. f_equal. unfold set_photos. simpl. f_equal.
    apply assigned_cons.
Qed.

Lemma length_filter_fmap {A B} (P : A -> Prop) (Q : B -> Prop)
    `{!forall x, Decision (P x)} `{!forall y, Decision (Q y)} (f : A -> B) (l : list A) :
  (forall x, P x -> Q (f x)) ->
  (length (filter P l) <= length (filter Q (f <$> l)))%nat.
Proof.
  intros HPQ. induction l as [|x l IH]; [done|].
  rewrite fmap_cons, !filter_cons.
  destruct (decide (P x)) as [HP|HnP].
  - rewrite decide_True by by apply HPQ. simpl. lia.
  - destruct (decide (Q (f x))); simpl; lia.
Qed.

(** Rows with distinct ids: the rows given a group id are at least as many
    as the ids. *)
Lemma members_assigned g ids table :
  NoDup ids ->
  (forall id, id ∈ ids -> id ∈ Photo.id <$> table) ->
  (length ids <= members g (assigned g ids table))%nat.
Proof.
  intros Hnodup Hin. unfold members, assigned.
  etrans; [|apply (length_filter_fmap (fun p => Photo.id p ∈ ids))].
  - rewrite <- (length_fmap Photo.id (filter _ table)).
    apply submseteq_length, NoDup_submseteq; [done|].
    intros id Hid. destruct (proj1 (list_elem_of_fmap _ _ _) (Hin id Hid)) as (p & -> & Hp).
    apply list_elem_of_fmap. exists p. split; [done|].
    by apply list_elem_of_filter.
  - intros p Hp. by rewrite decide_True.
Qed.

(** When assignGroups keeps a proposal, the group id it takes is given to
    the rows of at least two photos: at the time of the assignment, the
    group has two members. (A later proposal may take one away: see below.) *)
Lemma assignGroup_two_members coerce batch group photoIds w :
  NoDup (Photo.id <$> batch) ->
  (forall p, p ∈ batch -> Photo.id p ∈ Photo.id <$> photos w) ->
  SimilarityGroupingService.photo_ids_of group = Ok (JArr photoIds) ->
  (2 <= length photoIds)%nat ->
  (2 <= length (List.filter
                  (fun p => SimilarityGroupingService.includes photoIds (Photo.id p))
                  batch))%nat ->
  (SimilarityGroupingService.assignGroup coerce batch group w).2 = Ok tt
  /\ nextGroupId (SimilarityGroupingService.assignGroup coerce batch group w).1
     = nextGroupId w + 1
  /\ (2 <= members (nextGroupId w)
             (photos (SimilarityGroupingService.assignGroup coerce batch group w).1))%nat.
Proof.
  intros Hnodup Hrows Hids Hlen Hgroup.
  set (groupPhotos := List.filter _ batch) in *.
  assert (Heq : SimilarityGroupingService.assignGroup coerce batch group w
    = (set_photos (assigned (nextGroupId w) (Photo.id <$> groupPhotos))
         (set_nextGroupId (nextGroupId w + 1) w), Ok tt)).
  { unfold SimilarityGroupingService.assignGroup, bind at 1, lift. rewrite Hids.
    cbn [SimilarityGroupingService.length_below_2
         SimilarityGroupingService.filter_includes].
    destruct (Nat.ltb_spec (length photoIds) 2); [lia|].
    unfold bind at 1. fold groupPhotos.
    destruct (Nat.ltb_spec (length groupPhotos) 2); [lia|].
    unfold bind, gets, modify. by rewrite update_groups_assigned. }
  rewrite Heq. split_and!; [reflexivity|reflexivity|].
  cbn [fst photos set_photos set_nextGroupId].
  etrans; [|apply members_assigned].
  - by rewrite length_fmap.
  - assert (Hsub : sublist groupPhotos batch).
    { unfold groupPhotos. clear. induction batch as [|p batch IH]; simpl; [done|].
      destruct (SimilarityGroupingService.includes _ _); by constructor. }
    apply (sublist_NoDup _ (Photo.id <$> batch)); [exact Hnodup|].
    by apply fmap_sublist.
  - intros id (p & -> & Hp)%list_elem_of_fmap. apply Hrows.
    apply list_elem_of_In in Hp. apply filter_In in Hp as [Hp _].
    by apply list_elem_of_In.
Qed.

(** C3: the code at two proposals of one batch that share photo 2. The
    first one gives group 1 to photos 1 and 2, the second one gives group 2
    to photos 2 and 3: group 1 is left with photo 1 alone, and the run
    counts it as a group. *)
Lemma overlapping_groups_leave_a_singleton :
  Photo.similarity_group_id <$> photos (SimilarityGroupingService.group_similar
      (Stub.script [Stub.answers
         "{'groups': [{'photo_ids': [1, 2], 'reason': 'a'}, {'photo_ids': [2, 3], 'reason': 'b'}]}"])
      Json.json_parse Stub.coerce Stub.base64 Stub.project Stub.world).1
  = [Some 1; Some 2; Some 2]
  /\ members 1 (photos (SimilarityGroupingService.group_similar
      (Stub.script [Stub.answers
         "{'groups': [{'photo_ids': [1, 2], 'reason': 'a'}, {'photo_ids': [2, 3], 'reason': 'b'}]}"])
      Json.json_parse Stub.coerce Stub.base64 Stub.project Stub.world).1) = 1%nat
  /\ (SimilarityGroupingService.group_similar
      (Stub.script [Stub.answers
         "{'groups': [{'photo_ids': [1, 2], 'reason': 'a'}, {'photo_ids': [2, 3], 'reason': 'b'}]}"])
      Json.json_parse Stub.coerce Stub.base64 Stub.project Stub.world).2 = Ok 2%nat.
Proof. split_and!; vm_compute; reflexivity. Qed.

(** A proposal whose photo_ids is the string 12: its length is 2, the
    digits of the ids 1 and 2 are found in it, and photos 1 and 2 get
    group 1; then the text of the log calls photoIds.join, which a string
    does not have: the TypeError fails the batch after the rows were
    written, and the run counts the group. A string of one character is
    skipped. *)
Example photo_ids_as_a_string :
  Photo.similarity_group_id <$> photos (SimilarityGroupingService.group_similar
      (Stub.script [Stub.answers "{'groups': [{'photo_ids': '12', 'reason': 'a'}]}"])
      Json.json_parse Stub.coerce Stub.base64 Stub.project Stub.world).1
  = [Some 1; Some 1; None]
  /\ (SimilarityGroupingService.saveResults Json.json_parse Stub.coerce Stub.batch
        [RText (Json.dq "{'groups': [{'photo_ids': '12', 'reason': 'a'}]}")]
        Stub.world).2 = Throw TypeError
  /\ (SimilarityGroupingService.group_similar
      (Stub.script [Stub.answers "{'groups': [{'photo_ids': '12', 'reason': 'a'}]}"])
      Json.json_parse Stub.coerce Stub.base64 Stub.project Stub.world).2 = Ok 1%nat
  /\ SimilarityGroupingService.saveResults Json.json_parse Stub.coerce Stub.batch
       [RText (Json.dq "{'groups': [{'photo_ids': '1', 'reason': 'a'}]}")]
       Stub.world = (Stub.world, Ok tt).
Proof. split_and!; vm_compute; reflexivity. Qed.

(** ** Ingestion *)

Section Ingestion.
Variable sha256 : string -> string.
Variables (join : string -> string -> string) (basename : string -> string)
          (basename_without : string -> string -> string)
          (extname parse_name : string -> string).
Variable thumbnail_of : string -> option string.
Variable placeholder : option string.
Variable writable : string -> bool.
Variable storagePath : string.

Local Abbreviation processUpload :=
  (PhotoManager.processUpload sha256 join basename basename_without extname parse_name
     thumbnail_of placeholder writable storagePath).
Local Abbreviation upload_loop :=
  (PhotoManager.upload_loop sha256 join basename basename_without extname parse_name
     thumbnail_of placeholder writable storagePath).
Local Abbreviation photos_upload :=
  (PhotoManager.photos_upload sha256 join basename basename_without extname parse_name
     thumbnail_of placeholder writable storagePath).

(** The early return of processUpload. *)
Lemma processUpload_found fuel project filePath bytes existing w :
  files w !! filePath = Some bytes ->
  PhotoManager.find_by_hash (Project.id project) (sha256 bytes) (photos w)
    = Some existing ->
  processUpload fuel project filePath w
    = (w, Ok (PhotoManager.mkUploadResult true None (Some existing))).
Proof.
  intros Hfile Hfind.
  unfold PhotoManager.processUpload, bind at 1, readFile. rewrite Hfile.
  unfold bind at 1, gets. rewrite Hfind. reflexivity.
Qed.

(** The SELECT of processUpload finds a row when one of the project has
    the digest: the first such row of the table. *)
Lemma find_by_hash_present project_id fileHash table row :
  row ∈ table ->
  Photo.project_id row = project_id ->
  Photo.file_hash row = fileHash ->
  exists before existing after,
    PhotoManager.find_by_hash project_id fileHash table = Some existing
    /\ table = before ++ existing :: after
    /\ Photo.project_id existing = project_id
    /\ Photo.file_hash existing = fileHash
    /\ forall p, p ∈ before ->
         ~ (Photo.project_id p = project_id /\ Photo.file_hash p = fileHash).
Proof.
  intros Hin Hproject Hhash. unfold PhotoManager.find_by_hash.
  induction table as [|p table IH]; [by apply elem_of_nil in Hin|].
  cbn [List.find].
  destruct (bool_decide (Photo.project_id p = project_id)
            && String.eqb (Photo.file_hash p) fileHash) eqn:Hp.
  - apply andb_prop in Hp as [Hp1 Hp2].
    apply bool_decide_eq_true in Hp1. apply String.eqb_eq in Hp2.
    exists [], p, table. split_and!; try done.
    intros q Hq. by apply elem_of_nil in Hq.
  - apply elem_of_cons in Hin as [->|Hin].
    + rewrite bool_decide_eq_true_2 in Hp by done.
      rewrite (proj2 (String.eqb_eq _ _) Hhash) in Hp. done.
    + destruct (IH Hin) as (before & existing & after & Hfind & -> & H1 & H2 & Hfirst).
      exists (p :: before), existing, after. split_and!; try done.
      intros q [->|Hq]%elem_of_cons; [|by apply Hfirst].
      intros [Hq1 Hq2]. rewrite bool_decide_eq_true_2 in Hp by done.
      rewrite (proj2 (String.eqb_eq _ _) Hq2) in Hp. done.
Qed.

(** C6. A file whose bytes have the SHA-256 digest of a row of the project
    is a duplicate, whatever its path and its name are: processUpload
    returns duplicate = true with a row of the project that has this
    digest as existingPhoto, the first one of the table, and the world is
    the one it started from: no row is added, no file or directory is
    written, nothing is sent. Every file with these bytes, under any path,
    gets the same answer. *)
Theorem processUpload_duplicate (fuel : nat) (project : Project.t)
    (filePath bytes : string) (row : Photo.t) (w : World) :
  files w !! filePath = Some bytes ->
  row ∈ photos w ->
  Photo.project_id row = Project.id project ->
  Photo.file_hash row = sha256 bytes ->
  exists before existing after,
    processUpload fuel project filePath w
      = (w, Ok (PhotoManager.mkUploadResult true None (Some existing)))
    /\ photos w = before ++ existing :: after
    /\ Photo.project_id existing = Project.id project
    /\ Photo.file_hash existing = sha256 bytes
    /\ (forall p, p ∈ before ->
          ~ (Photo.project_id p = Project.id project
             /\ Photo.file_hash p = sha256 bytes))
    /\ (forall fuel' otherPath,
          files w !! otherPath = Some bytes ->
          processUpload fuel' project otherPath w
          = (w, Ok (PhotoManager.mkUploadResult true None (Some existing)))).
Proof.
  intros Hfile Hin Hproject Hhash.
  destruct (find_by_hash_present _ _ _ _ Hin Hproject Hhash)
    as (before & existing & after & Hfind & Htable & H1 & H2 & Hfirst).
  exists before, existing, after. split_and!; try done.
  - by apply (processUpload_found fuel project filePath bytes).
  - intros fuel' otherPath Hother.
    by apply (processUpload_found fuel' project otherPath bytes).
Qed.

(** A file that cannot be read makes processUpload throw, and changes
    nothing. *)
Lemma processUpload_unreadable fuel project filePath w :
  files w !! filePath = None ->
  processUpload fuel project filePath w = (w, Throw (FsError filePath)).
Proof.
  intros Hfile. unfold PhotoManager.processUpload, bind at 1, readFile.
  by rewrite Hfile.
Qed.

Lemma upload_loop_app fuel project total i before after results w :
  upload_loop fuel project total i (before ++ after) results w
  = match upload_loop fuel project total i before results w with
    | (w1, Ok results1) =>
        upload_loop fuel project total (i + length before) after results1 w1
    | (w1, Throw e) => (w1, Throw e)
    | (w1, OutOfFuel) => (w1, OutOfFuel)
    end.
Proof.
  revert i results w. induction before as [|filePath before IH]; intros i results w.
  - simpl. by rewrite Nat.add_0_r.
  - cbn [app PhotoManager.upload_loop]. unfold bind, send, modify.
    destruct (processUpload fuel project filePath w) as [w' [result|e|]]; try done.
    rewrite IH. cbn [length]. by replace (i + 1 + length before)%nat
      with (i + S (length before))%nat by lia.
Qed.

(** C2 (amended). A file that cannot be read makes processUpload throw
    before anything is changed for it, and the loop of the upload handler
    does not catch the exception: the files before it stay ingested, the
    file and every file after it are not processed and no progress event
    is sent for them, and the request is rejected with the error of the
    read. *)
Theorem upload_stops_at_unreadable_file (fuel : nat) (projectId : Z)
    (project : Project.t) (before after : list string) (unreadable : string)
    (w w1 : World) (results1 : PhotoManager.UploadResults) :
  List.find (fun p => bool_decide (Project.id p = projectId)) (projects w)
    = Some project ->
  upload_loop fuel project (length (before ++ unreadable :: after)) 0 before
    (PhotoManager.mkUploadResults 0 0 []) w = (w1, Ok results1) ->
  files w1 !! unreadable = None ->
  photos_upload fuel projectId (before ++ unreadable :: after) w
  = (w1, Throw (FsError unreadable)).
Proof.
  intros Hproject Hbefore Hfile.
  unfold PhotoManager.photos_upload, bind at 1, gets. rewrite Hproject.
  rewrite upload_loop_app, Hbefore.
  cbn [PhotoManager.upload_loop]. unfold bind at 1.
  by rewrite processUpload_unreadable.
Qed.

(** *** Uploading the same bytes again *)

Lemma bind_Ok {A B} (m : M A) (k : A -> M B) w w1 (b : B) :
  bind m k w = (w1, Ok b) ->
  exists w' a, m w = (w', Ok a) /\ k a w' = (w1, Ok b).
Proof.
  unfold bind. destruct (m w) as [w' [a|e|]]; try done. intros Hk. by exists w', a.
Qed.

#[local] Instance same_table_preorder : PreOrder same_table.
Proof.
  split; [by intros w|]. intros w1 w2 w3 H12 H23. unfold same_table in *. congruence.
Qed.

Lemma unique_name_same_table fuel filename projectPath originalFilename originalPath counter :
  preserves same_table
    (PhotoManager.unique_name join basename_without extname fuel filename projectPath
       originalFilename originalPath counter).
Proof.
  revert originalFilename originalPath counter.
  induction fuel as [|fuel IH]; intros ofn op counter; simpl.
  - papply @preserves_bind; [papply @preserves_gets|].
    intros [|]; [papply @preserves_out_of_fuel|papply @preserves_ret].
  - papply @preserves_bind; [papply @preserves_gets|].
    intros [|]; [apply IH|papply @preserves_ret].
Qed.

Lemma writeFile_same_table path bytes :
  preserves same_table (PhotoManager.writeFile writable path bytes).
Proof.
  unfold PhotoManager.writeFile. destruct (writable path).
  - by papply @preserves_modify.
  - papply @preserves_throw.
Qed.

Lemma find_by_hash_app project_id fileHash table row :
  PhotoManager.find_by_hash project_id fileHash table = None ->
  Photo.project_id row = project_id ->
  Photo.file_hash row = fileHash ->
  PhotoManager.find_by_hash project_id fileHash (table ++ [row]) = Some row.
Proof.
  intros Hnone Hproject Hhash. unfold PhotoManager.find_by_hash in *.
  induction table as [|p table IH]; simpl in *.
  - rewrite bool_decide_eq_true_2 by done. simpl.
    by rewrite (proj2 (String.eqb_eq _ _) Hhash).
  - destruct (bool_decide _ && _); [done|]. by apply IH.
Qed.

(** X24. After an upload that returns, the bytes uploaded are those of a
    photo of the project: uploading them again, under any path, is a
    duplicate and changes nothing. *)
Lemma processUpload_again fuel project filePath otherPath bytes w w1 result :
  files w !! filePath = Some bytes ->
  processUpload fuel project filePath w = (w1, Ok result) ->
  files w1 !! otherPath = Some bytes ->
  exists existing,
    processUpload fuel project otherPath w1
    = (w1, Ok (PhotoManager.mkUploadResult true None (Some existing)))
    /\ length (photos w1)
       = (if PhotoManager.duplicate result then length (photos w)
          else S (length (photos w))).
Proof.
  intros Hfile Hrun Hother.
  destruct (PhotoManager.find_by_hash (Project.id project) (sha256 bytes) (photos w))
    as [existing|] eqn:Hfind.
  - rewrite (processUpload_found fuel project filePath bytes existing w Hfile Hfind) in Hrun.
    injection Hrun as <- <-.
    exists existing. split; [|done].
    by apply (processUpload_found fuel project otherPath bytes existing w).
  - unfold PhotoManager.processUpload in Hrun.
    apply bind_Ok in Hrun as (w0 & fileBuffer & Hread & Hrun).
    unfold readFile in Hread. rewrite Hfile in Hread. injection Hread as <- <-.
    apply bind_Ok in Hrun as (w0 & found & Hget & Hrun).
    injection Hget as <- <-. rewrite Hfind in Hrun.
    apply bind_Ok in Hrun as (wa & [] & Hdirs & Hrun).
    apply bind_Ok in Hrun as (wb & [ofn op] & Hname & Hrun).
    apply bind_Ok in Hrun as (wc & [] & Hcopy & Hrun).
    apply bind_Ok in Hrun as (wd & generated & Hthumb & Hrun).
    apply bind_Ok in Hrun as (we & row & Hinsert & Hrun).
    injection Hrun as <- <-.
    assert (Ha : same_table w wa).
    { replace wa with (PhotoManager.createDirectories join storagePath
                         (Project.name project) w).1 by by rewrite Hdirs.
      unfold PhotoManager.createDirectories, PhotoManager.mkdir.
      repeat (papply @preserves_bind; [by papply @preserves_modify|]; intros _).
      by papply @preserves_modify. }
    assert (Hb : same_table wa wb).
    { pose proof (unique_name_same_table fuel (basename filePath)
        (PhotoManager.getProjectPath join storagePath (Project.name project))
        (basename filePath)
        (join (join (PhotoManager.getProjectPath join storagePath (Project.name project))
                 "originals") (basename filePath)) 1 wa) as H.
      by rewrite Hname in H. }
    assert (Hc : same_table wb wc).
    { replace wc with (PhotoManager.copyFile writable filePath op wb).1 by by rewrite Hcopy.
      unfold PhotoManager.copyFile.
      papply @preserves_bind; [papply @preserves_readFile|].
      intros b. apply writeFile_same_table. }
    assert (Hd : same_table wc wd).
    { match type of Hthumb with ?m wc = _ =>
        replace wd with (m wc).1 by by rewrite Hthumb end.
      papply @preserves_try_catch.
      - destruct (thumbnail_of bytes); [|papply @preserves_throw].
        papply @preserves_bind; [apply writeFile_same_table|].
        intros _. papply @preserves_ret.
      - intros _. papply @preserves_try_catch; [|intros _; papply @preserves_ret].
        destruct placeholder; [|papply @preserves_throw].
        papply @preserves_bind; [apply writeFile_same_table|].
        intros _. papply @preserves_ret. }
    assert (Htable : photos wd = photos w).
    { unfold same_table in *. congruence. }
    unfold PhotoManager.insert_photo in Hinsert. injection Hinsert as <- <-.
    simpl in Hother |- *. rewrite Htable.
    eexists. split; [|by rewrite length_app; simpl; lia].
    eapply (processUpload_found fuel project otherPath bytes); [exact Hother|].
    simpl. rewrite Htable. by apply find_by_hash_app.
Qed.

End Ingestion.

Example first_upload_ingests :
  photos after_first_upload = [first_row]
  /\ files after_first_upload !! "/store/p/originals/a.jpg" = Some "AAA"
  /\ files after_first_upload !! "/store/p/thumbnails/a_thumb.jpg" = Some "thumbnail:AAA"
  /\ sent after_first_upload = [UploadProgress 1 3 "a.jpg"].
Proof. split_and!; vm_compute; reflexivity. Qed.

Lemma processUpload_duplicate_witness :
  files after_first_upload !! "/in/copy.jpg" = Some "AAA"
  /\ first_row ∈ photos after_first_upload
  /\ Photo.project_id first_row = Project.id Stub.project
  /\ Photo.file_hash first_row = StubDisk.sha256 "AAA"
  /\ exists existing,
       StubDisk.processUpload 10 Stub.project "/in/copy.jpg" after_first_upload
       = (after_first_upload,
          Ok (PhotoManager.mkUploadResult true None (Some existing))).
Proof.
  assert (H1 : files after_first_upload !! "/in/copy.jpg" = Some "AAA")
    by (vm_compute; reflexivity).
  assert (H2 : first_row ∈ photos after_first_upload)
    by (vm_compute; left).
  assert (H3 : Photo.project_id first_row = Project.id Stub.project)
    by reflexivity.
  assert (H4 : Photo.file_hash first_row = StubDisk.sha256 "AAA")
    by (vm_compute; reflexivity).
  split; [exact H1|]. split; [exact H2|]. split; [exact H3|]. split; [exact H4|].
  destruct (processUpload_duplicate StubDisk.sha256 StubDisk.join StubDisk.basename
    StubDisk.basename_without StubDisk.extname StubDisk.parse_name
    StubDisk.thumbnail_of StubDisk.placeholder StubDisk.writable StubDisk.storagePath
    10 Stub.project "/in/copy.jpg" "AAA" first_row after_first_upload H1 H2 H3 H4)
    as (before & existing & after & Hrun & _).
  exists existing. exact Hrun.
Defined.

(** The same bytes under another name: the row of the first upload is the
    one returned, and nothing is changed. *)
Example processUpload_same_bytes_other_name :
  StubDisk.processUpload 10 Stub.project "/in/copy.jpg" after_first_upload
  = (after_first_upload,
     Ok (PhotoManager.mkUploadResult true None (Some first_row))).
Proof. vm_compute. reflexivity. Qed.

Lemma upload_stops_at_unreadable_file_witness :
  List.find (fun p => bool_decide (Project.id p = 1)) (projects StubDisk.world)
    = Some Stub.project
  /\ files after_first_upload !! "/in/missing.jpg" = None
  /\ StubDisk.photos_upload 10 1 ["/in/a.jpg"; "/in/missing.jpg"; "/in/b.jpg"] StubDisk.world
     = (after_first_upload, Throw (FsError "/in/missing.jpg")).
Proof.
  assert (H1 : List.find (fun p => bool_decide (Project.id p = 1)) (projects StubDisk.world)
                 = Some Stub.project) by reflexivity.
  assert (H2 : files after_first_upload !! "/in/missing.jpg" = None)
    by (vm_compute; reflexivity).
  split; [exact H1|]. split; [exact H2|].
  refine (upload_stops_at_unreadable_file StubDisk.sha256 StubDisk.join StubDisk.basename
    StubDisk.basename_without StubDisk.extname StubDisk.parse_name
    StubDisk.thumbnail_of StubDisk.placeholder StubDisk.writable StubDisk.storagePath
    10 1 Stub.project ["/in/a.jpg"] ["/in/b.jpg"] "/in/missing.jpg"
    StubDisk.world after_first_upload
    (PhotoManager.mkUploadResults 1 0 [Some first_row]) H1 _ H2).
  vm_compute. reflexivity.
Defined.

(** C2, as stated, fails when the first of two files cannot be read: the
    request is rejected, and the second file, which can be read, is not
    ingested (the world is the one before the request). *)
Lemma upload_aborts_at_missing_file :
  StubDisk.photos_upload 10 1 ["/in/missing.jpg"; "/in/b.jpg"] StubDisk.world
  = (StubDisk.world, Throw (FsError "/in/missing.jpg"))
  /\ files StubDisk.world !! "/in/b.jpg" = Some "BBB"
  /\ photos StubDisk.world = [].
Proof. split_and!; vm_compute; reflexivity. Qed.

(** * Properties of the rest of the code *)

(** ** The name of a project's directory *)

Section SanitizeName.

Lemma all_chars_impl (P Q : ascii -> bool) s :
  (forall c, P c = true -> Q c = true) -> all_chars P s = true -> all_chars Q s = true.
Proof.
  intros HPQ. induction s as [|c s IH]; simpl; [done|].
  intros [Hc Hs]%andb_prop. by rewrite (HPQ c Hc), IH.
Qed.

Lemma all_chars_trimStart P s : all_chars P s = true -> all_chars P (Js.trimStart s) = true.
Proof.
  induction s as [|c s IH]; simpl; [done|].
  intros [Hc Hs]%andb_prop. destruct (Js.is_space c); [by apply IH|].
  simpl. by rewrite Hc, Hs.
Qed.

Lemma all_chars_trimEnd P s : all_chars P s = true -> all_chars P (Js.trimEnd s) = true.
Proof.
  induction s as [|c s IH]; simpl; [done|].
  intros [Hc Hs]%andb_prop. specialize (IH Hs).
  destruct (Js.trimEnd s) as [|d t].
  - destruct (Js.is_space c); simpl; [done|by rewrite Hc].
  - cbn [all_chars] in *. by rewrite Hc, IH.
Qed.

Lemma all_chars_replace_others s : all_chars in_name (PhotoManager.replace_others s) = true.
Proof.
  induction s as [|c s IH]; simpl; [done|]. rewrite IH, andb_true_r.
  unfold in_name. destruct (PhotoManager.keeps c) eqn:Hc; [by rewrite Hc|].
  by rewrite orb_true_r.
Qed.

Lemma replace_others_id s :
  all_chars in_name s = true -> PhotoManager.replace_others s = s.
Proof.
  induction s as [|c s IH]; simpl; [done|].
  intros [Hc Hs]%andb_prop. rewrite (IH Hs). f_equal.
  destruct (PhotoManager.keeps c) eqn:Hk; [done|].
  unfold in_name in Hc. rewrite Hk in Hc. simpl in Hc.
  by apply Ascii.eqb_eq in Hc.
Qed.

Lemma trimEnd_idemp s : Js.trimEnd (Js.trimEnd s) = Js.trimEnd s.
Proof.
  induction s as [|c s IH]; simpl; [done|].
  destruct (Js.trimEnd s) as [|d t] eqn:Ht.
  - destruct (Js.is_space c) eqn:Hc; simpl; [done|by rewrite Hc].
  - cbn [Js.trimEnd]. cbn [Js.trimEnd] in IH. by rewrite IH.
Qed.

(** The white space that ends a string is no part of what starts it, when
    it starts with another character. *)
Lemma trimStart_trimEnd s :
  Js.trimStart s = s -> Js.trimStart (Js.trimEnd s) = Js.trimEnd s.
Proof.
  destruct s as [|c s]; simpl; [done|].
  destruct (Js.is_space c) eqn:Hc.
  - intros Heq. exfalso.
    assert (Hlen : forall t, (String.length (Js.trimStart t) <= String.length t)%nat).
    { clear. induction t as [|d t IH]; simpl; [lia|]. destruct (Js.is_space d); simpl; lia. }
    specialize (Hlen s). rewrite Heq in Hlen. simpl in Hlen. lia.
  - intros _. destruct (Js.trimEnd s); simpl; by rewrite Hc.
Qed.

Lemma trimStart_idemp s : Js.trimStart (Js.trimStart s) = Js.trimStart s.
Proof.
  induction s as [|c s IH]; simpl; [done|].
  destruct (Js.is_space c) eqn:Hc; [done|]. simpl. by rewrite Hc.
Qed.

Lemma trim_idemp s : Js.trim (Js.trim s) = Js.trim s.
Proof.
  unfold Js.trim.
  rewrite (trimStart_trimEnd (Js.trimStart s)) by apply trimStart_idemp.
  apply trimEnd_idemp.
Qed.

End SanitizeName.

(** X1. sanitizeName gives a name made of the characters that its regular
    expression keeps (digits, letters, the dot, the hyphen, white space) and
    of underscores, with no white space at its ends: a slash, a backslash or
    a colon is never part of it. A sanitized name is left as it is by
    sanitizeName. *)
Theorem sanitizeName_safe (name : string) :
  all_chars in_name (PhotoManager.sanitizeName name) = true
  /\ all_chars (fun c => negb (Ascii.eqb c "/") && negb (Ascii.eqb c backslash)
                         && negb (Ascii.eqb c ":"))
       (PhotoManager.sanitizeName name) = true
  /\ Js.trim (PhotoManager.sanitizeName name) = PhotoManager.sanitizeName name
  /\ PhotoManager.sanitizeName (PhotoManager.sanitizeName name)
     = PhotoManager.sanitizeName name.
Proof.
  assert (Hin : all_chars in_name (PhotoManager.sanitizeName name) = true).
  { unfold PhotoManager.sanitizeName, Js.trim.
    apply all_chars_trimEnd, all_chars_trimStart, all_chars_replace_others. }
  split_and!.
  - exact Hin.
  - revert Hin. apply all_chars_impl. intros c Hc.
    destruct (Ascii.eqb_spec c "/") as [->|_]; [by vm_compute in Hc|].
    destruct (Ascii.eqb_spec c backslash) as [->|_]; [by vm_compute in Hc|].
    destruct (Ascii.eqb_spec c ":") as [->|_]; [by vm_compute in Hc|]. done.
  - unfold PhotoManager.sanitizeName. apply trim_idemp.
  - unfold PhotoManager.sanitizeName at 1.
    rewrite (replace_others_id _ Hin).
    unfold PhotoManager.sanitizeName. apply trim_idemp.
Qed.

(** ** The cost estimate *)

Lemma ceil_div_bounds n B :
  (0 < B)%nat -> (n <= Js.ceil_div n B * B < n + B)%nat.
Proof.
  intros HB. unfold Js.ceil_div.
  pose proof (Nat.div_mod_eq (n + B - 1) B) as Hdm.
  pose proof (Nat.mod_upper_bound (n + B - 1) B) as Hmod. nia.
Qed.

Lemma ceil_div_mono n m B : (0 < B)%nat -> (n <= m)%nat -> (Js.ceil_div n B <= Js.ceil_div m B)%nat.
Proof.
  intros HB Hnm. unfold Js.ceil_div. apply Nat.Div0.div_le_mono. lia.
Qed.

Section CostFacts.
Import Double.

Lemma of_Z_million : of_Z 1000000 = Num (Finite 1000000).
Proof. vm_compute. reflexivity. Qed.

Lemma of_Z_3 : of_Z 3 = Num (Finite 3).
Proof. vm_compute. reflexivity. Qed.

Lemma of_Z_15 : of_Z 15 = Num (Finite 15).
Proof. vm_compute. reflexivity. Qed.

(** The cost of a count of tokens at a price of 3 or 15 dollars a
    million: three roundings. *)
Lemma cost_of_tokens (price : Q) (t t' : Z) :
  price = 3%Q \/ price = 15%Q ->
  1 <= t <= t' -> t' <= 2 ^ 45 ->
  exists m m',
    mul (div (of_Z t) (of_Z 1000000)) (Num (Finite price)) = Num (Finite m)
    /\ mul (div (of_Z t') (of_Z 1000000)) (Num (Finite price)) = Num (Finite m')
    /\ (m <= m')%Q
    /\ (inject_Z t * price / 1000000 * (1 - (4 # 9007199254740992)) <= m)%Q
    /\ (m <= inject_Z t * price / 1000000 * (1 + (4 # 9007199254740992)))%Q
    /\ (m' <= inject_Z t' * price / 1000000 * (1 + (4 # 9007199254740992)))%Q.
Proof.
  intros Hprice [Ht Htt'] Ht'. rewrite of_Z_million. unfold of_Z.
  assert (HT : (1 <= inject_Z t <= inject_Z t' /\ inject_Z t' <= 35184372088832)%Q).
  { rewrite Zle_Qle in Ht, Htt', Ht'. change (inject_Z 1) with 1%Q in Ht.
    change (inject_Z (2 ^ 45)) with 35184372088832%Q in Ht'. lra. }
  clear Ht Htt' Ht'. destruct HT as [[Ht Htt'] Ht'].
  pose proof (fl_mono _ _ Htt') as Hmono1.
  destruct (fl_round (inject_Z t)) as (a & Ha & Ha1 & Ha2); [lra|].
  destruct (fl_round (inject_Z t')) as (a' & Ha' & Ha1' & Ha2'); [lra|].
  rewrite Ha, Ha' in Hmono1 |- *. apply le_Finite in Hmono1.
  change (div (Num (Finite a)) (Num (Finite 1000000)))
    with (Num (fl (a / 1000000))).
  change (div (Num (Finite a')) (Num (Finite 1000000)))
    with (Num (fl (a' / 1000000))).
  assert (Hdiv : (a / 1000000 <= a' / 1000000)%Q).
  { apply Qmult_le_compat_r; [done|]. done. }
  assert (Hd : (a / 1000000 == a * (1 # 1000000))%Q) by reflexivity.
  assert (Hd' : (a' / 1000000 == a' * (1 # 1000000))%Q) by reflexivity.
  pose proof (fl_mono _ _ Hdiv) as Hmono2.
  destruct (fl_round (a / 1000000)) as (b & Hb & Hb1 & Hb2); [lra|].
  destruct (fl_round (a' / 1000000)) as (b' & Hb' & Hb1' & Hb2'); [lra|].
  rewrite Hb, Hb' in Hmono2 |- *. apply le_Finite in Hmono2.
  change (mul (Num (Finite b)) (Num (Finite price))) with (Num (fl (b * price))).
  change (mul (Num (Finite b')) (Num (Finite price))) with (Num (fl (b' * price))).
  assert (Hmul : (b * price <= b' * price)%Q).
  { apply Qmult_le_compat_r; [done|]. destruct Hprice as [-> | ->]; done. }
  pose proof (fl_mono _ _ Hmul) as Hmono3.
  unfold Qdiv. change (/ 1000000)%Q with (1 # 1000000)%Q.
  destruct Hprice as [-> | ->].
  - destruct (fl_round (b * 3)) as (m & Hm & Hm1 & Hm2); [lra|].
    destruct (fl_round (b' * 3)) as (m' & Hm' & Hm1' & Hm2'); [lra|].
    rewrite Hm, Hm' in Hmono3 |- *. apply le_Finite in Hmono3.
    exists m, m'. split_and!; try done; lra.
  - destruct (fl_round (b * 15)) as (m & Hm & Hm1 & Hm2); [lra|].
    destruct (fl_round (b' * 15)) as (m' & Hm' & Hm1' & Hm2'); [lra|].
    rewrite Hm, Hm' in Hmono3 |- *. apply le_Finite in Hmono3.
    exists m, m'. split_and!; try done; lra.
Qed.

Lemma add_Finite p q : add (Num (Finite p)) (Num (Finite q)) = Num (fl (p + q)).
Proof. reflexivity. Qed.

(** The cost of two lists of photos, the second one as long as the first
    one at least. *)
Lemma estimate_costs (n n' : nat) photos photos' :
  length photos = n -> length photos' = n' ->
  (1 <= n <= n')%nat -> Z.of_nat n' < 2 ^ 32 ->
  exists cost cost',
    CostEstimator.estimatedCost (CostEstimator.estimate photos) = Num (Finite cost)
    /\ CostEstimator.estimatedCost (CostEstimator.estimate photos') = Num (Finite cost')
    /\ (0 <= cost <= cost')%Q
    /\ (inject_Z (6150 * Z.of_nat n + 750 * Z.of_nat (Js.ceil_div n 10)) / 1000000
          * (1 - (1 # 2 ^ 50)) <= cost)%Q
    /\ (cost <= inject_Z (6150 * Z.of_nat n + 750 * Z.of_nat (Js.ceil_div n 10)) / 1000000
                 * (1 + (1 # 2 ^ 50)))%Q.
Proof.
  intros Hn Hn' Hle Hmax.
  pose proof (ceil_div_bounds n 10 ltac:(lia)) as Hb.
  pose proof (ceil_div_bounds n' 10 ltac:(lia)) as Hb'.
  pose proof (ceil_div_mono n n' 10 ltac:(lia) ltac:(lia)) as Hbb'.
  unfold CostEstimator.estimate. rewrite Hn, Hn'.
  rewrite !decide_False by lia. cbn [CostEstimator.estimatedCost].
  unfold CostEstimator.INPUT_COST_PER_MILLION, CostEstimator.OUTPUT_COST_PER_MILLION,
    CostEstimator.of_count, CostEstimator.TOKENS_PER_THUMBNAIL,
    CostEstimator.TOKENS_PER_PHOTO_PROMPT, CostEstimator.TOKENS_PER_BATCH_PROMPT,
    CostEstimator.OUTPUT_TOKENS_PER_PHOTO, CostEstimator.BATCH_SIZE.
  rewrite of_Z_3, of_Z_15.
  set (b := Js.ceil_div n 10) in *. set (b' := Js.ceil_div n' 10) in *.
  assert (Hti : Z.of_nat (n * 1500 + (n * 50 + b * 250))
                = 1550 * Z.of_nat n + 250 * Z.of_nat b) by lia.
  assert (Hti' : Z.of_nat (n' * 1500 + (n' * 50 + b' * 250))
                 = 1550 * Z.of_nat n' + 250 * Z.of_nat b') by lia.
  assert (Hto : Z.of_nat (n * 100) = 100 * Z.of_nat n) by lia.
  assert (Hto' : Z.of_nat (n' * 100) = 100 * Z.of_nat n') by lia.
  rewrite Hti, Hti', Hto, Hto'.
  destruct (cost_of_tokens 3 (1550 * Z.of_nat n + 250 * Z.of_nat b)
              (1550 * Z.of_nat n' + 250 * Z.of_nat b'))
    as (i & i' & -> & -> & Hii' & Hi1 & Hi2 & Hi2'); [by left|lia|lia|].
  destruct (cost_of_tokens 15 (100 * Z.of_nat n) (100 * Z.of_nat n'))
    as (o & o' & -> & -> & Hoo' & Ho1 & Ho2 & Ho2'); [by right|lia|lia|].
  rewrite !add_Finite.
  assert (HN : (1 <= inject_Z (Z.of_nat n) <= inject_Z (Z.of_nat n')
                /\ inject_Z (Z.of_nat n') <= 4294967296
                /\ 1 <= inject_Z (Z.of_nat b) <= inject_Z (Z.of_nat n)
                /\ inject_Z (Z.of_nat b') <= inject_Z (Z.of_nat n'))%Q).
  { change 1%Q with (inject_Z 1). change 4294967296%Q with (inject_Z (2 ^ 32)).
    rewrite <- !Zle_Qle. lia. }
  revert HN Hi1 Hi2 Hi2' Ho1 Ho2 Ho2'.
  rewrite !inject_Z_plus, !inject_Z_mult.
  change (inject_Z 1550) with 1550%Q. change (inject_Z 250) with 250%Q.
  change (inject_Z 100) with 100%Q. change (inject_Z 6150) with 6150%Q.
  change (inject_Z 750) with 750%Q.
  generalize (inject_Z (Z.of_nat n)) (inject_Z (Z.of_nat n'))
             (inject_Z (Z.of_nat b)) (inject_Z (Z.of_nat b')).
  intros N N' B B'.
  unfold Qdiv. change (/ 1000000)%Q with (1 # 1000000)%Q.
  change (1 # 2 ^ 50) with (1 # 1125899906842624).
  intros HN Hi1 Hi2 Hi2' Ho1 Ho2 Ho2'.
  pose proof (fl_mono (i + o) (i' + o') ltac:(lra)) as Hmono.
  destruct (fl_round (i + o)) as (c & Hc & Hc1 & Hc2); [lra|].
  destruct (fl_round (i' + o')) as (c' & Hc' & Hc1' & Hc2'); [lra|].
  rewrite Hc, Hc' in Hmono |- *. apply le_Finite in Hmono.
  exists c, c'. split_and!; try done; lra.
Qed.

End CostFacts.


(** X2. The estimate depends on the number of photos only. For n photos,
    fewer than 2^32, the estimated cost is the number
    (6150 n + 750 ceil(n / 10)) / 10^6 computed in doubles: a double that
    is within 2^-50 of it, relatively, so between 0.006225 n and
    0.006225 n + 0.000675 dollars up to that error; it is not negative,
    and it does not decrease when photos are added. *)
Theorem estimate_cost_bounds (photos photos' : list Photo.t) :
  (length photos <= length photos')%nat ->
  Z.of_nat (length photos') < 2 ^ 32 ->
  exists cost cost',
    CostEstimator.estimatedCost (CostEstimator.estimate photos)
    = Double.Num (Double.Finite cost)
    /\ CostEstimator.estimatedCost (CostEstimator.estimate photos')
       = Double.Num (Double.Finite cost')
    /\ (0 <= cost <= cost')%Q
    /\ (inject_Z (6150 * Z.of_nat (length photos)
                  + 750 * Z.of_nat (Js.ceil_div (length photos) 10)) / 1000000
          * (1 - (1 # 2 ^ 50)) <= cost)%Q
    /\ (cost <= inject_Z (6150 * Z.of_nat (length photos)
                          + 750 * Z.of_nat (Js.ceil_div (length photos) 10)) / 1000000
                 * (1 + (1 # 2 ^ 50)))%Q
    /\ (inject_Z (6225 * Z.of_nat (length photos)) / 1000000 * (1 - (1 # 2 ^ 50))
        <= cost)%Q
    /\ (cost <= inject_Z (6225 * Z.of_nat (length photos) + 675) / 1000000
                 * (1 + (1 # 2 ^ 50)))%Q
    /\ (length photos = length photos' ->
        CostEstimator.estimate photos = CostEstimator.estimate photos').
Proof.
  intros Hle Hmax.
  assert (Hsame : length photos = length photos' ->
                  CostEstimator.estimate photos = CostEstimator.estimate photos').
  { intros Heq. unfold CostEstimator.estimate. by rewrite Heq. }
  assert (Hzero : forall l : list Photo.t, length l = 0%nat ->
            CostEstimator.estimatedCost (CostEstimator.estimate l)
            = Double.Num (Double.Finite 0)).
  { intros l Hl. unfold CostEstimator.estimate. rewrite Hl. vm_compute. reflexivity. }
  pose proof (ceil_div_bounds (length photos) 10 ltac:(lia)) as Hb.
  assert (Hbounds : forall cost,
    (inject_Z (6150 * Z.of_nat (length photos)
               + 750 * Z.of_nat (Js.ceil_div (length photos) 10)) / 1000000
       * (1 - (1 # 2 ^ 50)) <= cost)%Q ->
    (cost <= inject_Z (6150 * Z.of_nat (length photos)
                       + 750 * Z.of_nat (Js.ceil_div (length photos) 10)) / 1000000
              * (1 + (1 # 2 ^ 50)))%Q ->
    (inject_Z (6225 * Z.of_nat (length photos)) / 1000000 * (1 - (1 # 2 ^ 50))
     <= cost)%Q
    /\ (cost <= inject_Z (6225 * Z.of_nat (length photos) + 675) / 1000000
                 * (1 + (1 # 2 ^ 50)))%Q).
  { intros cost H1 H2.
    assert (Hlo : (inject_Z (6225 * Z.of_nat (length photos))
                   <= inject_Z (6150 * Z.of_nat (length photos)
                        + 750 * Z.of_nat (Js.ceil_div (length photos) 10)))%Q)
      by (rewrite <- Zle_Qle; lia).
    assert (Hhi : (inject_Z (6150 * Z.of_nat (length photos)
                        + 750 * Z.of_nat (Js.ceil_div (length photos) 10))
                   <= inject_Z (6225 * Z.of_nat (length photos) + 675))%Q)
      by (rewrite <- Zle_Qle; lia).
    revert H1 H2 Hlo Hhi.
    generalize (inject_Z (6225 * Z.of_nat (length photos) + 675)).
    generalize (inject_Z (6225 * Z.of_nat (length photos))).
    generalize (inject_Z (6150 * Z.of_nat (length photos)
                  + 750 * Z.of_nat (Js.ceil_div (length photos) 10))).
    intros E L U. unfold Qdiv. change (/ 1000000)%Q with (1 # 1000000)%Q.
    change (1 # 2 ^ 50) with (1 # 1125899906842624). intros. lra. }
  destruct (decide (length photos = 0%nat)) as [Hn|Hn].
  - assert (Hexact : 6150 * Z.of_nat (length photos)
                     + 750 * Z.of_nat (Js.ceil_div (length photos) 10) = 0).
    { rewrite Hn in *. lia. }
    assert (H1 : (inject_Z (6150 * Z.of_nat (length photos)
                    + 750 * Z.of_nat (Js.ceil_div (length photos) 10)) / 1000000
                  * (1 - (1 # 2 ^ 50)) <= 0)%Q) by (by rewrite Hexact).
    assert (H2 : (0 <= inject_Z (6150 * Z.of_nat (length photos)
                    + 750 * Z.of_nat (Js.ceil_div (length photos) 10)) / 1000000
                  * (1 + (1 # 2 ^ 50)))%Q) by (by rewrite Hexact).
    destruct (Hbounds 0%Q H1 H2) as [H3 H4].
    destruct (decide (length photos' = 0%nat)) as [Hn'|Hn'].
    + exists 0%Q, 0%Q. rewrite !Hzero by done. split_and!; done.
    + destruct (estimate_costs (length photos') (length photos') photos' photos')
        as (c' & _ & Hc' & _ & [Hpos _] & _); [done|done|lia|done|].
      exists 0%Q, c'. rewrite (Hzero photos) by done. split_and!; done.
  - destruct (estimate_costs (length photos) (length photos') photos photos')
      as (c & c' & Hc & Hc' & [Hp1 Hp2] & H1 & H2); [done|done|lia|done|].
    destruct (Hbounds c H1 H2) as [H3 H4].
    exists c, c'. split_and!; done.
Qed.

Lemma estimate_cost_bounds_witness :
  (length (replicate 65 (Stub.photo 1 "t")) <= length (replicate 66 (Stub.photo 1 "t")))%nat
  /\ Z.of_nat (length (replicate 66 (Stub.photo 1 "t"))) < 2 ^ 32
  /\ exists cost,
       CostEstimator.estimatedCost
         (CostEstimator.estimate (replicate 65 (Stub.photo 1 "t")))
       = Double.Num (Double.Finite cost)
       /\ (0 <= cost)%Q.
Proof.
  assert (H1 : (length (replicate 65 (Stub.photo 1 "t"))
                <= length (replicate 66 (Stub.photo 1 "t")))%nat)
    by (rewrite !length_replicate; lia).
  assert (H2 : Z.of_nat (length (replicate 66 (Stub.photo 1 "t"))) < 2 ^ 32)
    by (rewrite length_replicate; lia).
  split; [exact H1|]. split; [exact H2|].
  destruct (estimate_cost_bounds _ _ H1 H2) as (cost & cost' & Hc & _ & [Hpos _] & _).
  exists cost. by split.
Defined.

(** The cost of 65 photos is the double below 0.405, and it is shown as
    $0.40. *)
Example estimate_of_65_photos :
  let e := CostEstimator.estimate (replicate 65 (Stub.photo 1 "t")) in
  CostEstimator.estimatedCost e
  = Double.Num (Double.Finite (7295831396340203 # 18014398509481984))
  /\ (7295831396340203 # 18014398509481984 < 405 # 1000)%Q
  /\ CostEstimator.formattedCost e = "$0.40".
Proof. vm_compute. repeat split. Qed.

Example estimate_of_ten_photos :
  let e := CostEstimator.estimate (replicate 10 (Stub.photo 1 "t")) in
  CostEstimator.batchCount e = 1%nat
  /\ Z.of_nat (CostEstimator.estimatedInputTokens e) = 15750
  /\ Z.of_nat (CostEstimator.estimatedOutputTokens e) = 1000
  /\ CostEstimator.formattedCost e = "$0.06".
Proof. vm_compute. repeat split. Qed.

(** ** The score filter of the project view *)

(** X3. Whatever the user does to the two sliders of the score filter and
    to its reset button, from the first render on, the minimum of the
    filter is not above its maximum. *)
Theorem filter_stays_ordered (events : list ProjectView.FilterEvent) :
  let f := foldl ProjectView.onFilterEvent ProjectView.initialFilter events in
  (ProjectView.minScoreFilter f <= ProjectView.maxScoreFilter f)%Q.
Proof.
  induction events as [|e events IH] using rev_ind; simpl; [done|].
  rewrite foldl_app. simpl.
  destruct e as [val|val|]; simpl.
  - destruct (Qlt_le_dec _ val); [apply Qle_refl|done].
  - destruct (Qlt_le_dec val _); [apply Qle_refl|done].
  - done.
Qed.

(** ** The prompt templates *)

Section Templates.
Import Database.


Lemma migrations_insert n p b db : migrations (insert_template n p b db) = migrations db.
Proof. done. Qed.




Example first_start_inserts_the_presets :
  let db := runMigrations (mk [] [] 1 0) in
  migrations db = ["001_initial_schema"; "002_default_templates"]
  /\ name <$> prompt_templates db
     = ["Candid Moments"; "Technical Quality"; "Family Photos"; "Portrait Focus"]
  /\ is_preset <$> prompt_templates db = [true; true; true; true]
  /\ id <$> prompt_templates db = [1; 2; 3; 4].
Proof. vm_compute. repeat split. Qed.

Lemma filter_fmap_same {A} (P : A -> Prop) `{!forall x, Decision (P x)} (f : A -> A) (l : list A) :
  (forall x, f x = x \/ (~ P x /\ ~ P (f x))) -> filter P (f <$> l) = filter P l.
Proof.
  intros Hf. induction l as [|x l IH]; [done|]. rewrite fmap_cons.
  destruct (Hf x) as [->|[Hx Hfx]].
  - destruct (decide (P x)).
    + rewrite !filter_cons_True by done. by rewrite IH.
    + rewrite !filter_cons_False by done. by rewrite IH.
  - rewrite !filter_cons_False by done. by rewrite IH.
Qed.

Lemma filter_filter_same {A} (P Q : A -> Prop) `{!forall x, Decision (P x)}
    `{!forall x, Decision (Q x)} (l : list A) :
  (forall x, P x -> Q x) -> filter P (filter Q l) = filter P l.
Proof.
  intros HPQ. induction l as [|x l IH]; [done|].
  destruct (decide (Q x)) as [Hq|Hq].
  - rewrite (filter_cons_True Q) by done.
    destruct (decide (P x)).
    + rewrite !filter_cons_True by done. by rewrite IH.
    + rewrite !filter_cons_False by done. by rewrite IH.
  - rewrite (filter_cons_False Q) by done.
    rewrite (filter_cons_False P x l); [done|]. intros Hp. by apply Hq, HPQ.
Qed.

Lemma handle_keeps_presets db request :
  filter (fun row => is_preset row = true) (prompt_templates (handle db request))
  = filter (fun row => is_preset row = true) (prompt_templates db).
Proof.
  assert (Hinsert : forall n p,
    filter (fun row => is_preset row = true)
           (prompt_templates (insert_template n p false db))
    = filter (fun row => is_preset row = true) (prompt_templates db)).
  { intros n p. simpl. rewrite filter_app, filter_cons_False by done.
    by rewrite filter_nil, app_nil_r. }
  destruct request as [template|tid]; simpl.
  - unfold save_prompt_template.
    destruct (input_id template) as [tid|]; [|apply Hinsert].
    destruct (decide (tid = 0)); [apply Hinsert|]. simpl.
    apply filter_fmap_same. intros row.
    destruct (decide (id row = tid /\ is_preset row = false)) as [[_ Hp]|Hn]; [|by left].
    right. simpl. rewrite Hp. done.
  - apply filter_filter_same. intros row Hp [_ Hf]. congruence.
Qed.

(** X5. The handlers that save and delete prompt templates never touch a
    preset: after any sequence of requests the preset rows of the table are
    the ones it had, unchanged and in the same order, and no request adds
    one. *)
Theorem presets_are_kept (db : Database.t) (requests : list TemplateRequest) :
  filter (fun row => is_preset row = true)
         (prompt_templates (foldl handle db requests))
  = filter (fun row => is_preset row = true) (prompt_templates db).
Proof.
  revert db. induction requests as [|request requests IH]; intros db; simpl; [done|].
  by rewrite IH, handle_keeps_presets.
Qed.

End Templates.

(** ** The grouped view *)

Section GroupedView.
Import ProjectView.

(** *** Array.prototype.sort *)

Lemma insert_Permutation {A} (compare : A -> A -> Q) x (l : list A) :
  JsArray.insert compare x l ≡ₚ x :: l.
Proof.
  induction l as [|y l IH]; simpl; [done|].
  destruct (Qle_bool _ 0); [done|]. rewrite IH. apply Permutation_swap.
Qed.

Lemma sort_Permutation {A} (compare : A -> A -> Q) (l : list A) :
  JsArray.sort compare l ≡ₚ l.
Proof.
  induction l as [|x l IH]; simpl; [done|].
  rewrite insert_Permutation. by rewrite IH.
Qed.

Lemma by_score_le a b : Qle_bool (by_score a b) 0 = true <-> score_ge a b.
Proof. unfold by_score, score_ge. apply difference_le. Qed.

Lemma insert_sorted x l :
  StronglySorted score_ge l -> StronglySorted score_ge (JsArray.insert by_score x l).
Proof.
  induction 1 as [|y l Hsorted IH Hall]; simpl.
  - repeat constructor.
  - destruct (Qle_bool (by_score x y) 0) eqn:Hxy.
    + apply by_score_le in Hxy. constructor; [by constructor|].
      constructor; [done|].
      eapply Forall_impl; [exact Hall|]. intros z Hz. unfold score_ge in *.
      eapply real_le_trans; [exact Hz|exact Hxy].
    + constructor; [done|].
      rewrite insert_Permutation. constructor; [|done].
      unfold score_ge. destruct (leb_total (score_or x) (score_or y)) as [|Hle]; [done|].
      assert (Qle_bool (by_score x y) 0 = true) by by apply by_score_le.
      congruence.
Qed.

Lemma sort_sorted l : StronglySorted score_ge (JsArray.sort by_score l).
Proof.
  induction l as [|x l IH]; simpl; [constructor|]. by apply insert_sorted.
Qed.

(** *** The best photo of a group *)

Lemma reduce_better_snoc l b :
  l <> [] ->
  JsArray.reduce better (l ++ [b])
  = (fun a => better a b) <$> JsArray.reduce better l.
Proof.
  destruct l as [|x l]; [done|]. intros _. simpl. by rewrite foldl_app.
Qed.

(** The result of group.reduce(better) is a photo of the group with the
    greatest score, the last one of those that have it. *)
Lemma reduce_better_last group :
  group <> [] ->
  exists best before after,
    JsArray.reduce better group = Some best
    /\ group = before ++ best :: after
    /\ (forall q, q ∈ before -> Double.le (score_or q) (score_or best))
    /\ (forall q, q ∈ after -> Double.lt (score_or q) (score_or best)).
Proof.
  induction group as [|b group IH] using rev_ind; [done|]. intros _.
  destruct group as [|x group].
  - exists b, [], []. split_and!; try done; intros q Hq; by apply elem_of_nil in Hq.
  - destruct IH as (best & before & after & Hred & Hgroup & Hbefore & Hafter); [done|].
    rewrite reduce_better_snoc, Hred by done. simpl. unfold better.
    destruct (Double.ltb (score_or b) (score_or best)) eqn:Hlt.
    + exists best, before, (after ++ [b]). split_and!; try done.
      * replace (before ++ best :: after ++ [b])
          with ((before ++ best :: after) ++ [b]) by (by rewrite <- app_assoc).
        by rewrite <- Hgroup.
      * intros q [Hq|Hq]%elem_of_app; [by apply Hafter|].
        apply list_elem_of_singleton in Hq as ->. done.
    + assert (Hle : Double.le (score_or best) (score_or b)).
      { unfold Double.ltb in Hlt. by apply negb_false_iff in Hlt. }
      exists b, (x :: group), []. split_and!; try done.
      * intros q Hq. rewrite Hgroup in Hq.
        apply elem_of_app in Hq as [Hq|Hq];
          [eapply real_le_trans; [by apply Hbefore|done]|].
        apply elem_of_cons in Hq as [->|Hq]; [done|].
        eapply real_le_trans; [apply real_lt_le, Hafter, Hq|done].
      * intros q Hq. by apply elem_of_nil in Hq.
Qed.

(** *** The first loop of getGroupedPhotos *)

Lemma map_get_set key value m key' :
  map_get key' (map_set key value m)
  = if decide (key = key') then Some value else map_get key' m.
Proof.
  induction m as [|[k v] m IH]; simpl.
  - destruct (decide (key = key')); [done|]. done.
  - destruct (decide (k = key)) as [->|Hk]; simpl.
    + destruct (decide (key = key')); done.
    + destruct (decide (k = key')) as [->|Hk'].
      * by rewrite decide_False by done.
      * by rewrite IH.
Qed.

Lemma map_get_elem_of key value m :
  NoDup m.*1 -> (key, value) ∈ m <-> map_get key m = Some value.
Proof.
  induction m as [|[k v] m IH]; simpl.
  - intros _. split; [by intros ?%elem_of_nil|done].
  - intros [Hk Hm]%NoDup_cons. specialize (IH Hm).
    destruct (decide (k = key)) as [->|Hne].
    + split.
      * intros [[= ->]|Hin]%elem_of_cons; [done|].
        exfalso. apply Hk. apply list_elem_of_fmap. by exists (key, value).
      * intros [= ->]. left.
    + rewrite <- IH. split.
      * intros [[= ? ?]|Hin]%elem_of_cons; [done|done].
      * intros Hin. by right.
Qed.

Lemma map_set_keys key value m :
  (map_set key value m).*1 = if decide (key ∈ m.*1) then m.*1 else m.*1 ++ [key].
Proof.
  induction m as [|[k v] m IH]; cbn [map_set].
  - case_decide as H; [by apply elem_of_nil in H|done].
  - destruct (decide (k = key)) as [->|Hne]; rewrite !fmap_cons; cbn [fst].
    + clear IH. case_decide as Hn; [done|]. exfalso. apply Hn. left.
    + rewrite IH. clear IH. repeat case_decide; try done.
      * exfalso. match goal with H : _ ∉ _ :: _ |- _ => apply H end. by right.
      * match goal with H : _ ∈ _ :: _ |- _ => apply elem_of_cons in H as [?|?] end; done.
Qed.

Lemma sum_lengths_cons {A B} (x : A * list B) (m : list (A * list B)) :
  sum_list (length <$> (x :: m).*2) = (length x.2 + sum_list (length <$> m.*2))%nat.
Proof. done. Qed.

Lemma map_get_length key m :
  (length (default [] (map_get key m)) <= sum_list (length <$> m.*2))%nat.
Proof.
  induction m as [|[k v] m IH]; [simpl; lia|].
  rewrite sum_lengths_cons. cbn [map_get snd].
  destruct (decide (k = key)); simpl; lia.
Qed.

Lemma map_set_lengths key value m :
  sum_list (length <$> (map_set key value m).*2)
  = (sum_list (length <$> m.*2) + length value
     - length (default [] (map_get key m)))%nat.
Proof.
  induction m as [|[k v] m IH]; [simpl; lia|].
  cbn [map_set map_get].
  destruct (decide (k = key)) as [->|Hne]; rewrite !sum_lengths_cons; cbn [snd default].
  - simpl. lia.
  - rewrite IH. pose proof (map_get_length key m). lia.
Qed.

Lemma group_of_snoc g photos p :
  group_of g (photos ++ [p])
  = group_of g photos ++ (if decide (truthy_group p = Some g) then [p] else []).
Proof.
  unfold group_of. rewrite filter_app. f_equal.
Qed.

(** What the first loop leaves in groupedMap and in ungrouped. *)
Lemma classify_spec photos :
  let (groupedMap, ungrouped') := foldl classify ([], []) photos in
  ungrouped' = ungrouped photos
  /\ NoDup groupedMap.*1
  /\ (forall g, map_get g groupedMap
                = if decide (group_of g photos = []) then None
                  else Some (group_of g photos))
  /\ (sum_list (length <$> groupedMap.*2) + length ungrouped' = length photos)%nat.
Proof.
  induction photos as [|p photos IH] using rev_ind.
  - simpl. split_and!; try done. constructor.
  - rewrite foldl_app. simpl.
    destruct (foldl classify ([], []) photos) as [gm ung].
    destruct IH as (Hung & Hnodup & Hget & Hsum).
    unfold classify. destruct (truthy_group p) as [id|] eqn:Hp.
    + assert (Hgroup : default [] (map_get id gm) = group_of id photos).
      { rewrite Hget. by destruct (decide (group_of id photos = [])) as [->|]. }
      split_and!.
      * rewrite Hung. unfold ungrouped. rewrite filter_app, filter_cons_False; [|by rewrite Hp].
        by rewrite filter_nil, app_nil_r.
      * rewrite map_set_keys. destruct (decide (id ∈ gm.*1)); [done|].
        apply NoDup_app. split_and!; [done| |apply NoDup_singleton].
        intros k Hk ->%list_elem_of_singleton. done.
      * intros g. rewrite map_get_set, group_of_snoc, Hp.
        destruct (decide (id = g)) as [->|Hne].
        -- destruct (decide (Some g = Some g)) as [_|]; [|done].
           rewrite Hgroup.
           destruct (decide (group_of g photos ++ [p] = [])) as [Heq|]; [|done].
           by apply app_eq_nil in Heq as [_ ?].
        -- destruct (decide (Some id = Some g)) as [[= ?]|_]; [done|].
           rewrite app_nil_r. apply Hget.
      * rewrite map_set_lengths, Hgroup, !length_app. simpl.
        pose proof (map_get_length id gm) as Hle. rewrite Hgroup in Hle. lia.
    + split_and!; try done.
      * rewrite Hung. unfold ungrouped. rewrite filter_app, filter_cons_True by done. done.
      * intros g. rewrite group_of_snoc, Hp.
        destruct (decide (None = Some g)) as [|_]; [done|].
        rewrite app_nil_r. apply Hget.
      * rewrite !length_app. simpl. lia.
Qed.

(** *** The cards *)

(** What getGroupedPhotos returns: the cards are the best photo of each
    group, one for each entry of groupedMap, and the photos without a group,
    sorted. *)
Lemma getGroupedPhotos_spec photos :
  exists (groupedMap : GroupedMap) (bestFromGroups : list Photo.t),
    getGroupedPhotos photos
    = Some (JsArray.sort by_score (bestFromGroups ++ ungrouped photos))
    /\ NoDup groupedMap.*1
    /\ (sum_list (length <$> groupedMap.*2) + length (ungrouped photos) = length photos)%nat
    /\ (forall g, g ∈ groupedMap.*1 <-> group_of g photos <> [])
    /\ Forall2 (fun entry best =>
                  entry.2 = group_of entry.1 photos
                  /\ exists before after,
                       entry.2 = before ++ best :: after
                       /\ (forall q, q ∈ before -> Double.le (score_or q) (score_or best))
                       /\ (forall q, q ∈ after -> Double.lt (score_or q) (score_or best)))
               groupedMap bestFromGroups.
Proof.
  unfold getGroupedPhotos. pose proof (classify_spec photos) as Hspec.
  destruct (foldl classify ([], []) photos) as [gm ung].
  destruct Hspec as (-> & Hnodup & Hget & Hsum).
  assert (Hentries : forall k v, (k, v) ∈ gm -> v = group_of k photos /\ v <> []).
  { intros k v Hin. apply map_get_elem_of in Hin; [|done]. rewrite Hget in Hin.
    destruct (decide (group_of k photos = [])); [done|]. by injection Hin as <-. }
  assert (Hbests : exists bests,
    mapM (JsArray.reduce better) gm.*2 = Some bests
    /\ Forall2 (fun entry best =>
                  entry.2 = group_of entry.1 photos
                  /\ exists before after,
                       entry.2 = before ++ best :: after
                       /\ (forall q, q ∈ before -> Double.le (score_or q) (score_or best))
                       /\ (forall q, q ∈ after -> Double.lt (score_or q) (score_or best)))
               gm bests).
  { clear Hnodup Hget Hsum. induction gm as [|[k v] gm IH].
    - exists []. split; [done|constructor].
    - destruct IH as (bests & Hmap & Hall).
      { intros k' v' Hin. apply Hentries. by right. }
      destruct (Hentries k v) as [Hv Hne]; [left|].
      destruct (reduce_better_last v Hne) as (best & before & after & Hred & Hsplit & Hb & Ha).
      exists (best :: bests). split.
      + rewrite fmap_cons. cbn [mapM snd]. rewrite Hred. simpl. by rewrite Hmap.
      + constructor; [|done]. simpl. split; [done|]. by exists before, after. }
  destruct Hbests as (bests & Hmap & Hall).
  exists gm, bests. rewrite Hmap. simpl. split_and!; try done.
  intros g. split.
  - intros Hin. apply list_elem_of_fmap in Hin as ([k v] & -> & Hin). simpl.
    destruct (Hentries k v Hin) as [<- Hne]. done.
  - intros Hne. specialize (Hget g). rewrite decide_False in Hget by done.
    apply map_get_elem_of in Hget; [|done].
    apply list_elem_of_fmap. by exists (g, group_of g photos).
Qed.

End GroupedView.

Section GroupedCards.
Import ProjectView.

Lemma ungrouped_group_of g photos : ungrouped (group_of g photos) = [].
Proof.
  unfold ungrouped, group_of. induction photos as [|p photos IH]; [done|].
  destruct (decide (truthy_group p = Some g)) as [Hp|Hp].
  - rewrite (filter_cons_True (fun p => truthy_group p = Some g)) by done.
    rewrite filter_cons_False; [done|]. by rewrite Hp.
  - by rewrite (filter_cons_False (fun p => truthy_group p = Some g)) by done.
Qed.

Lemma group_of_ungrouped g photos : group_of g (ungrouped photos) = [].
Proof.
  unfold ungrouped, group_of. induction photos as [|p photos IH]; [done|].
  destruct (decide (truthy_group p = None)) as [Hp|Hp].
  - rewrite (filter_cons_True (fun p => truthy_group p = None)) by done.
    rewrite filter_cons_False; [done|]. by rewrite Hp.
  - by rewrite (filter_cons_False (fun p => truthy_group p = None)) by done.
Qed.

Lemma elem_of_group_of g photos p :
  p ∈ group_of g photos <-> p ∈ photos /\ truthy_group p = Some g.
Proof. unfold group_of. rewrite list_elem_of_filter. tauto. Qed.

Lemma best_of_group photos entry best :
  best_of photos entry best -> best ∈ photos /\ truthy_group best = Some entry.1.
Proof.
  intros (Hentry & before & after & Hsplit & _).
  apply (elem_of_group_of entry.1). rewrite <- Hentry, Hsplit.
  apply elem_of_app. right. left.
Qed.

Lemma bests_ungrouped photos (groupedMap : GroupedMap) bests :
  Forall2 (best_of photos) groupedMap bests -> ungrouped bests = [].
Proof.
  induction 1 as [|entry best gm bests Hbest _ IH]; [done|].
  apply best_of_group in Hbest as [_ Hg].
  unfold ungrouped in *. rewrite filter_cons_False; [done|]. by rewrite Hg.
Qed.

Lemma bests_group_of photos (groupedMap : GroupedMap) bests g :
  Forall2 (best_of photos) groupedMap bests ->
  NoDup groupedMap.*1 ->
  length (group_of g bests) = if decide (g ∈ groupedMap.*1) then 1%nat else 0%nat.
Proof.
  induction 1 as [|entry best gm bests Hbest _ IH].
  - intros _. case_decide as H; [by apply elem_of_nil in H|done].
  - rewrite fmap_cons. intros [Hnotin Hnodup]%NoDup_cons. specialize (IH Hnodup).
    apply best_of_group in Hbest as [_ Hg]. unfold group_of in *.
    destruct (decide (entry.1 = g)) as [<-|Hne].
    + rewrite filter_cons_True by done. cbn [length]. rewrite IH.
      rewrite decide_False by done. rewrite decide_True; [done|]. left.
    + rewrite filter_cons_False by congruence. rewrite IH.
      destruct (decide (g ∈ gm.*1)) as [Hin|Hnin].
      * rewrite decide_True; [done|]. by right.
      * rewrite decide_False; [done|]. intros [?|?]%elem_of_cons; done.
Qed.

(** X6. getGroupedPhotos never throws. Its cards are the photos that have
    no group (a group id that is null or 0), each one once, and one photo
    of each group that has a photo in the list; they are photos of the
    list, sorted by decreasing score, a null score counting as -1. *)
Theorem getGroupedPhotos_cards (photos : list Photo.t) :
  exists cards,
    getGroupedPhotos photos = Some cards
    /\ ungrouped cards ≡ₚ ungrouped photos
    /\ (forall g, length (group_of g cards)
                  = if decide (group_of g photos = []) then 0%nat else 1%nat)
    /\ (forall p, p ∈ cards -> p ∈ photos)
    /\ StronglySorted score_ge cards.
Proof.
  destruct (getGroupedPhotos_spec photos)
    as (gm & bests & Hcards & Hnodup & _ & Hkeys & Hbests).
  fold (best_of photos) in Hbests.
  eexists. split; [exact Hcards|].
  assert (Hperm : JsArray.sort by_score (bests ++ ungrouped photos)
                  ≡ₚ bests ++ ungrouped photos) by apply sort_Permutation.
  split_and!.
  - unfold ungrouped at 1. rewrite Hperm, filter_app.
    fold (ungrouped bests). rewrite (bests_ungrouped photos gm) by done.
    unfold ungrouped. by rewrite list_filter_filter_l by tauto.
  - intros g. unfold group_of at 1. rewrite Hperm, filter_app, length_app.
    fold (group_of g bests) (group_of g (ungrouped photos)).
    rewrite group_of_ungrouped, (bests_group_of photos gm) by done. simpl.
    rewrite Nat.add_0_r.
    destruct (decide (g ∈ gm.*1)) as [Hin|Hnin].
    + apply Hkeys in Hin. by rewrite decide_False.
    + destruct (decide (group_of g photos = [])) as [|Hne]; [done|].
      by apply Hkeys in Hne.
  - intros p Hp. rewrite Hperm in Hp. apply elem_of_app in Hp as [Hp|Hp].
    + apply list_elem_of_lookup in Hp as [i Hi].
      destruct (Forall2_lookup_r _ _ _ _ _ Hbests Hi) as (entry & _ & Hbest).
      by apply best_of_group in Hbest as [? _].
    + unfold ungrouped in Hp. by apply list_elem_of_filter in Hp as [_ ?].
  - apply sort_sorted.
Qed.

(** X7. The card of a group is its best photo: a photo of the group whose
    score no photo of the group exceeds, and the last one of the list among
    those of the group with that score. *)
Theorem getGroupedPhotos_best (photos : list Photo.t) :
  exists cards,
    getGroupedPhotos photos = Some cards
    /\ forall card g,
         card ∈ cards -> truthy_group card = Some g ->
         exists before after,
           group_of g photos = before ++ card :: after
           /\ (forall q, q ∈ before -> Double.le (score_or q) (score_or card))
           /\ (forall q, q ∈ after -> Double.lt (score_or q) (score_or card)).
Proof.
  destruct (getGroupedPhotos_spec photos)
    as (gm & bests & Hcards & Hnodup & _ & Hkeys & Hbests).
  fold (best_of photos) in Hbests.
  eexists. split; [exact Hcards|]. intros card g Hcard Hg.
  rewrite sort_Permutation in Hcard. apply elem_of_app in Hcard as [Hcard|Hcard].
  - apply list_elem_of_lookup in Hcard as [i Hi].
    destruct (Forall2_lookup_r _ _ _ _ _ Hbests Hi) as (entry & _ & Hbest).
    pose proof (best_of_group _ _ _ Hbest) as [_ Hentry].
    rewrite Hg in Hentry. injection Hentry as ->.
    destruct Hbest as (Hgroup & before & after & Hsplit & Hb & Ha).
    exists before, after. by rewrite <- Hgroup.
  - unfold ungrouped in Hcard. apply list_elem_of_filter in Hcard as [Hnone _]. congruence.
Qed.

Lemma getGroupSize_group photos p g :
  truthy_group p = Some g -> getGroupSize photos p = length (group_of g photos).
Proof.
  intros Hg. unfold getGroupSize, group_of. rewrite Hg.
  unfold truthy_group in Hg.
  destruct (Photo.similarity_group_id p) as [g'|] eqn:Hid; [|done].
  destruct (decide (g' = 0)) as [|Hg0]; [done|]. injection Hg as <-.
  f_equal. apply list_filter_iff. intros q. unfold truthy_group.
  destruct (Photo.similarity_group_id q) as [g''|]; [|done].
  destruct (decide (g'' = 0)) as [->|]; [|done].
  split; [intros [= ?]|intros ?]; done.
Qed.

Lemma getGroupSize_best photos entry best :
  best_of photos entry best -> getGroupSize photos best = length entry.2.
Proof.
  intros Hbest. pose proof (best_of_group _ _ _ Hbest) as [_ Hg].
  destruct Hbest as [-> _]. by apply getGroupSize_group.
Qed.

(** The group sizes of the cards of a list, counted in that list, add up
    to the length of the list. *)
Lemma group_sizes_add_up photos :
  exists cards,
    getGroupedPhotos photos = Some cards
    /\ sum_list (getGroupSize photos <$> cards) = length photos.
Proof.
  destruct (getGroupedPhotos_spec photos)
    as (gm & bests & Hcards & Hnodup & Hsum & Hkeys & Hbests).
  fold (best_of photos) in Hbests.
  eexists. split; [exact Hcards|].
  rewrite sort_Permutation, fmap_app, sum_list_with_app, <- Hsum. f_equal.
  - clear Hnodup Hsum Hkeys Hcards.
    induction Hbests as [|entry best gm bests Hbest _ IH]; [done|].
    rewrite !fmap_cons. cbn [sum_list_with]. rewrite IH.
    by rewrite (getGroupSize_best photos entry best).
  - rewrite (sum_list_fmap_same 1); [lia|].
    apply Forall_forall. intros p Hp. unfold ungrouped in Hp.
    apply list_elem_of_filter in Hp as [Hp _]. unfold getGroupSize. by rewrite Hp.
Qed.

Lemma length_filter_sublist {A} (P : A -> Prop) `{!forall x, Decision (P x)} (l1 l2 : list A) :
  sublist l1 l2 -> (length (filter P l1) <= length (filter P l2))%nat.
Proof.
  induction 1 as [|x l1 l2 _ IH|x l1 l2 _ IH]; [done| |].
  - rewrite !filter_cons. destruct (decide (P x)); simpl; lia.
  - rewrite filter_cons. destruct (decide (P x)); simpl; lia.
Qed.

(** The size of a group grows with the list in which it is counted. *)
Lemma getGroupSize_sublist photos allPhotos p :
  sublist photos allPhotos -> (getGroupSize photos p <= getGroupSize allPhotos p)%nat.
Proof.
  intros Hsub. unfold getGroupSize. destruct (truthy_group p); [|done].
  by apply length_filter_sublist.
Qed.

Lemma filteredByScore_sublist f allPhotos : sublist (filteredByScore f allPhotos) allPhotos.
Proof.
  unfold filteredByScore. destruct (hasScoreFilter f); [|done].
  induction allPhotos as [|p l IH]; simpl; [done|].
  destruct (inFilter f p); by constructor.
Qed.

Lemma sum_list_fmap_le {A} (f g : A -> nat) (l : list A) :
  (forall x, x ∈ l -> (f x <= g x)%nat) ->
  (sum_list (f <$> l) <= sum_list (g <$> l))%nat.
Proof.
  induction l as [|x l IH]; intros Hle; [done|].
  rewrite !fmap_cons. cbn [sum_list_with].
  pose proof (Hle x ltac:(left)).
  assert (sum_list (f <$> l) <= sum_list (g <$> l))%nat
    by (apply IH; intros y Hy; apply Hle; by right).
  unfold id at 1 3. lia.
Qed.

(** The photos of a list that have a group. *)
Lemma length_grouped photos :
  (length (ungrouped photos)
   + length (filter (fun p => truthy_group p <> None) photos))%nat
  = length photos.
Proof.
  unfold ungrouped. induction photos as [|p l IH]; [done|].
  rewrite !filter_cons. destruct (decide (truthy_group p = None)) as [Hp|Hp].
  - rewrite decide_False by (by intros ?). simpl. lia.
  - rewrite decide_True by done. simpl. lia.
Qed.

(** Distinct groups share no photo: their sizes add up to the number of
    photos that have a group, at most. *)
Lemma groups_disjoint (gs : list Z) photos :
  NoDup gs ->
  (sum_list ((fun g => length (group_of g photos)) <$> gs)
   <= length (filter (fun p => truthy_group p <> None) photos))%nat.
Proof.
  intros Hnodup. induction photos as [|p l IH].
  - rewrite (sum_list_fmap_same 0); [simpl; lia|]. by apply Forall_forall.
  - assert (Hstep : (sum_list ((fun g => length (group_of g (p :: l))) <$> gs)
                     <= sum_list ((fun g => length (group_of g l)) <$> gs)
                        + (if decide (truthy_group p = None) then 0 else 1))%nat).
    { clear IH. induction Hnodup as [|g gs Hnotin Hnodup IH]; [simpl; lia|].
      rewrite !fmap_cons. cbn [sum_list_with]. unfold id at 1 3.
      unfold group_of at 1. rewrite filter_cons. fold (group_of g l).
      destruct (decide (truthy_group p = Some g)) as [Hp|Hp].
      - assert (Hrest : sum_list ((fun g => length (group_of g (p :: l))) <$> gs)
                        = sum_list ((fun g => length (group_of g l)) <$> gs)).
        { f_equal. apply list_fmap_ext. intros i g' Hg'.
          unfold group_of. rewrite filter_cons_False; [done|].
          rewrite Hp. intros [= ->]. apply Hnotin. by eapply list_elem_of_lookup_2. }
        rewrite Hrest, decide_False by (by rewrite Hp).
        simpl. lia.
      - lia. }
    rewrite filter_cons. destruct (decide (truthy_group p = None)) as [Hp|Hp].
    + rewrite decide_False by (by intros ?). lia.
    + rewrite decide_True by done. simpl. lia.
Qed.

Lemma bests_sizes photos allPhotos (groupedMap : GroupedMap) bests :
  Forall2 (best_of photos) groupedMap bests ->
  sum_list (getGroupSize allPhotos <$> bests)
  = sum_list ((fun g => length (group_of g allPhotos)) <$> groupedMap.*1).
Proof.
  induction 1 as [|entry best gm bests Hbest _ IH]; [done|].
  rewrite !fmap_cons. cbn [sum_list_with fst]. unfold id at 1 3.
  rewrite IH, (getGroupSize_group allPhotos best entry.1); [done|].
  by apply best_of_group in Hbest as [_ ?].
Qed.

(** X8. In the grouped view, the grid shows the cards of the photos that
    pass the score filter, and each card shows the size of its group
    counted among all the photos of the project, not among the filtered
    ones: 1 for a photo without a group, the number of the photos of the
    project with its group id for another one. The sizes shown add up to
    the number of the filtered photos at least and to the number of the
    photos of the project at most; with no score filter, every photo of
    the project is counted by exactly one card. *)
Theorem grouped_view_counts_every_photo (f : ScoreFilter) (allPhotos : list Photo.t) :
  exists cards,
    shown ViewGrouped f allPhotos = Some cards
    /\ (forall card, card ∈ cards ->
          getGroupSize allPhotos card
          = match truthy_group card with
            | Some g => length (group_of g allPhotos)
            | None => 1%nat
            end)
    /\ (length (filteredByScore f allPhotos)
        <= sum_list (getGroupSize allPhotos <$> cards))%nat
    /\ (sum_list (getGroupSize allPhotos <$> cards) <= length allPhotos)%nat
    /\ (hasScoreFilter f = false ->
        sum_list (getGroupSize allPhotos <$> cards) = length allPhotos).
Proof.
  set (photos := filteredByScore f allPhotos).
  pose proof (filteredByScore_sublist f allPhotos) as Hsub. fold photos in Hsub.
  destruct (group_sizes_add_up photos) as (cards & Hcards & Hsum).
  exists cards. split; [exact Hcards|]. split_and!.
  - intros card _. destruct (truthy_group card) as [g|] eqn:Hg.
    + by apply getGroupSize_group.
    + unfold getGroupSize. by rewrite Hg.
  - rewrite <- Hsum. apply sum_list_fmap_le. intros card _.
    by apply getGroupSize_sublist.
  - destruct (getGroupedPhotos_spec photos)
      as (gm & bests & Hcards' & Hnodup & _ & _ & Hbests).
    fold (best_of photos) in Hbests.
    rewrite Hcards in Hcards'. injection Hcards' as ->.
    rewrite sort_Permutation, fmap_app, sum_list_with_app.
    rewrite <- (length_grouped allPhotos).
    assert (Hungrouped : sum_list_with id (getGroupSize allPhotos <$> ungrouped photos)
                         = length (ungrouped photos)).
    { rewrite (sum_list_fmap_same 1); [lia|].
      apply Forall_forall. intros p Hp. unfold ungrouped in Hp.
      apply list_elem_of_filter in Hp as [Hp _]. unfold getGroupSize. by rewrite Hp. }
    pose proof (bests_sizes photos allPhotos gm bests Hbests) as Hbest.
    rewrite Hungrouped, Hbest.
    pose proof (groups_disjoint gm.*1 allPhotos Hnodup).
    pose proof (length_filter_sublist (fun p => truthy_group p = None) _ _ Hsub) as Hle.
    fold (ungrouped photos) (ungrouped allPhotos) in Hle. lia.
  - intros Hno. unfold photos, filteredByScore in Hsum. by rewrite Hno in Hsum.
Qed.

End GroupedCards.

(** Two photos of one group, one of which passes the score filter: its
    card is the only one, and the size it shows counts the other photo. *)
Example filtered_card_counts_hidden_photos :
  let a := Photo.make 1 1 "a.jpg" "/p/originals/a.jpg" "t1" "h1" 10
             (Some (Double.Finite 9)) None false (Some 1) 0 0 in
  let b := Photo.make 2 1 "b.jpg" "/p/originals/b.jpg" "t2" "h2" 10
             (Some (Double.Finite 3)) None false (Some 1) 0 0 in
  let f := ProjectView.mkScoreFilter 5 10 in
  ProjectView.shown ProjectView.ViewGrouped f [a; b] = Some [a]
  /\ ProjectView.getGroupSize [a; b] a = 2%nat
  /\ length (ProjectView.filteredByScore f [a; b]) = 1%nat.
Proof. vm_compute. repeat split. Qed.

(** ** Export *)

#[local] Existing Instance same_table_preorder.

Section Exports.
Variables (join : string -> string -> string) (extname dirname basename : string -> string).
Variable jpeg_of : string -> option string.
Variable writable : string -> bool.
Variable storagePath : string.

Local Abbreviation toFile := (PhotoExport.toFile jpeg_of writable).
Local Abbreviation exportPhoto := (PhotoExport.exportPhoto join extname jpeg_of writable).
Local Abbreviation exportSelected :=
  (PhotoExport.exportSelected join extname dirname basename jpeg_of writable storagePath).
Local Abbreviation photos_export :=
  (PhotoExport.photos_export join extname dirname basename jpeg_of writable storagePath).
Local Abbreviation getExportsPath := (PhotoExport.getExportsPath join storagePath).

(** toFile writes its output and nothing else, or throws and writes
    nothing. *)
Lemma toFile_cases input output w :
  (exists jpeg, toFile input output w = (set_files <[output := jpeg]> w, Ok tt))
  \/ (exists e, toFile input output w = (w, Throw e)).
Proof.
  unfold PhotoExport.toFile, bind, readFile.
  destruct (files w !! input) as [bytes|]; [|right; by eexists].
  destruct (jpeg_of bytes) as [jpeg|]; [|right; by eexists].
  unfold PhotoManager.writeFile. destruct (writable output); [left|right]; by eexists.
Qed.

(** One turn of the loop of exportSelected: the photo is skipped and no
    file changes, or it is exported under the name of the index, which
    moves on. *)
Lemma exportPhoto_cases sanitizedName exportsPath exportedFiles skipped exportIndex photo w :
  (exportPhoto sanitizedName exportsPath (exportedFiles, skipped, exportIndex) photo w
   = (w, Ok (exportedFiles, S skipped, exportIndex)))
  \/ (exists jpeg,
        let exportPath :=
          join exportsPath (PhotoExport.exportFilename sanitizedName exportIndex) in
        exportPhoto sanitizedName exportsPath (exportedFiles, skipped, exportIndex) photo w
        = (set_files <[exportPath := jpeg]> w,
           Ok (exportedFiles ++ [exportPath], skipped, S exportIndex))).
Proof.
  unfold PhotoExport.exportPhoto.
  destruct (bool_decide _); [by left|].
  unfold try_catch, bind.
  destruct (toFile_cases (Photo.original_path photo)
              (join exportsPath (PhotoExport.exportFilename sanitizedName exportIndex)) w)
    as [[jpeg Heq]|[e Heq]]; rewrite Heq; [right|left]; [by exists jpeg|done].
Qed.

(** The loop of exportSelected, from a state in which the files exported so
    far have the names of the indices 1 .. exportIndex - 1 and are on the
    disk. *)
Lemma export_loop sanitizedName exportsPath selected exportedFiles skipped w :
  exportedFiles = export_paths join exportsPath sanitizedName (length exportedFiles) ->
  (forall path, path ∈ exportedFiles -> is_Some (files w !! path)) ->
  exists w' exported' skipped' exportIndex',
    fold_each selected (exportedFiles, skipped, S (length exportedFiles))
      (exportPhoto sanitizedName exportsPath) w
    = (w', Ok (exported', skipped', exportIndex'))
    /\ (length exported' + skipped' = length exportedFiles + skipped + length selected)%nat
    /\ exported' = export_paths join exportsPath sanitizedName (length exported')
    /\ (forall path, path ∈ exported' -> is_Some (files w' !! path))
    /\ photos w' = photos w
    /\ dirs w' = dirs w
    /\ sent w' = sent w
    /\ (forall path, is_Some (files w !! path) -> is_Some (files w' !! path)).
Proof.
  revert exportedFiles skipped w.
  induction selected as [|photo selected IH]; intros exportedFiles skipped w Hnames Hfiles.
  - exists w, exportedFiles, skipped, (S (length exportedFiles)).
    simpl. split_and!; try done; lia.
  - cbn [fold_each]. unfold bind at 1.
    destruct (exportPhoto_cases sanitizedName exportsPath exportedFiles skipped
                (S (length exportedFiles)) photo w) as [->|[jpeg ->]].
    + destruct (IH exportedFiles (S skipped) w Hnames Hfiles)
        as (w' & ex & sk & idx & -> & Hcount & ? & ? & ? & ? & ? & ?).
      exists w', ex, sk, idx. split_and!; try done. simpl. lia.
    + set (exportPath := join exportsPath
             (PhotoExport.exportFilename sanitizedName (S (length exportedFiles)))).
      destruct (IH (exportedFiles ++ [exportPath]) skipped
                  (set_files <[exportPath := jpeg]> w))
        as (w' & ex & sk & idx & Hrun & Hcount & ? & ? & ? & ? & ? & Hkept).
      * rewrite length_app. simpl. unfold export_paths.
        rewrite Nat.add_1_r, seq_S, fmap_app. simpl.
        f_equal. exact Hnames.
      * intros path [Hin|Hin]%elem_of_app;
          [|apply list_elem_of_singleton in Hin as ->]; simpl.
        -- destruct (decide (path = exportPath)) as [->|Hne].
           ++ rewrite lookup_insert_eq. by eexists.
           ++ rewrite lookup_insert_ne by done. by apply Hfiles.
        -- rewrite lookup_insert_eq. by eexists.
      * rewrite length_app in Hrun. simpl in Hrun.
        rewrite Nat.add_1_r in Hrun.
        exists w', ex, sk, idx. split_and!; try done.
        -- rewrite length_app in Hcount. simpl in *. lia.
        -- intros path Hpath. apply Hkept. simpl.
           destruct (decide (path = exportPath)) as [->|Hne].
           ++ rewrite lookup_insert_eq. by eexists.
           ++ by rewrite lookup_insert_ne.
Qed.

(** The clearing of the exports throws errors of the file system only,
    and keeps the table of photos. *)
Lemma clearExports_throws exportsPath existingFiles :
  throws (fun e => exists path, e = FsError path)
    (PhotoExport.clearExports join exportsPath existingFiles).
Proof.
  apply throws_for_each. intros file.
  destruct (JsString.endsWith ".jpg" file); [|apply throws_ret].
  intros w e. unfold unlink. destruct (files w !! _); [done|].
  intros [= <-]. by eexists.
Qed.

Lemma unlink_same_table path : preserves same_table (unlink path).
Proof. intros w. unfold unlink. by destruct (files w !! path). Qed.

Lemma clearExports_same_table exportsPath existingFiles :
  preserves same_table (PhotoExport.clearExports join exportsPath existingFiles).
Proof.
  papply @preserves_for_each. intros file _.
  destruct (JsString.endsWith ".jpg" file); [apply unlink_same_table|papply @preserves_ret].
Qed.

Lemma clearExports_ends exportsPath existingFiles :
  ends (PhotoExport.clearExports join exportsPath existingFiles).
Proof.
  apply ends_for_each. intros file.
  destruct (JsString.endsWith ".jpg" file); [|apply ends_ret].
  intros w. unfold unlink. by destruct (files w !! _).
Qed.

(** What exportSelected does: it throws an error of the file system while
    it clears the exports, or it returns, and then the loop over the
    selected photos has run from the world that the clearing left. *)
Lemma exportSelected_cases project w :
  (exists w' path, exportSelected project w = (w', Throw (FsError path))
                   /\ photos w' = photos w)
  \/ (exists w' result,
        exportSelected project w = (w', Ok result)
        /\ photos w' = photos w
        /\ (length (PhotoExport.exported result) + PhotoExport.skipped result
            = length (PhotoExport.select_selected (Project.id project) (photos w)))%nat
        /\ PhotoExport.exported result
           = export_paths join (getExportsPath (Project.name project))
               (PhotoManager.sanitizeName (Project.name project))
               (length (PhotoExport.exported result))
        /\ (forall path, path ∈ PhotoExport.exported result -> is_Some (files w' !! path))).
Proof.
  unfold PhotoExport.exportSelected, bind, gets, PhotoManager.mkdir, modify,
    PhotoExport.readdir.
  set (exportsPath := getExportsPath (Project.name project)).
  set (w1 := set_dirs (union {[exportsPath]}) w).
  destruct (decide (exportsPath ∈ dirs w1)) as [_|Hn];
    [|exfalso; apply Hn; simpl; set_solver].
  set (existingFiles := basename <$> _).
  pose proof (clearExports_throws exportsPath existingFiles w1) as Hthrows.
  pose proof (clearExports_same_table exportsPath existingFiles w1) as Htable.
  pose proof (clearExports_ends exportsPath existingFiles w1) as Hends.
  destruct (PhotoExport.clearExports join exportsPath existingFiles w1)
    as [w2 [[]|e|]]; simpl in Hthrows, Htable, Hends; [|left|done].
  - right.
    destruct (export_loop (PhotoManager.sanitizeName (Project.name project)) exportsPath
                (PhotoExport.select_selected (Project.id project) (photos w)) [] 0%nat w2)
      as (w' & ex & sk & idx & Hrun & Hcount & Hnames & Hfiles & Hphotos & _);
      [done|by intros path ?%elem_of_nil|].
    simpl in Hrun. rewrite Hrun.
    exists w', (PhotoExport.mkExportResult ex sk). simpl.
    split_and!; [done|by rewrite Hphotos|simpl in Hcount; lia|done|done].
  - destruct (Hthrows e eq_refl) as [path ->]. exists w2, path. split; [done|exact Htable].
Qed.

(** X9. An export accounts for every selected photo of the project: when
    exportSelected returns, the number of files it exported and the number
    of photos it skipped add up to the number of selected photos, and the
    handler of PHOTOS_EXPORT replies with these two numbers. When it
    throws, the exception is an error of the file system. The table of
    photos is never changed. An unknown
    project is an error, and changes nothing. *)
Theorem export_accounts_for_selected (projectId : Z) (w : World) :
  match List.find (fun p => bool_decide (Project.id p = projectId)) (projects w) with
  | None => photos_export projectId w = (w, Throw (Error "Project not found"))
  | Some project =>
      let selected := PhotoExport.select_selected (Project.id project) (photos w) in
      let (w', outcome) := photos_export projectId w in
      photos w' = photos w
      /\ match outcome with
         | Ok reply =>
             (PhotoExport.count reply + PhotoExport.reply_skipped reply
              = length selected)%nat
             /\ PhotoExport.exportPath reply = getExportsPath (Project.name project)
             /\ exists result,
                  exportSelected project w = (w', Ok result)
                  /\ PhotoExport.count reply = length (PhotoExport.exported result)
                  /\ PhotoExport.reply_skipped reply = PhotoExport.skipped result
         | Throw e => exists path, e = FsError path
         | OutOfFuel => False
         end
  end.
Proof.
  destruct (List.find _ (projects w)) as [project|] eqn:Hfind;
    unfold PhotoExport.photos_export, bind, gets; rewrite Hfind; [|done].
  destruct (exportSelected_cases project w)
    as [(w' & path & Heq & Hphotos)|(w' & result & Heq & Hphotos & Hcount & _)];
    rewrite Heq.
  - split; [done|]. by exists path.
  - split; [done|]. simpl. split_and!; try done. by exists result.
Qed.

(** X10. The files of an export are numbered from 01 without a gap,
    whatever photos are skipped: the k-th file exported is name_k.jpg in
    the directory of the exports, with k written on two digits at least,
    and it is on the disk when exportSelected returns. *)
Theorem exports_are_numbered (project : Project.t) (w : World) :
  let (w', outcome) := exportSelected project w in
  match outcome with
  | Ok result =>
      PhotoExport.exported result
      = export_paths join (getExportsPath (Project.name project))
          (PhotoManager.sanitizeName (Project.name project))
          (length (PhotoExport.exported result))
      /\ forall path, path ∈ PhotoExport.exported result -> is_Some (files w' !! path)
  | Throw e => exists path, e = FsError path
  | OutOfFuel => False
  end.
Proof.
  destruct (exportSelected_cases project w)
    as [(w' & path & -> & _)|(w' & result & -> & _ & _ & Hnames & Hfiles)].
  - by exists path.
  - done.
Qed.

End Exports.

(** ** The handlers of the groups *)

#[local] Instance score_desc_id_total : Total score_desc_id.
Proof.
  intros p q. unfold score_desc_id.
  destruct (Photo.score p) as [a|], (Photo.score q) as [b|]; try tauto; [|lia].
  destruct (Double.leb a b) eqn:Hab; [|by left; left; apply real_not_le_lt].
  destruct (Double.leb b a) eqn:Hba; [|by right; left; apply real_not_le_lt].
  destruct (Z.le_gt_cases (Photo.id p) (Photo.id q)).
  - left. by right.
  - right. right. split_and!; [done|done|lia].
Qed.

(** X11. PHOTO_GROUP answers, for a photo that has a group, with all the
    photos of the table that have its group id, the photo among them,
    sorted by decreasing score and then by id; the project of the photos
    is not looked at. For a photo without a group (null or 0) and for an id
    that no photo has, the answer is empty. The world is not changed. *)
Theorem photo_group_members (id : Z) (w : World) :
  exists members,
    IpcHandlers.photo_group id w = (w, Ok members)
    /\ Sorted score_desc_id members
    /\ match List.find (fun p => bool_decide (Photo.id p = id)) (photos w) with
       | Some photo =>
           match ProjectView.truthy_group photo with
           | Some g =>
               photo ∈ members
               /\ members ≡ₚ filter (fun p => Photo.similarity_group_id p = Some g)
                               (photos w)
           | None => members = []
           end
       | None => members = []
       end.
Proof.
  unfold IpcHandlers.photo_group, bind, gets.
  destruct (List.find _ (photos w)) as [photo|] eqn:Hfind;
    [|exists []; by split_and!].
  destruct (ProjectView.truthy_group photo) as [g|] eqn:Hg;
    [|exists []; by split_and!].
  eexists. split; [done|]. split; [apply Sorted_merge_sort; apply _|].
  split; [|apply merge_sort_Permutation].
  rewrite merge_sort_Permutation. apply list_elem_of_filter.
  apply find_some in Hfind as [Hin _]. split; [|by apply list_elem_of_In].
  unfold ProjectView.truthy_group in Hg.
  destruct (Photo.similarity_group_id photo) as [g'|]; [|done].
  by destruct (decide (g' = 0)); [|injection Hg as ->].
Qed.

(** X12. After GROUP_CLEAR for a project, PHOTO_GROUP is empty for every
    photo of the project, and the rows of the other projects are the ones
    they were. *)
Theorem group_clear_empties_groups (projectId id : Z) (w : World) :
  let w' := (IpcHandlers.group_clear projectId w).1 in
  (IpcHandlers.group_clear projectId w).2 = Ok true
  /\ Forall2 (fun p p' =>
                if decide (Photo.project_id p = projectId)
                then p' = Photo.set_group None p else p' = p)
             (photos w) (photos w')
  /\ (forall photo,
        List.find (fun p => bool_decide (Photo.id p = id)) (photos w) = Some photo ->
        Photo.project_id photo = projectId ->
        IpcHandlers.photo_group id w' = (w', Ok [])).
Proof.
  unfold IpcHandlers.group_clear, SimilarityGroupingService.clear_groups, bind, modify.
  cbn [fst snd]. split; [done|]. split.
  - simpl. induction (photos w) as [|p table IH]; [constructor|].
    rewrite fmap_cons. constructor; [|done]. by destruct (decide _).
  - intros photo Hfind Hproject. unfold IpcHandlers.photo_group, bind, gets. simpl.
    assert (Hfind' : List.find (fun p => bool_decide (Photo.id p = id))
              ((fun p => if decide (Photo.project_id p = projectId)
                         then Photo.set_group None p else p) <$> photos w)
            = Some (Photo.set_group None photo)).
    { clear -Hfind Hproject. induction (photos w) as [|p table IH]; [done|].
      rewrite fmap_cons. cbn [List.find] in *.
      destruct (decide (Photo.project_id p = projectId)) as [Hp|Hp].
      - cbn [Photo.set_group Photo.id]. destruct (bool_decide (Photo.id p = id)).
        + injection Hfind as ->. done.
        + by apply IH.
      - destruct (bool_decide (Photo.id p = id)).
        + injection Hfind as ->. done.
        + by apply IH. }
    by rewrite Hfind'.
Qed.

(** ** The handler of PHOTOS_DELETE *)




(** ** More on ingestion *)

#[local] Instance same_db_preorder : PreOrder same_db.
Proof.
  split; [by intros w|]. intros w1 w2 w3 H12 H23. unfold same_db in *.
  destruct_and!. split_and!; congruence.
Qed.

Section Uploads.
Variable sha256 : string -> string.
Variables (join : string -> string -> string) (basename : string -> string)
          (basename_without : string -> string -> string)
          (extname parse_name : string -> string).
Variable thumbnail_of : string -> option string.
Variable placeholder : option string.
Variable writable : string -> bool.
Variable storagePath : string.

Local Abbreviation processUpload :=
  (PhotoManager.processUpload sha256 join basename basename_without extname parse_name
     thumbnail_of placeholder writable storagePath).
Local Abbreviation upload_loop :=
  (PhotoManager.upload_loop sha256 join basename basename_without extname parse_name
     thumbnail_of placeholder writable storagePath).
Local Abbreviation photos_upload :=
  (PhotoManager.photos_upload sha256 join basename basename_without extname parse_name
     thumbnail_of placeholder writable storagePath).
Local Abbreviation unique_name :=
  (PhotoManager.unique_name join basename_without extname).

(** The name that the loop finds is free, and the loop changes nothing. *)
Lemma unique_name_free fuel filename projectPath originalFilename originalPath counter
    w w' found_name found_path :
  unique_name fuel filename projectPath originalFilename originalPath counter w
    = (w', Ok (found_name, found_path)) ->
  w' = w /\ PhotoManager.existsSync w found_path = false.
Proof.
  revert originalFilename originalPath counter.
  induction fuel as [|fuel IH]; intros ofn op counter; simpl; unfold bind, gets;
    destruct (PhotoManager.existsSync w op) eqn:Hexists; try done.
  - intros [= <- <- <-]. done.
  - apply IH.
  - intros [= <- <- <-]. done.
Qed.

(** The thumbnail step writes the thumbnail or nothing, and does not
    throw. *)
Lemma thumbnail_step thumbnailPath bytes w :
  exists generated,
    try_catch
      (match thumbnail_of bytes with
       | Some jpeg => PhotoManager.writeFile writable thumbnailPath jpeg ;; ret true
       | None => throw (Error "sharp")
       end)
      (fun _ =>
         try_catch
           (match placeholder with
            | Some jpeg => PhotoManager.writeFile writable thumbnailPath jpeg ;; ret true
            | None => throw (Error "sharp")
            end)
           (fun _ => ret false)) w
    = (if generated is Some jpeg then set_files <[thumbnailPath := jpeg]> w else w,
       Ok (bool_decide (is_Some generated))).
Proof.
  unfold try_catch, bind, PhotoManager.writeFile, throw, ret, modify.
  destruct (writable thumbnailPath), (thumbnail_of bytes) as [jpeg|],
    placeholder as [gray|];
    first [by exists (Some jpeg)|by exists (Some gray)|by exists None].
Qed.

(** What an upload that returns has done. *)
Lemma processUpload_cases fuel project filePath w w1 result :
  processUpload fuel project filePath w = (w1, Ok result) ->
  exists bytes,
    files w !! filePath = Some bytes
    /\ ((exists existing,
           PhotoManager.find_by_hash (Project.id project) (sha256 bytes) (photos w)
             = Some existing
           /\ result = PhotoManager.mkUploadResult true None (Some existing)
           /\ w1 = w)
        \/ (exists row,
              PhotoManager.find_by_hash (Project.id project) (sha256 bytes) (photos w) = None
              /\ result = PhotoManager.mkUploadResult false (Some row) None
              /\ photos w1 = photos w ++ [row]
              /\ projects w1 = projects w
              /\ sent w1 = sent w
              /\ next_photo_id w1 = next_photo_id w + 1
              /\ row = Photo.make (next_photo_id w) (Project.id project)
                         (Photo.original_filename row) (Photo.original_path row)
                         (Photo.thumbnail_path row) (sha256 bytes)
                         (Z.of_nat (String.length bytes)) None None false None
                         (clock w) (clock w)
              /\ files w !! Photo.original_path row = None
              /\ (Photo.original_path row ∉ dirs w)
              /\ (Photo.thumbnail_path row <> Photo.original_path row ->
                  files w1 !! Photo.original_path row = Some bytes)
              /\ is_Some (files w1 !! Photo.thumbnail_path row))).
Proof.
  intros Hrun. unfold PhotoManager.processUpload in Hrun.
  apply bind_Ok in Hrun as (w0 & bytes & Hread & Hrun).
  unfold readFile in Hread. destruct (files w !! filePath) as [bytes'|] eqn:Hfile; [|done].
  injection Hread as <- <-. exists bytes'. split; [done|].
  apply bind_Ok in Hrun as (w0 & found & Hget & Hrun). injection Hget as <- <-.
  destruct (PhotoManager.find_by_hash _ _ (photos w)) as [existing|] eqn:Hfind.
  { left. injection Hrun as <- <-. by exists existing. }
  right.
  apply bind_Ok in Hrun as (wa & [] & Hdirs & Hrun).
  apply bind_Ok in Hrun as (wb & [ofn op] & Hname & Hrun).
  apply bind_Ok in Hrun as (wc & [] & Hcopy & Hrun).
  apply bind_Ok in Hrun as (wd & generated & Hthumb & Hrun).
  apply bind_Ok in Hrun as (we & row & Hinsert & Hrun).
  injection Hrun as <- <-.
  set (projectPath := PhotoManager.getProjectPath join storagePath (Project.name project))
    in *.
  assert (Ha : wa = set_dirs (union {[join projectPath "exports"]})
                      (set_dirs (union {[join projectPath "thumbnails"]})
                         (set_dirs (union {[join projectPath "originals"]}) w))).
  { unfold PhotoManager.createDirectories, PhotoManager.mkdir, bind, modify in Hdirs.
    by injection Hdirs as <-. }
  apply unique_name_free in Hname as [-> Hfree].
  unfold PhotoManager.existsSync in Hfree. apply orb_false_elim in Hfree as [Hfree1 Hfree2].
  apply bool_decide_eq_false in Hfree1. apply bool_decide_eq_false in Hfree2.
  assert (Hnofile : files w !! op = None).
  { rewrite Ha in Hfree1. simpl in Hfree1.
    destruct (files w !! op) eqn:Hop; [|done]. exfalso. apply Hfree1. by eexists. }
  assert (Hnodir : op ∉ dirs w).
  { rewrite Ha in Hfree2. simpl in Hfree2. set_solver. }
  unfold PhotoManager.copyFile, bind, readFile in Hcopy.
  assert (Hfile_a : files wa !! filePath = Some bytes') by (by rewrite Ha).
  rewrite Hfile_a in Hcopy. unfold PhotoManager.writeFile in Hcopy.
  destruct (writable op); [|done]. injection Hcopy as <-.
  set (wc := set_files <[op := bytes']> wa) in *.
  destruct (thumbnail_step
              (join (join projectPath "thumbnails") (parse_name ofn +:+ "_thumb.jpg"))
              bytes' wc) as [jpeg Hstep].
  rewrite Hstep in Hthumb. injection Hthumb as <- <-.
  unfold PhotoManager.insert_photo in Hinsert. injection Hinsert as <- <-.
  eexists. split; [done|]. split; [done|].
  destruct jpeg as [jpeg|]; simpl; rewrite Ha; simpl.
  - split_and!; try done.
    + intros Hne. rewrite lookup_insert_ne by done. by rewrite lookup_insert_eq.
    + rewrite lookup_insert_eq. by eexists.
  - split_and!; try done. rewrite lookup_insert_eq. by eexists.
Qed.

(** X14. An upload that is no duplicate adds one row at the end of the
    table, for the project, with the next id, the digest and the size of
    the bytes, and with no score, no comment, no group and the selected flag
    off. The path of its original was free before the upload (no file and
    no directory was there), and the original has the bytes uploaded
    afterwards, when the thumbnail has a path of its own. No event is sent
    by processUpload. *)
Theorem processUpload_new_row (fuel : nat) (project : Project.t) (filePath : string)
    (w w1 : World) (result : PhotoManager.UploadResult) :
  processUpload fuel project filePath w = (w1, Ok result) ->
  PhotoManager.duplicate result = false ->
  exists bytes row,
    files w !! filePath = Some bytes
    /\ PhotoManager.photo result = Some row
    /\ photos w1 = photos w ++ [row]
    /\ sent w1 = sent w
    /\ Photo.id row = next_photo_id w
    /\ Photo.project_id row = Project.id project
    /\ Photo.file_hash row = sha256 bytes
    /\ Photo.file_size row = Z.of_nat (String.length bytes)
    /\ Photo.score row = None /\ Photo.ai_comment row = None
    /\ Photo.selected row = false /\ Photo.similarity_group_id row = None
    /\ files w !! Photo.original_path row = None
    /\ (Photo.original_path row ∉ dirs w)
    /\ (Photo.thumbnail_path row <> Photo.original_path row ->
        files w1 !! Photo.original_path row = Some bytes)
    /\ is_Some (files w1 !! Photo.thumbnail_path row).
Proof.
  intros Hrun Hdup.
  destruct (processUpload_cases _ _ _ _ _ _ Hrun)
    as (bytes & Hfile & [(existing & _ & -> & _)|(row & _ & -> & Hphotos & _ & Hsent & _
          & Hrow & Hfree & Hnodir & Horiginal & Hthumb)]); [done|].
  exists bytes, row. split_and!; try done; by rewrite Hrow.
Qed.

(** The loop of the handler, from the index i and the results so far. *)
Lemma upload_loop_totals fuel project total i filePaths results w w' results' :
  upload_loop fuel project total i filePaths results w = (w', Ok results') ->
  (PhotoManager.uploaded results' + PhotoManager.duplicates results'
   = PhotoManager.uploaded results + PhotoManager.duplicates results + length filePaths)%nat
  /\ (length (PhotoManager.uploaded_photos results') - PhotoManager.uploaded results'
      = length (PhotoManager.uploaded_photos results) - PhotoManager.uploaded results)%nat
  /\ (PhotoManager.uploaded results' - length (PhotoManager.uploaded_photos results')
      = PhotoManager.uploaded results - length (PhotoManager.uploaded_photos results))%nat
  /\ (length (photos w') + PhotoManager.uploaded results
      = length (photos w) + PhotoManager.uploaded results')%nat
  /\ sent w' = sent w ++ upload_events basename total i filePaths.
Proof.
  revert i results w.
  induction filePaths as [|filePath rest IH]; intros i results w Hrun.
  - simpl in Hrun. injection Hrun as <- <-. simpl. rewrite app_nil_r. split_and!; lia || done.
  - cbn [PhotoManager.upload_loop] in Hrun.
    apply bind_Ok in Hrun as (w1 & result & Hupload & Hrun).
    apply bind_Ok in Hrun as (w2 & [] & Hsend & Hrun).
    unfold send, modify in Hsend. injection Hsend as <-.
    apply IH in Hrun as (Hcount & Hlen1 & Hlen2 & Hphotos & Hsent).
    destruct (processUpload_cases _ _ _ _ _ _ Hupload)
      as (bytes & Hfile & [(existing & _ & -> & ->)|(row & _ & -> & Hrows & _ & Hsent1 & _)]);
      simpl in *.
    + rewrite Hsent. rewrite <- app_assoc. split_and!; lia || done.
    + rewrite Hsent, Hsent1. rewrite <- app_assoc.
      rewrite Hrows, !length_app in *. simpl in *. split_and!; lia || done.
Qed.

(** X15. When the handler of PHOTOS_UPLOAD returns, every file of the
    request is counted once, as uploaded or as a duplicate; the photos it
    returns are as many as the uploads, and so are the rows added to the
    table; and it has sent one progress event for each file, in order,
    numbered from 1, with the number of files as total. *)
Theorem photos_upload_totals (fuel : nat) (projectId : Z) (filePaths : list string)
    (w w' : World) (results : PhotoManager.UploadResults) :
  photos_upload fuel projectId filePaths w = (w', Ok results) ->
  (PhotoManager.uploaded results + PhotoManager.duplicates results = length filePaths)%nat
  /\ length (PhotoManager.uploaded_photos results) = PhotoManager.uploaded results
  /\ length (photos w') = (length (photos w) + PhotoManager.uploaded results)%nat
  /\ sent w' = sent w ++ upload_events basename (length filePaths) 0 filePaths.
Proof.
  unfold PhotoManager.photos_upload, bind at 1, gets.
  destruct (List.find _ (projects w)) as [project|]; [|done].
  intros Hrun. apply upload_loop_totals in Hrun as (H1 & H2 & H3 & H4 & H5).
  simpl in *. split_and!; lia || done.
Qed.

End Uploads.

Lemma processUpload_new_row_witness :
  exists w1 result,
    StubDisk.processUpload 10 Stub.project "/in/a.jpg" StubDisk.world = (w1, Ok result)
    /\ PhotoManager.duplicate result = false
    /\ exists bytes row,
         files StubDisk.world !! "/in/a.jpg" = Some bytes
         /\ PhotoManager.photo result = Some row
         /\ photos w1 = photos StubDisk.world ++ [row]
         /\ Photo.file_hash row = StubDisk.sha256 bytes.
Proof.
  pose (w1 := (StubDisk.processUpload 10 Stub.project "/in/a.jpg" StubDisk.world).1).
  pose (result := PhotoManager.mkUploadResult false (Some first_row) None).
  assert (Hrun : StubDisk.processUpload 10 Stub.project "/in/a.jpg" StubDisk.world
                 = (w1, Ok result)) by (vm_compute; reflexivity).
  assert (Hnew : PhotoManager.duplicate result = false) by reflexivity.
  exists w1, result. split; [exact Hrun|]. split; [exact Hnew|].
  destruct (processUpload_new_row StubDisk.sha256 StubDisk.join StubDisk.basename
    StubDisk.basename_without StubDisk.extname StubDisk.parse_name
    StubDisk.thumbnail_of StubDisk.placeholder StubDisk.writable StubDisk.storagePath
    10 Stub.project "/in/a.jpg" StubDisk.world w1 result Hrun Hnew)
    as (bytes & row & H1 & H2 & H3 & _ & _ & _ & H4 & _).
  exists bytes, row. split_and!; [exact H1|exact H2|exact H3|exact H4].
Defined.

Lemma photos_upload_totals_witness :
  exists w' results,
    StubDisk.photos_upload 10 1 ["/in/a.jpg"; "/in/copy.jpg"; "/in/b.jpg"] StubDisk.world
    = (w', Ok results)
    /\ (PhotoManager.uploaded results + PhotoManager.duplicates results = 3)%nat
    /\ length (photos w') = (0 + PhotoManager.uploaded results)%nat.
Proof.
  pose (run := StubDisk.photos_upload 10 1 ["/in/a.jpg"; "/in/copy.jpg"; "/in/b.jpg"]
                 StubDisk.world).
  pose (results := match run.2 with
                   | Ok results => results
                   | _ => PhotoManager.mkUploadResults 0 0 []
                   end).
  assert (Hrun : StubDisk.photos_upload 10 1 ["/in/a.jpg"; "/in/copy.jpg"; "/in/b.jpg"]
                   StubDisk.world = (run.1, Ok results)) by (vm_compute; reflexivity).
  exists run.1, results. split; [exact Hrun|].
  destruct (photos_upload_totals StubDisk.sha256 StubDisk.join StubDisk.basename
    StubDisk.basename_without StubDisk.extname StubDisk.parse_name
    StubDisk.thumbnail_of StubDisk.placeholder StubDisk.writable StubDisk.storagePath
    10 1 ["/in/a.jpg"; "/in/copy.jpg"; "/in/b.jpg"] StubDisk.world run.1 results Hrun)
    as (H1 & _ & H2 & _).
  split; [exact H1|exact H2].
Defined.

Lemma processUpload_again_witness :
  exists w1 result existing,
    files StubDisk.world !! "/in/a.jpg" = Some "AAA"
    /\ StubDisk.processUpload 10 Stub.project "/in/a.jpg" StubDisk.world = (w1, Ok result)
    /\ files w1 !! "/in/copy.jpg" = Some "AAA"
    /\ StubDisk.processUpload 10 Stub.project "/in/copy.jpg" w1
       = (w1, Ok (PhotoManager.mkUploadResult true None (Some existing))).
Proof.
  assert (H1 : files StubDisk.world !! "/in/a.jpg" = Some "AAA") by (vm_compute; reflexivity).
  pose (w1 := (StubDisk.processUpload 10 Stub.project "/in/a.jpg" StubDisk.world).1).
  assert (H2 : StubDisk.processUpload 10 Stub.project "/in/a.jpg" StubDisk.world
               = (w1, Ok (PhotoManager.mkUploadResult false (Some first_row) None)))
    by (vm_compute; reflexivity).
  assert (H3 : files w1 !! "/in/copy.jpg" = Some "AAA") by (vm_compute; reflexivity).
  destruct (processUpload_again StubDisk.sha256 StubDisk.join StubDisk.basename
    StubDisk.basename_without StubDisk.extname StubDisk.parse_name
    StubDisk.thumbnail_of StubDisk.placeholder StubDisk.writable StubDisk.storagePath
    10 Stub.project "/in/a.jpg" "/in/copy.jpg" "AAA" StubDisk.world w1 _ H1 H2 H3)
    as (existing & H4 & _).
  exists w1, (PhotoManager.mkUploadResult false (Some first_row) None), existing.
  split_and!; [exact H1|exact H2|exact H3|exact H4].
Defined.

(** ** More on a scoring run *)

Lemma NoDup_fmap_eq {A B} (f : A -> B) (l : list A) x y :
  NoDup (f <$> l) -> x ∈ l -> y ∈ l -> f x = f y -> x = y.
Proof.
  induction l as [|a l IH]; [by intros _ ?%elem_of_nil|].
  rewrite fmap_cons. intros [Ha Hl]%NoDup_cons Hx Hy Hf.
  apply elem_of_cons in Hx as [->|Hx]; apply elem_of_cons in Hy as [->|Hy]; try done.
  - exfalso. apply Ha. rewrite Hf. by apply list_elem_of_fmap_2.
  - exfalso. apply Ha. rewrite <- Hf. by apply list_elem_of_fmap_2.
  - by apply IH.
Qed.

Lemma elem_of_concat_2 {A} (x : A) (l : list A) (ls : list (list A)) :
  x ∈ l -> l ∈ ls -> x ∈ concat ls.
Proof.
  intros Hx Hl. apply list_elem_of_In, in_concat. exists l.
  split; by apply list_elem_of_In.
Qed.

#[local] Instance more_sent_preorder P : PreOrder (more_sent P).
Proof.
  split.
  - intros w. exists []. by rewrite app_nil_r.
  - intros w1 w2 w3 (e1 & H1 & HP1) (e2 & H2 & HP2). exists (e1 ++ e2).
    split; [by rewrite H2, H1, app_assoc|by apply Forall_app].
Qed.

#[local] Instance quiet_preorder : PreOrder quiet.
Proof.
  split; [done|]. intros w1 w2 w3 [H1 H1'] [H2 H2']. split; congruence.
Qed.

Lemma sum_lengths_concat {A} (ls : list (list A)) :
  sum_list (length <$> ls) = length (concat ls).
Proof.
  induction ls as [|l ls IH]; [done|]. rewrite fmap_cons. simpl.
  by rewrite length_app, IH.
Qed.

Lemma thumbnails_unreadable base64 fs batch content :
  (forall p, p ∈ batch -> fs !! Photo.thumbnail_path p = None) ->
  thumbnails base64 fs batch content = content.
Proof.
  revert content. induction batch as [|p batch IH]; intros content Hnone; [done|].
  simpl. rewrite (Hnone p) by left. apply IH. intros q Hq. apply Hnone. by right.
Qed.

Section ScoringExtras.
Variable create : nat -> list ContentBlock -> Outcome.
Variable JSON_parse : string -> option json.
Variable coerce : json -> Double.number.
Variable driver : option json -> option (option string).
Variable base64 : string -> string.
Variable project : Project.t.

Local Abbreviation saveEvaluation := (ClaudeVisionService.saveEvaluation coerce driver).
Local Abbreviation saveResults := (ClaudeVisionService.saveResults JSON_parse coerce driver).
Local Abbreviation analyzeBatch_fuel :=
  (ClaudeVisionService.analyzeBatch_fuel create JSON_parse coerce driver base64 project).
Local Abbreviation analyzeBatch :=
  (ClaudeVisionService.analyzeBatch create JSON_parse coerce driver base64 project).
Local Abbreviation analyzeStep :=
  (ClaudeVisionService.analyzeStep create JSON_parse coerce driver base64 project).
Local Abbreviation analyzePhotos :=
  (ClaudeVisionService.analyzePhotos create JSON_parse coerce driver base64 project).
Local Abbreviation unscored w :=
  (ClaudeVisionService.unscored (Project.id project) (photos w)).

(** *** A relation kept by a run, for the batches of the run *)

Lemma analyzePhotos_run (R : relation World) `{!PreOrder R} w :
  (forall w, R w (add_call w)) ->
  (forall d w, R w (add_delay d w)) ->
  (forall e w, R w (add_sent e w)) ->
  (forall batch n content response,
     (forall p, p ∈ batch -> p ∈ unscored w) ->
     create n content = Responds response ->
     preserves R (saveResults batch response)) ->
  R w (analyzePhotos w).1.
Proof.
  intros R_call R_delay R_sent Hsave.
  unfold ClaudeVisionService.analyzePhotos, ClaudeVisionService.select_unscored.
  unfold bind at 1, gets.
  destruct (decide _); [reflexivity|].
  destruct (batches_some ClaudeVisionService.BATCH_SIZE (unscored w)) as (bs & Hbs & Hcat).
  { unfold ClaudeVisionService.BATCH_SIZE. lia. }
  rewrite Hbs.
  match goal with |- R w (?m w).1 => assert (Hm : preserves R m); [|exact (Hm w)] end.
  papply @preserves_bind.
  - papply @preserves_fold_each. intros processed [i batch] Hin.
    unfold ClaudeVisionService.analyzeStep.
    papply @preserves_bind; [papply @preserves_modify; apply R_sent|]. intros _.
    papply @preserves_try_catch.
    + papply @preserves_bind; [|intros; papply @preserves_ret].
      apply analyzeBatch_preserves; try done.
      intros k content response. apply Hsave. intros p Hp.
      rewrite <- Hcat. apply (elem_of_concat_2 p batch); [done|].
      apply list_elem_of_fmap. by exists (i, batch).
    + intros e. papply @preserves_bind; [papply @preserves_modify; apply R_sent|].
      intros _. papply @preserves_ret.
  - intros processed.
    papply @preserves_bind; [papply @preserves_modify; apply R_sent|].
    intros _. papply @preserves_ret.
Qed.

(** X16. A scoring run writes only in the rows of the photos that it
    selected: a row whose id is not the id of a photo of the project without
    a score is the same after the run. When the ids of the table are
    distinct, the rows of the other projects and the rows that had a score
    are the same after the run: a photo is not scored twice. *)
Theorem scoring_keeps_scored_rows (w : World) :
  let w' := (analyzePhotos w).1 in
  Forall2 (same_unless_in (Photo.id <$> unscored w)) (photos w) (photos w')
  /\ (NoDup (Photo.id <$> photos w) ->
      Forall2 (fun p p' =>
                 Photo.project_id p <> Project.id project \/ Photo.score p <> None ->
                 p' = p)
              (photos w) (photos w')).
Proof.
  intros w'.
  assert (Hrows : Forall2 (same_unless_in (Photo.id <$> unscored w)) (photos w) (photos w')).
  { apply (analyzePhotos_run (rows (same_unless_in (Photo.id <$> unscored w))));
      try (intros; apply rows_same; [exact _|reflexivity]).
    intros batch n content response Hbatch _.
    apply saveResults_preserves; [exact _|]. intros ev _.
    apply saveEvaluation_preserves; [exact _|]. intros p ms c Hin _ _ _.
    intros w0. apply rows_set_photos. intros q.
    destruct (decide (Photo.id q = Photo.id p)) as [Heq|]; [|reflexivity].
    split; [done|]. intros Hnot. exfalso. apply Hnot. rewrite Heq.
    apply list_elem_of_fmap_2. by apply Hbatch. }
  split; [exact Hrows|]. intros Hnodup.
  cut (forall table table',
         Forall (fun p => p ∈ photos w) table ->
         Forall2 (same_unless_in (Photo.id <$> unscored w)) table table' ->
         Forall2 (fun p p' =>
                    Photo.project_id p <> Project.id project \/ Photo.score p <> None ->
                    p' = p) table table').
  { intros Hcut. apply Hcut; [by apply Forall_forall|exact Hrows]. }
  clear Hrows. intros table table' Hin Hrows.
  induction Hrows as [|p p' table table' [_ Hsame] _ IH]; [constructor|].
  apply Forall_cons in Hin as [Hp Hin]. constructor; [|by apply IH].
  intros Hother. apply Hsame. intros Hid.
  apply list_elem_of_fmap in Hid as (q & Hid & Hq).
  unfold ClaudeVisionService.unscored in Hq. rewrite merge_sort_Permutation in Hq.
  apply list_elem_of_filter in Hq as [[Hproject Hscore] Hq].
  assert (p = q) by by apply (NoDup_fmap_eq Photo.id (photos w)).
  subst q. by destruct Hother.
Qed.

(** *** The requests of a run *)

Lemma analyzeBatch_calls fuel batch retryCount w :
  calls_within (S fuel) w (analyzeBatch_fuel fuel batch retryCount w).1.
Proof.
  unfold calls_within.
  cut (forall w1 r, analyzeBatch_fuel fuel batch retryCount w = (w1, r) ->
                    (api_calls w <= api_calls w1 <= api_calls w + S fuel)%nat).
  { intros Hcut. destruct (analyzeBatch_fuel fuel batch retryCount w) as [w1 r] eqn:Hrun.
    by apply (Hcut w1 r). }
  revert retryCount w.
  induction fuel as [|fuel IH]; intros rc w w1 r; simpl; unfold bind at 1;
    rewrite buildContent_scoring;
    (destruct (thumbnails base64 (files w) batch []) as [|c cs];
     [intros [= <- <-]; lia|]);
    unfold try_catch, bind at 1, messages_create;
    (destruct (create (api_calls w) _) as [response|error];
     [pose proof (saveResults_same_calls JSON_parse coerce driver batch response (add_call w))
        as (Hcalls & _);
      pose proof (saveResults_throws JSON_parse coerce driver batch response (add_call w)) as Hthrows;
      destruct (saveResults batch response (add_call w)) as [w2 [[]|e|]];
      simpl in Hcalls;
      [intros [= <- <-]; lia
      |specialize (Hthrows e eq_refl);
       destruct (decide (status e = Some 429)); [congruence|intros [= <- <-]; lia]
      |intros [= <- <-]; lia]
     |]);
    (destruct (decide (status error = Some 429)); [|intros [= <- <-]; simpl; lia]);
    (destruct (rc <? 3)%nat; [|intros [= <- <-]; simpl; lia]).
  - intros [= <- <-]. simpl. lia.
  - unfold bind, sleep, modify. intros Hrun. apply IH in Hrun. simpl in Hrun. lia.
Qed.

Lemma analyzeStep_calls total processed slice w :
  calls_within 4 w (analyzeStep total processed slice w).1.
Proof.
  destruct slice as [i batch]. unfold ClaudeVisionService.analyzeStep.
  unfold bind at 1, ClaudeVisionService.onProgress, send, modify, try_catch, bind at 1.
  set (w0 := add_sent _ w).
  pose proof (analyzeBatch_calls 3 batch 0 w0) as Hcalls.
  unfold ClaudeVisionService.analyzeBatch. unfold calls_within in *.
  change (3 - 0)%nat with 3%nat.
  destruct (analyzeBatch_fuel 3 batch 0 w0) as [w1 [[]|e|]]; simpl in *; lia.
Qed.

Lemma fold_calls total bs processed w :
  calls_within (4 * length bs) w (fold_each bs processed (analyzeStep total) w).1.
Proof.
  unfold calls_within. revert processed w.
  induction bs as [|slice bs IH]; intros processed w; [simpl; lia|].
  cbn [fold_each]. unfold bind.
  pose proof (analyzeStep_calls total processed slice w) as Hstep.
  unfold calls_within in Hstep.
  destruct (analyzeStep total processed slice w) as [w1 [processed'|e|]];
    simpl in *; try lia.
  specialize (IH processed' w1). lia.
Qed.

Lemma batchCount_estimate photos :
  CostEstimator.batchCount (CostEstimator.estimate photos)
  = Js.ceil_div (length photos) 10.
Proof.
  unfold CostEstimator.estimate. destruct (decide (length photos = 0%nat)) as [->|]; done.
Qed.

(** X17. The number of batches of the cost estimate is the number of
    batches of the scoring run that starts in the same state, and the run
    sends four requests at most for each of them (one and three retries):
    no more than 4 times the batchCount that ANALYZE_ESTIMATE_COST
    answers. *)
Theorem scoring_requests_within_estimate (w : World) :
  exists estimate bs,
    IpcHandlers.analyze_estimate_cost (Project.id project) w = (w, Ok estimate)
    /\ Js.batches ClaudeVisionService.BATCH_SIZE (unscored w) = Some bs
    /\ CostEstimator.photoCount estimate = length (unscored w)
    /\ CostEstimator.batchCount estimate = length bs
    /\ calls_within (4 * CostEstimator.batchCount estimate) w (analyzePhotos w).1.
Proof.
  destruct (batch_loop_spec ClaudeVisionService.BATCH_SIZE (unscored w)
              (length (unscored w)) 0) as (bs & Hbs & _ & Hlen & _).
  { unfold ClaudeVisionService.BATCH_SIZE. lia. }
  { unfold ClaudeVisionService.BATCH_SIZE. lia. }
  rewrite Nat.sub_0_r in Hlen.
  assert (Hsame : length (filter (fun p => Photo.project_id p = Project.id project
                                           /\ Photo.score p = None) (photos w))
                  = length (unscored w)).
  { unfold ClaudeVisionService.unscored. by rewrite merge_sort_Permutation. }
  eexists _, bs. split; [reflexivity|]. split; [exact Hbs|].
  rewrite batchCount_estimate, Hsame.
  split_and!.
  - unfold CostEstimator.estimate. rewrite Hsame.
    destruct (decide (length (unscored w) = 0%nat)) as [->|]; done.
  - by rewrite Hlen.
  - change (Js.batches ClaudeVisionService.BATCH_SIZE (unscored w))
      with (Js.batch_loop (length (unscored w)) ClaudeVisionService.BATCH_SIZE 0 (unscored w))
      in *.
    unfold ClaudeVisionService.analyzePhotos, ClaudeVisionService.select_unscored.
    unfold bind at 1, gets.
    destruct (decide _); [unfold calls_within; simpl; lia|].
    unfold Js.batches. rewrite Hbs. unfold bind at 1.
    pose proof (fold_calls (length (unscored w)) bs 0%nat w) as Hfold.
    unfold calls_within in *. change ClaudeVisionService.BATCH_SIZE with 10%nat in Hlen.
    rewrite <- Hlen.
    destruct (fold_each bs 0%nat _ w) as [w1 [processed|e|]]; simpl in *; lia.
Qed.

(** *** The progress of a run *)

Lemma analyzeBatch_quiet fuel batch retryCount :
  preserves quiet (analyzeBatch_fuel fuel batch retryCount).
Proof.
  apply analyzeBatch_preserves; try done; [exact _|].
  intros n content response _.
  apply saveResults_preserves; [exact _|]. intros ev _.
  apply saveEvaluation_preserves; [exact _|]. intros p ms c _ _ _ _.
  by papply @preserves_modify.
Qed.

Lemma fold_progress total bs processed w :
  (processed + sum_list (length <$> bs.*2) <= total)%nat ->
  exists w1 processed1,
    fold_each bs processed (analyzeStep total) w = (w1, Ok processed1)
    /\ (processed1 <= total)%nat
    /\ more_sent (progress_of total) w w1.
Proof.
  revert processed w. induction bs as [|[i batch] bs IH]; intros processed w Hle.
  - exists w, processed. split_and!; [done|simpl in Hle; lia|reflexivity].
  - assert (Hle' : (processed + (length batch + sum_list (length <$> bs.*2)) <= total)%nat)
      by exact Hle.
    cbn [fold_each]. unfold bind at 1.
    set (w0 := add_sent (AnalyzeProgress processed total
                 (AnalyzingBatch (i / ClaudeVisionService.BATCH_SIZE + 1))) w).
    pose proof (analyzeBatch_ends create JSON_parse coerce driver base64 project batch 0 w0) as Hends.
    pose proof (analyzeBatch_quiet (3 - 0) batch 0 w0) as [Hsent _].
    fold (analyzeBatch batch 0) in Hsent.
    assert (Hfirst : progress_of total (AnalyzeProgress processed total
                 (AnalyzingBatch (i / ClaudeVisionService.BATCH_SIZE + 1)))).
    { eexists _, _. split; [done|lia]. }
    destruct (analyzeBatch batch 0 w0) as [w' [[]|error|]] eqn:Hrun; [| |done].
    + rewrite (analyzeStep_returns _ _ _ _ _ _ _ _ _ _ _ _ Hrun).
      destruct (IH (processed + length batch)%nat w') as (w1 & n & Hfold & Hn & Hmore);
        [lia|].
      exists w1, n. split_and!; try done.
      etrans; [|exact Hmore]. eexists [_]. split; [exact Hsent|by constructor].
    + rewrite (analyzeStep_throws _ _ _ _ _ _ _ _ _ _ _ _ _ Hrun).
      destruct (IH processed
                  (add_sent (AnalyzeProgress processed total (ErrorInBatch error)) w'))
        as (w1 & n & Hfold & Hn & Hmore); [lia|].
      exists w1, n. split_and!; try done.
      etrans; [|exact Hmore]. eexists [_; _]. split.
      * simpl in *. rewrite Hsent. by rewrite <- app_assoc.
      * repeat constructor; [done|]. eexists _, _. split; [done|lia].
Qed.

(** X18. What a scoring run tells the window: it returns, every event it
    sends is a progress event that carries the number of photos selected as
    its total and counts no more photos than that, the events sent before
    are kept, and the last event of a run that selected a photo is the one
    of completion, with the number that the run returns. A run that selects
    no photo sends nothing. *)
Theorem scoring_progress_events (w : World) :
  let total := length (unscored w) in
  exists w' processed events,
    analyzePhotos w = (w', Ok processed)
    /\ sent w' = sent w ++ events
    /\ Forall (progress_of total) events
    /\ (total = 0%nat -> events = [])
    /\ (total <> 0%nat ->
        last events = Some (AnalyzeProgress processed total AnalysisComplete)).
Proof.
  intros total.
  unfold ClaudeVisionService.analyzePhotos, ClaudeVisionService.select_unscored.
  unfold bind at 1, gets. fold total.
  destruct (decide (total = 0%nat)) as [Hzero|Hsome].
  { exists w, 0%nat, []. split_and!; try done. by rewrite app_nil_r. }
  destruct (batches_some ClaudeVisionService.BATCH_SIZE (unscored w)) as (bs & Hbs & Hcat).
  { unfold ClaudeVisionService.BATCH_SIZE. lia. }
  rewrite Hbs. unfold bind at 1.
  destruct (fold_progress total bs 0 w) as (w1 & n & Hfold & Hn & events & Hsent & Hevents).
  { rewrite sum_lengths_concat, Hcat. unfold total. lia. }
  rewrite Hfold. unfold bind, ClaudeVisionService.onProgress, send, modify, ret.
  eexists _, n, (events ++ [AnalyzeProgress n total AnalysisComplete]).
  split_and!; try done.
  - simpl. by rewrite Hsent, app_assoc.
  - apply Forall_app. split; [done|]. repeat constructor. by eexists _, _.
  - intros _. by rewrite last_snoc.
Qed.

(** X19. When no thumbnail of the selected photos can be read, the run
    sends no request and writes no score, and it returns the number of the
    selected photos as the number of photos analysed. *)
Theorem scoring_unreadable_thumbnails (w : World) :
  (forall p, p ∈ unscored w -> files w !! Photo.thumbnail_path p = None) ->
  exists w',
    analyzePhotos w = (w', Ok (length (unscored w)))
    /\ api_calls w' = api_calls w
    /\ photos w' = photos w.
Proof.
  intros Hnone.
  unfold ClaudeVisionService.analyzePhotos, ClaudeVisionService.select_unscored.
  unfold bind at 1, gets.
  destruct (decide _) as [Hzero|Hsome]; [exists w; by rewrite Hzero|].
  destruct (batches_some ClaudeVisionService.BATCH_SIZE (unscored w)) as (bs & Hbs & Hcat).
  { unfold ClaudeVisionService.BATCH_SIZE. lia. }
  rewrite Hbs. unfold bind at 1.
  cut (forall processed w0,
         files w0 = files w ->
         exists w1,
           fold_each bs processed (analyzeStep (length (unscored w))) w0
           = (w1, Ok (processed + sum_list (length <$> bs.*2))%nat)
           /\ api_calls w1 = api_calls w0 /\ photos w1 = photos w0).
  { intros Hcut. destruct (Hcut 0%nat w eq_refl) as (w1 & Hfold & Hcalls & Hphotos).
    rewrite Hfold, sum_lengths_concat, Hcat.
    unfold bind, ClaudeVisionService.onProgress, send, modify, ret.
    eexists. split; [reflexivity|done]. }
  assert (Hin : forall batch, batch ∈ bs.*2 -> forall p, p ∈ batch -> p ∈ unscored w).
  { intros batch Hbatch p Hp. rewrite <- Hcat. by apply (elem_of_concat_2 p batch). }
  clear Hbs Hcat. induction bs as [|[i batch] bs IH]; intros processed w0 Hfiles.
  - exists w0. split_and!; try done.
    change ((w0, Ok processed) = (w0, Ok (processed + 0)%nat)).
    by rewrite Nat.add_0_r.
  - cbn [fold_each]. unfold bind at 1.
    set (w1 := add_sent (AnalyzeProgress processed (length (unscored w))
                 (AnalyzingBatch (i / ClaudeVisionService.BATCH_SIZE + 1))) w0).
    assert (Hrun : analyzeBatch batch 0 w1 = (w1, Ok tt)).
    { apply analyzeBatch_no_thumbnail. change (files w1) with (files w0).
      rewrite Hfiles. apply thumbnails_unreadable. intros p Hp.
      apply Hnone, (Hin batch); [rewrite fmap_cons; by left|done]. }
    rewrite (analyzeStep_returns _ _ _ _ _ _ _ _ _ _ _ _ Hrun).
    destruct (IH ltac:(intros b Hb; apply Hin; rewrite fmap_cons; by right)
                (processed + length batch)%nat w1 Hfiles)
      as (w2 & Hfold & Hcalls & Hphotos).
    exists w2. rewrite Hfold. split_and!; try done.
    do 2 f_equal.
    change (sum_list (length <$> ((i, batch) :: bs).*2))
      with (length batch + sum_list (length <$> bs.*2))%nat.
    lia.
Qed.

End ScoringExtras.

Lemma scoring_unreadable_thumbnails_witness :
  exists w',
    ClaudeVisionService.analyzePhotos (Stub.script []) Json.json_parse Stub.coerce Stub.driver Stub.base64
      Stub.project (without_files Stub.world)
    = (w', Ok (length (ClaudeVisionService.unscored (Project.id Stub.project)
                         (photos (without_files Stub.world)))))
    /\ api_calls w' = api_calls (without_files Stub.world)
    /\ photos w' = photos (without_files Stub.world).
Proof.
  apply (scoring_unreadable_thumbnails (Stub.script []) Json.json_parse Stub.coerce Stub.driver Stub.base64
           Stub.project (without_files Stub.world)).
  intros p _. reflexivity.
Defined.

(** ** More on a grouping run *)

#[local] Instance keeps_groups_below_preorder pid : PreOrder (keeps_groups_below pid).
Proof.
  split.
  - intros w H. exact H.
  - intros w1 w2 w3 H1 H2 H. apply H2, H1, H.
Qed.

Lemma filter_fmap_keeps {A} (P : A -> Prop) `{!forall x, Decision (P x)} (f : A -> A)
    (l : list A) :
  (forall x, P (f x) <-> P x) -> filter P (f <$> l) = f <$> filter P l.
Proof.
  intros Hf. induction l as [|x l IH]; [done|]. rewrite fmap_cons.
  destruct (decide (P x)) as [Hx|Hx].
  - rewrite !filter_cons_True by by rewrite ?Hf. by rewrite fmap_cons, IH.
  - rewrite !filter_cons_False by by rewrite ?Hf. done.
Qed.

Lemma photos_cleared pid w :
  photos (cleared pid w)
  = (fun p => if decide (Photo.project_id p = pid) then Photo.set_group None p else p)
      <$> photos w.
Proof. done. Qed.

Lemma group_ids_cleared pid w :
  SimilarityGroupingService.group_ids pid (photos (cleared pid w)) = [].
Proof.
  rewrite photos_cleared. unfold SimilarityGroupingService.group_ids.
  induction (photos w) as [|p table IH]; [done|]. rewrite fmap_cons.
  destruct (decide (Photo.project_id p = pid)) as [Hp|Hp].
  - rewrite filter_cons_True by done. simpl. apply IH.
  - rewrite filter_cons_False by done. apply IH.
Qed.

Lemma project_photos_cleared pid w p :
  p ∈ project_photos pid (cleared pid w) ->
  Photo.project_id p = pid
  /\ Photo.id p ∈ Photo.id <$> project_photos pid w.
Proof.
  unfold project_photos. rewrite !merge_sort_Permutation, photos_cleared.
  intros [Hp (q & -> & Hq)%list_elem_of_fmap]%list_elem_of_filter.
  split; [done|].
  apply list_elem_of_fmap. exists q. split; [by destruct (decide _)|].
  apply list_elem_of_filter. split; [|done]. by destruct (decide _).
Qed.

Lemma length_project_photos_cleared pid w :
  length (project_photos pid (cleared pid w)) = length (project_photos pid w).
Proof.
  unfold project_photos. rewrite !merge_sort_Permutation, photos_cleared.
  rewrite filter_fmap_keeps; [by rewrite length_fmap|].
  intros p. by destruct (decide _).
Qed.

Lemma group_ids_assigned pid g ids table x :
  x ∈ SimilarityGroupingService.group_ids pid (assigned g ids table) ->
  x = g \/ x ∈ SimilarityGroupingService.group_ids pid table.
Proof.
  unfold SimilarityGroupingService.group_ids, assigned.
  intros (p' & Hin & Hx)%list_elem_of_omap.
  apply list_elem_of_filter in Hin as [Hproject (p & -> & Hp)%list_elem_of_fmap].
  destruct (decide (Photo.id p ∈ ids)).
  - left. simpl in Hx. congruence.
  - right. apply list_elem_of_omap. exists p. split; [|done].
    by apply list_elem_of_filter.
Qed.

Lemma assign_keeps_groups_below pid groupPhotos w :
  keeps_groups_below pid w (assign groupPhotos w).
Proof.
  intros [Hnext Hbelow]. split; [simpl; lia|]. intros g Hg.
  apply group_ids_assigned in Hg as [->|Hg]; [simpl; lia|].
  specialize (Hbelow g Hg). simpl. lia.
Qed.

(** Distinct integers from 1 to k - 1 are k - 1 at most. *)
Lemma length_NoDup_below (l : list Z) k :
  NoDup l -> (forall g, g ∈ l -> 1 <= g < k) -> Z.of_nat (length l) <= k - 1 \/ l = [].
Proof.
  intros Hnodup Hbelow. destruct l as [|g0 l0] eqn:Hl; [by right|]. left. rewrite <- Hl in *.
  assert (1 <= k - 1) by (specialize (Hbelow g0); rewrite Hl in Hbelow;
                          specialize (Hbelow ltac:(left)); lia).
  assert (Hle : (length l <= length (seqZ 1 (k - 1)))%nat).
  { apply submseteq_length, NoDup_submseteq; [done|].
    intros g Hg. apply elem_of_seqZ. specialize (Hbelow g Hg). lia. }
  rewrite length_seqZ in Hle. lia.
Qed.

Section GroupingExtras.
Variable create : nat -> list ContentBlock -> Outcome.
Variable JSON_parse : string -> option json.
Variable coerce : json -> Double.number.
Variable base64 : string -> string.
Variable project : Project.t.

Local Abbreviation assignGroup := (SimilarityGroupingService.assignGroup coerce).
Local Abbreviation saveResults := (SimilarityGroupingService.saveResults JSON_parse coerce).
Local Abbreviation processBatch_fuel :=
  (SimilarityGroupingService.processBatch_fuel create JSON_parse coerce base64).
Local Abbreviation processBatch :=
  (SimilarityGroupingService.processBatch create JSON_parse coerce base64).
Local Abbreviation group_similar :=
  (SimilarityGroupingService.group_similar create JSON_parse coerce base64 project).
Local Abbreviation pid := (Project.id project).

(** *** A relation kept by a run, for the groups that the run assigns *)

Section Keeps.
Context (R : relation World) `{!PreOrder R}.
Hypothesis R_call : forall w, R w (add_call w).
Hypothesis R_delay : forall d w, R w (add_delay d w).

Lemma assignGroup_keeps batch group :
  (forall groupPhotos w,
     (forall p, p ∈ groupPhotos -> p ∈ batch) -> (2 <= length groupPhotos)%nat ->
     R w (assign groupPhotos w)) ->
  preserves R (assignGroup batch group).
Proof.
  intros Hassign w. unfold SimilarityGroupingService.assignGroup, bind at 1, lift.
  destruct (SimilarityGroupingService.photo_ids_of group) as [photoIds| |];
    [|reflexivity|reflexivity].
  destruct (SimilarityGroupingService.length_below_2 _ _); [reflexivity|].
  unfold bind at 1.
  destruct (filter_includes_cases photoIds batch) as [(gp & -> & Hsub)| ->];
    [|reflexivity].
  destruct (Nat.ltb_spec (length gp) 2); [reflexivity|].
  unfold bind, gets, modify. rewrite update_groups_assigned.
  assert (HR : R w (assign gp w)).
  { apply Hassign; [|done]. intros p Hp.
    by apply (elem_of_submseteq gp batch p Hp), sublist_submseteq. }
  by destruct photoIds.
Qed.

Lemma grouping_saveResults_keeps batch response :
  (forall groupPhotos w,
     (forall p, p ∈ groupPhotos -> p ∈ batch) -> (2 <= length groupPhotos)%nat ->
     R w (assign groupPhotos w)) ->
  preserves R (saveResults batch response).
Proof.
  intros Hassign. apply grouping_saveResults_preserves; [exact _|].
  intros group. by apply assignGroup_keeps.
Qed.

Lemma processBatch_keeps batch fuel retryCount :
  (forall n content response,
     create n content = Responds response ->
     preserves R (saveResults batch response)) ->
  preserves R (processBatch_fuel fuel batch retryCount).
Proof.
  intros Hsave. revert retryCount.
  assert (Hbody : forall content,
    preserves R (let* response := messages_create create content in
                 saveResults batch response)).
  { intros content w. unfold bind, messages_create.
    destruct (create (api_calls w) content) as [response|error] eqn:Hcreate; simpl;
      [|apply R_call].
    etrans; [apply R_call|]. by apply (Hsave _ _ _ Hcreate). }
  induction fuel as [|fuel IH]; intros rc; simpl.
  - papply @preserves_bind.
    { intros w. rewrite buildContent_grouping. simpl. reflexivity. }
    intros [|c cs]; [papply @preserves_ret|].
    papply @preserves_try_catch; [apply Hbody|]. intros e.
    destruct (decide _); [|papply @preserves_throw].
    destruct (rc <? 3)%nat; [papply @preserves_out_of_fuel|papply @preserves_throw].
  - papply @preserves_bind.
    { intros w. rewrite buildContent_grouping. simpl. reflexivity. }
    intros [|c cs]; [papply @preserves_ret|].
    papply @preserves_try_catch; [apply Hbody|]. intros e.
    destruct (decide _); [|papply @preserves_throw].
    destruct (rc <? 3)%nat; [|papply @preserves_throw].
    papply @preserves_bind; [papply @preserves_modify; apply R_delay|]. intros _. apply IH.
Qed.

(** The loop over the batches returns, whatever happens in a batch. *)
Lemma batches_caught (bs : list (nat * list Photo.t)) w :
  (forall i batch n content response,
     (i, batch) ∈ bs ->
     create n content = Responds response ->
     preserves R (saveResults batch response)) ->
  exists w1,
    for_each bs (fun '(_, batch) =>
      if (length batch <? 2)%nat then ret tt else
      try_catch (processBatch batch 0) (fun _ => ret tt)) w = (w1, Ok tt)
    /\ R w w1.
Proof.
  revert w. induction bs as [|[i batch] bs IH]; intros w Hsave.
  - exists w. by split.
  - cbn [for_each]. unfold bind at 1.
    assert (Hstep : exists w0,
      (if (length batch <? 2)%nat then ret tt else
       try_catch (processBatch batch 0) (fun _ => ret tt)) w = (w0, Ok tt) /\ R w w0).
    { destruct (_ <? 2)%nat; [by exists w|]. unfold try_catch.
      pose proof (processBatch_ends create JSON_parse coerce base64 batch 0 w) as Hends.
      pose proof (processBatch_keeps batch (3 - 0) 0
                    (fun n c r => Hsave i batch n c r ltac:(left)) w) as Hkeeps.
      fold (processBatch batch 0) in Hkeeps.
      destruct (processBatch batch 0 w) as [w0 [[]|e|]]; [| |done]; by exists w0. }
    destruct Hstep as (w0 & -> & HR).
    destruct (IH w0) as (w1 & Hrest & HR1).
    { intros j b n c r Hin. apply (Hsave j b n c r). by right. }
    exists w1. split; [done|by etrans].
Qed.

(** A grouping run returns the number of distinct group ids of the photos
    of the project, and a relation that the saving of the answers keeps,
    for the batches of the run, holds from the cleared state to its end. *)
Lemma group_similar_run w :
  (forall batch n content response,
     (forall p, p ∈ batch -> p ∈ project_photos pid (cleared pid w)) ->
     create n content = Responds response ->
     preserves R (saveResults batch response)) ->
  exists w',
    group_similar w
    = (w', Ok (length (remove_dups
                         (SimilarityGroupingService.group_ids pid (photos w')))))
    /\ R (cleared pid w) w'.
Proof.
  intros Hsave.
  unfold SimilarityGroupingService.group_similar, SimilarityGroupingService.construct.
  unfold bind at 1, modify.
  unfold SimilarityGroupingService.groupPhotos, bind at 1.
  change (SimilarityGroupingService.clear_groups pid (set_nextGroupId 1 w))
    with (cleared pid w, Ok tt).
  unfold bind at 1, SimilarityGroupingService.select_photos, gets.
  fold (project_photos pid (cleared pid w)).
  destruct (_ <? 2)%nat.
  { exists (cleared pid w). by rewrite group_ids_cleared. }
  destruct (batches_some SimilarityGroupingService.BATCH_SIZE
              (project_photos pid (cleared pid w))) as (bs & Hbs & Hcat).
  { unfold SimilarityGroupingService.BATCH_SIZE. lia. }
  rewrite Hbs. unfold bind at 1.
  destruct (batches_caught bs (cleared pid w)) as (w1 & -> & HR).
  { intros i batch n content response Hin. apply Hsave. intros p Hp.
    rewrite <- Hcat. apply (elem_of_concat_2 p batch); [done|].
    apply list_elem_of_fmap. by exists (i, batch). }
  exists w1. by split.
Qed.

End Keeps.

(** X20. A grouping run returns, whatever the service answers, and what it
    returns is the number of distinct group ids that the photos of the
    project have at its end. These ids were given by this run: they are
    integers from 1 to nextGroupId - 1, so that the number returned is
    nextGroupId - 1 at most. *)
Theorem grouping_counts_its_groups (w : World) :
  exists w' n,
    group_similar w = (w', Ok n)
    /\ n = length (remove_dups (SimilarityGroupingService.group_ids pid (photos w')))
    /\ 1 <= nextGroupId w'
    /\ (forall g, g ∈ SimilarityGroupingService.group_ids pid (photos w') ->
                  1 <= g < nextGroupId w')
    /\ Z.of_nat n <= nextGroupId w' - 1.
Proof.
  destruct (group_similar_run (keeps_groups_below pid)) with (w := w)
    as (w' & Hrun & Hkeeps).
  { by intros w0 H. }
  { by intros d w0 H. }
  { intros batch n content response _ _. apply grouping_saveResults_keeps; [exact _|].
    intros groupPhotos w0 _ _. apply assign_keeps_groups_below. }
  destruct Hkeeps as [Hnext Hbelow].
  { split; [done|]. intros g Hg. rewrite group_ids_cleared in Hg.
    by apply elem_of_nil in Hg. }
  eexists w', _. split; [exact Hrun|]. split_and!; try done.
  destruct (length_NoDup_below
              (remove_dups (SimilarityGroupingService.group_ids pid (photos w')))
              (nextGroupId w')) as [Hle| ->].
  - apply NoDup_remove_dups.
  - intros g Hg. apply Hbelow. by apply elem_of_remove_dups.
  - done.
  - simpl. lia.
Qed.

(** X21. A grouping run writes only in the rows whose id is the id of a
    photo of the project. When the ids of the table are distinct, the rows
    of the photos of the other projects are the same after the run. *)
Theorem grouping_keeps_other_projects (w : World) :
  let w' := (group_similar w).1 in
  Forall2 (same_unless_in (Photo.id <$> project_photos pid w)) (photos w) (photos w')
  /\ (NoDup (Photo.id <$> photos w) ->
      Forall2 (fun p p' => Photo.project_id p <> pid -> p' = p) (photos w) (photos w')).
Proof.
  intros w'.
  set (ids := Photo.id <$> project_photos pid w).
  assert (Hrows : rows (same_unless_in ids) w w').
  { destruct (group_similar_run (rows (same_unless_in ids))) with (w := w)
      as (w1 & Hrun & Hkeeps).
    - intros w0. by apply rows_same; [exact _|].
    - intros d w0. by apply rows_same; [exact _|].
    - intros batch n content response Hbatch _.
      apply grouping_saveResults_keeps; [exact _|].
      intros groupPhotos w0 Hgroup _. unfold assign, assigned.
      apply (rows_set_photos (same_unless_in ids)
               (fun p => if decide (Photo.id p ∈ Photo.id <$> groupPhotos)
                         then Photo.set_group (Some (nextGroupId w0)) p else p)
               (set_nextGroupId (nextGroupId w0 + 1) w0)).
      intros q. destruct (decide _) as [Hin|]; [|reflexivity].
      split; [done|]. intros Hnot. exfalso. apply Hnot.
      apply list_elem_of_fmap in Hin as (p & -> & Hp).
      by apply (project_photos_cleared pid w), Hbatch, Hgroup.
    - unfold w'. rewrite Hrun. cbn [fst]. etrans; [|exact Hkeeps].
      unfold rows. rewrite photos_cleared.
      cut (forall table, Forall (fun p => p ∈ photos w) table ->
             Forall2 (same_unless_in ids) table
               ((fun p => if decide (Photo.project_id p = pid)
                          then Photo.set_group None p else p) <$> table)).
      { intros Hcut. apply Hcut. by apply Forall_forall. }
      clear. intros table Hall.
      induction table as [|p table IH]; [constructor|].
      apply Forall_cons in Hall as [Hp Hall]. rewrite fmap_cons.
      constructor; [|by apply IH].
      destruct (decide _) as [Hproject|]; [|reflexivity].
      split; [done|]. intros Hnot. exfalso. apply Hnot.
      apply list_elem_of_fmap. exists p. split; [done|].
      unfold project_photos. rewrite merge_sort_Permutation.
      by apply list_elem_of_filter. }
  split; [exact Hrows|]. intros Hnodup. unfold rows in Hrows.
  cut (forall table table',
         Forall (fun p => p ∈ photos w) table ->
         Forall2 (same_unless_in ids) table table' ->
         Forall2 (fun p p' => Photo.project_id p <> pid -> p' = p) table table').
  { intros Hcut. apply Hcut; [by apply Forall_forall|exact Hrows]. }
  clear Hrows. intros table table' Hin Hrows.
  induction Hrows as [|p p' table table' [_ Hsame] _ IH]; [constructor|].
  apply Forall_cons in Hin as [Hp Hin]. constructor; [|by apply IH].
  intros Hother. apply Hsame. intros Hid.
  apply list_elem_of_fmap in Hid as (q & Hid & Hq).
  unfold project_photos in Hq. rewrite merge_sort_Permutation in Hq.
  apply list_elem_of_filter in Hq as [Hproject Hq].
  assert (p = q) by by apply (NoDup_fmap_eq Photo.id (photos w)).
  by subst q.
Qed.

(** X22. When the service rejects every request, the run returns 0 and
    leaves the table as the clearing made it: the photos of the project
    have lost the groups that they had before the run. *)
Theorem grouping_rejected_forgets_groups (w : World) :
  (forall n content, exists error, create n content = Rejects error) ->
  exists w',
    group_similar w = (w', Ok 0%nat)
    /\ photos w' = photos (cleared pid w)
    /\ Forall (fun p => Photo.project_id p = pid -> Photo.similarity_group_id p = None)
              (photos w').
Proof.
  intros Hrejects.
  destruct (group_similar_run same_table) with (w := w) as (w' & Hrun & Hsame);
    try done.
  { intros batch n content response _ Hcreate.
    destruct (Hrejects n content) as [error Herror]. congruence. }
  unfold same_table in Hsame.
  exists w'. rewrite Hrun, Hsame, group_ids_cleared. split_and!; try done.
  rewrite photos_cleared. apply Forall_fmap, Forall_forall. intros p _. simpl.
  destruct (decide _); [done|]. simpl. by intros.
Qed.

(** *** The requests of a run *)

Lemma processBatch_calls fuel batch retryCount w :
  calls_within (S fuel) w (processBatch_fuel fuel batch retryCount w).1.
Proof.
  unfold calls_within.
  cut (forall w1 r, processBatch_fuel fuel batch retryCount w = (w1, r) ->
                    (api_calls w <= api_calls w1 <= api_calls w + S fuel)%nat).
  { intros Hcut. destruct (processBatch_fuel fuel batch retryCount w) as [w1 r] eqn:Hrun.
    by apply (Hcut w1 r). }
  revert retryCount w.
  induction fuel as [|fuel IH]; intros rc w w1 r; simpl; unfold bind at 1;
    rewrite buildContent_grouping;
    (destruct (thumbnails base64 (files w) batch []) as [|c cs];
     [intros [= <- <-]; lia|]);
    unfold try_catch, bind at 1, messages_create;
    (destruct (create (api_calls w) _) as [response|error];
     [pose proof (grouping_saveResults_same_calls JSON_parse coerce batch response (add_call w))
        as (Hcalls & _);
      pose proof (grouping_saveResults_throws JSON_parse coerce batch response (add_call w))
        as Hthrows;
      destruct (saveResults batch response (add_call w)) as [w2 [[]|e|]];
      simpl in Hcalls;
      [intros [= <- <-]; lia
      |specialize (Hthrows e eq_refl);
       destruct (decide (status e = Some 429)); [congruence|intros [= <- <-]; lia]
      |intros [= <- <-]; lia]
     |]);
    (destruct (decide (status error = Some 429)); [|intros [= <- <-]; simpl; lia]);
    (destruct (rc <? 3)%nat; [|intros [= <- <-]; simpl; lia]).
  - intros [= <- <-]. simpl. lia.
  - unfold bind, sleep, modify. intros Hrun. apply IH in Hrun. simpl in Hrun. lia.
Qed.

Lemma batches_calls (bs : list (nat * list Photo.t)) w :
  calls_within (4 * length bs) w
    (for_each bs (fun '(_, batch) =>
       if (length batch <? 2)%nat then ret tt else
       try_catch (processBatch batch 0) (fun _ => ret tt)) w).1.
Proof.
  unfold calls_within. revert w.
  induction bs as [|[i batch] bs IH]; intros w; [simpl; lia|].
  cbn [for_each]. unfold bind.
  assert (Hstep : exists w0,
    (if (length batch <? 2)%nat then ret tt else
     try_catch (processBatch batch 0) (fun _ => ret tt)) w = (w0, Ok tt)
    /\ (api_calls w <= api_calls w0 <= api_calls w + 4)%nat).
  { destruct (_ <? 2)%nat; [exists w; split; [done|lia]|]. unfold try_catch.
    pose proof (processBatch_ends create JSON_parse coerce base64 batch 0 w) as Hends.
    pose proof (processBatch_calls (3 - 0) batch 0 w) as Hcalls.
    fold (processBatch batch 0) in Hcalls. unfold calls_within in Hcalls.
    destruct (processBatch batch 0 w) as [w0 [[]|e|]]; [| |done]; by exists w0. }
  destruct Hstep as (w0 & Hstep & Hcalls). specialize (IH w0).
  rewrite !Hstep. lazy beta iota. cbn [length]. lia.
Qed.

(** X23. A grouping run sends four requests at most for each batch of 20
    photos of the project (one and three retries), and none when the
    project has one photo or none. *)
Theorem grouping_requests_bound (w : World) :
  let n := length (project_photos pid w) in
  calls_within (4 * Js.ceil_div n 20) w (group_similar w).1
  /\ ((n < 2)%nat -> api_calls (group_similar w).1 = api_calls w).
Proof.
  intros n.
  cut (forall w1 r, group_similar w = (w1, r) ->
         (api_calls w <= api_calls w1 <= api_calls w + 4 * Js.ceil_div n 20)%nat
         /\ ((n < 2)%nat -> api_calls w1 = api_calls w)).
  { intros Hcut. destruct (group_similar w) as [w1 r] eqn:Hrun. by apply (Hcut w1 r). }
  intros w1 r.
  unfold SimilarityGroupingService.group_similar, SimilarityGroupingService.construct.
  unfold bind at 1, modify.
  unfold SimilarityGroupingService.groupPhotos, bind at 1.
  change (SimilarityGroupingService.clear_groups pid (set_nextGroupId 1 w))
    with (cleared pid w, Ok tt).
  unfold bind at 1, SimilarityGroupingService.select_photos, gets.
  fold (project_photos pid (cleared pid w)).
  rewrite length_project_photos_cleared. fold n.
  destruct (Nat.ltb_spec n 2) as [Hfew|Hmany].
  { intros [= <- <-]. simpl. split; [lia|done]. }
  destruct (batch_loop_spec SimilarityGroupingService.BATCH_SIZE
              (project_photos pid (cleared pid w))
              (length (project_photos pid (cleared pid w))) 0) as (bs & Hbs & _ & Hlen & _).
  { unfold SimilarityGroupingService.BATCH_SIZE. lia. }
  { unfold SimilarityGroupingService.BATCH_SIZE. lia. }
  rewrite Nat.sub_0_r, length_project_photos_cleared in Hlen. fold n in Hlen.
  change (Js.batches SimilarityGroupingService.BATCH_SIZE
            (project_photos pid (cleared pid w)))
    with (Js.batch_loop (length (project_photos pid (cleared pid w)))
            SimilarityGroupingService.BATCH_SIZE 0 (project_photos pid (cleared pid w))).
  rewrite Hbs. unfold bind at 1.
  pose proof (batches_calls bs (cleared pid w)) as Hcalls.
  change SimilarityGroupingService.BATCH_SIZE with 20%nat in Hlen. rewrite <- Hlen.
  unfold calls_within in Hcalls.
  destruct (for_each bs _ (cleared pid w)) as [w2 [[]|e|]];
    intros [= <- <-]; simpl in *; (split; [lia|lia]).
Qed.

End GroupingExtras.

Lemma grouping_rejected_forgets_groups_witness :
  exists w',
    SimilarityGroupingService.group_similar (Stub.script []) Json.json_parse Stub.coerce Stub.base64
      Stub.project (set_photos (fmap (Photo.set_group (Some 7))) Stub.world)
    = (w', Ok 0%nat)
    /\ photos w'
       = photos (cleared (Project.id Stub.project)
                   (set_photos (fmap (Photo.set_group (Some 7))) Stub.world))
    /\ Forall (fun p => Photo.project_id p = Project.id Stub.project ->
                        Photo.similarity_group_id p = None)
              (photos w').
Proof.
  apply (grouping_rejected_forgets_groups (Stub.script []) Json.json_parse Stub.coerce Stub.base64
           Stub.project (set_photos (fmap (Photo.set_group (Some 7))) Stub.world)).
  intros n content. exists (ApiError None). reflexivity.
Defined.

(** The export of the stub: the raw file and the missing file are skipped,
    the two JPEG files are numbered in the order of their scores, the export
    of the earlier run is removed and the other file is left. *)
Example export_on_a_disk :
  let run := StubExport.exportSelected Stub.project StubExport.world in
  run.2 = Ok (PhotoExport.mkExportResult
                ["/store/p/exports/p_01.jpg"; "/store/p/exports/p_02.jpg"] 2)
  /\ files run.1 !! "/store/p/exports/p_01.jpg" = Some "jpeg:DDD"
  /\ files run.1 !! "/store/p/exports/p_02.jpg" = Some "jpeg:AAA"
  /\ files run.1 !! "/store/p/exports/p_07.jpg" = None
  /\ files run.1 !! "/store/p/exports/notes.txt" = Some "notes".
Proof. vm_compute. repeat split. Qed.
